(** * Acceptance-test harness of the Alertmanager: a shallow embedding

    The harness (package [test]) drives out-of-process Alertmanager
    instances along a relative time axis.  This development embeds its
    virtual clock, its action registry, the managed-instance operations
    and the orchestration of [Run], and states the properties of the
    natural-language specification over that embedding.  It also embeds
    the checks that the configuration package (package [config]) makes
    on the file an instance is configured with.

    Conventions.
    - [time.Time] is a number of nanoseconds on an unbounded integer axis;
      [time.Duration] is an [int64] number of nanoseconds.
    - [float64] is modelled by its values: rationals that are rounded to
      binary64 after each operation, the two infinities and NaN.
    - Go pointers are indices into stores held by the [World].
    - What the operating system, the network and the server under test
      answer is given by an environment [Env] of oracles. *)

From Stdlib Require Import ZArith QArith Qround Qabs Qpower Lia Lqa.
From Stdlib Require Floats Uint63.
From stdpp Require Import base option list gmap strings.

(** * binary64 values *)

Module F64.

(** The values of Go's [float64].  The sign of zero is not represented:
    Go's [==] and map keys identify the two zeros, and none of the
    operations of the harness tells them apart. *)
Inductive float64 : Type :=
  | Fin (q : Q)
  | Inf (neg : bool)
  | NaN.

(** [floor (log2 q)] for a positive rational. *)
Definition ilog2 (q : Q) : Z :=
  let k := (Z.log2 (Qnum q) - Z.log2 (Zpos (Qden q)))%Z in
  if Qle_bool (2 ^ k) q then k else (k - 1)%Z.

(** Nearest integer, ties to even. *)
Definition rne (q : Q) : Z :=
  let f := Qfloor q in
  match (q - inject_Z f ?= (1 # 2))%Q with
  | Lt => f
  | Gt => (f + 1)%Z
  | Eq => if Z.even f then f else (f + 1)%Z
  end.

(** Exponent of the unit in the last place of the binade of [q]:
    53 bits of precision, smallest exponent -1074. *)
Definition ulp_exp (q : Q) : Z := Z.max (ilog2 (Qabs q) - 52) (-1074).

(** The rounded rational, before the overflow test. *)
Definition round_q (q : Q) : Q :=
  (inject_Z (rne (q / 2 ^ ulp_exp q)) * 2 ^ ulp_exp q)%Q.

(** Round to nearest even into binary64; overflow gives an infinity. *)
Definition round (q : Q) : float64 :=
  if Qeq_bool q 0 then Fin 0
  else
    let r := round_q q in
    if Qle_bool (2 ^ 1024) (Qabs r) then Inf (negb (Qle_bool 0 q))
    else Fin (Qred r).

Definition is_neg (q : Q) : bool := negb (Qle_bool 0 q).

(** [x * y] *)
Definition mul (x y : float64) : float64 :=
  match x, y with
  | NaN, _ | _, NaN => NaN
  | Fin a, Fin b => round (a * b)
  | Inf s, Inf s' => Inf (xorb s s')
  | Inf s, Fin b | Fin b, Inf s =>
      if Qeq_bool b 0 then NaN else Inf (xorb s (is_neg b))
  end.

(** [x / y]; a zero divisor counts as +0. *)
Definition div (x y : float64) : float64 :=
  match x, y with
  | NaN, _ | _, NaN => NaN
  | Inf _, Inf _ => NaN
  | Inf s, Fin b => Inf (xorb s (is_neg b))
  | Fin _, Inf _ => Fin 0
  | Fin a, Fin b =>
      if Qeq_bool b 0
      then (if Qeq_bool a 0 then NaN else Inf (is_neg a))
      else round (a / b)
  end.

(** [x == y] and [x > y]; both are false when an operand is NaN. *)
Definition eqb (x y : float64) : bool :=
  match x, y with
  | Fin a, Fin b => Qeq_bool a b
  | Inf s, Inf s' => Bool.eqb s s'
  | _, _ => false
  end.

Definition gtb (x y : float64) : bool :=
  match x, y with
  | NaN, _ | _, NaN => false
  | Fin a, Fin b => negb (Qle_bool a b)
  | Inf s, Inf s' => negb s && s'
  | Inf s, Fin _ => negb s
  | Fin _, Inf s => s
  end.

Definition zero : float64 := Fin 0.

(** ** Conversions between [int64] and [float64] *)

Definition int64_min : Z := (- 2 ^ 63)%Z.
Definition int64_max : Z := (2 ^ 63 - 1)%Z.

Definition in_int64 (z : Z) : bool := (int64_min <=? z)%Z && (z <=? int64_max)%Z.

(** Two's complement wrap-around into [int64]. *)
Definition int64_wrap (z : Z) : Z := ((z + 2 ^ 63) mod 2 ^ 64 - 2 ^ 63)%Z.

(** [float64(z)]: the nearest binary64 value. *)
Definition of_int64 (z : Z) : float64 := round (inject_Z z).

(** Truncation toward zero. *)
Definition Qtrunc (q : Q) : Z := if Qle_bool 0 q then Qfloor q else Qceiling q.

(** [int64(x)].  The fractional part is discarded.  When the value does
    not fit (too large, infinite or NaN) "the conversion succeeds but the
    result value is implementation-dependent" (Go specification): the
    result is then what the platform [indef] gives, some [int64]. *)
Definition to_int64 (indef : float64 -> Z) (x : float64) : Z :=
  match x with
  | Fin q => if in_int64 (Qtrunc q) then Qtrunc q else int64_wrap (indef x)
  | _ => int64_wrap (indef x)
  end.

(** amd64: CVTTSD2SQ answers the "integer indefinite" value. *)
Definition indef_amd64 (_ : float64) : Z := int64_min.

(** arm64: FCVTZS saturates, and NaN becomes 0. *)
Definition indef_arm64 (x : float64) : Z :=
  match x with
  | Fin q => if Qle_bool 0 q then int64_max else int64_min
  | Inf s => if s then int64_min else int64_max
  | NaN => 0%Z
  end.

(** [x] is a finite value of the type: rounding leaves it alone. *)
Definition is_binary64 (q : Q) : Prop := exists q', round q = Fin q' /\ (q' == q)%Q.

End F64.

(** * package time *)

Module GoTime.

(** [time.Time]: nanoseconds since the epoch. *)
Definition Time : Type := Z.

(** [time.Duration]: an [int64] count of nanoseconds. *)
Definition Duration : Type := Z.

Definition Nanosecond : Duration := 1%Z.
Definition Millisecond : Duration := 1000000%Z.
Definition Second : Duration := 1000000000%Z.

Definition minDuration : Duration := F64.int64_min.
Definition maxDuration : Duration := F64.int64_max.

(** [t.Add(d)] *)
Definition Add (t : Time) (d : Duration) : Time := (t + d)%Z.

(** [t.Sub(u)]: "If the result exceeds the maximum (or minimum) value that
    can be stored in a Duration, the maximum (or minimum) duration will be
    returned." *)
Definition Sub (t u : Time) : Duration :=
  Z.max minDuration (Z.min maxDuration (t - u)).

End GoTime.

(** * The virtual clock *)

Module Clock.
Import F64 GoTime.

Section clock.

(** Result of an out-of-range conversion to [int64] on the platform. *)
Variable indef : float64 -> Z.

(** [AcceptanceOpts] *)
Record AcceptanceOpts : Type := {
  Tolerance : Duration;
  baseTime : Time;
}.

(** [func (opts *AcceptanceOpts) expandTime(rel float64) time.Time] *)
Definition expandTime (opts : AcceptanceOpts) (rel : float64) : Time :=
  Add (baseTime opts) (to_int64 indef (mul rel (of_int64 Second))).

(** [func (opts *AcceptanceOpts) relativeTime(act time.Time) float64] *)
Definition relativeTime (opts : AcceptanceOpts) (act : Time) : float64 :=
  div (of_int64 (Sub act (baseTime opts))) (of_int64 Second).

End clock.

Arguments Tolerance : clear implicits.
Arguments baseTime : clear implicits.

(** Distance between two float64 values, when both are finite. *)
Definition within (eps : Q) (x y : float64) : Prop :=
  match x, y with
  | Fin a, Fin b => (Qabs (a - b) < eps)%Q
  | _, _ => False
  end.

End Clock.

(** * The Go runtime as far as the harness needs it *)

Module GoRt.

(** How a call ends.  [Panic] and [Goexit] unwind the calling goroutine and
    run its deferred calls ([testing.T.FailNow] ends in [runtime.Goexit]).
    [Crashed]: the process died from a panic in another goroutine.
    [Blocked]: the goroutine waits for ever. *)
Inductive Outcome (A : Type) : Type :=
  | Ret (a : A)
  | Panic
  | Goexit
  | Crashed
  | Blocked.

Arguments Ret {A} a.
Arguments Panic {A}.
Arguments Goexit {A}.
Arguments Crashed {A}.
Arguments Blocked {A}.

(** The outcome without its value. *)
Definition forget {A} (o : Outcome A) : Outcome unit :=
  match o with
  | Ret _ => Ret tt
  | Panic => Panic
  | Goexit => Goexit
  | Crashed => Crashed
  | Blocked => Blocked
  end.

(** An outcome that is not a normal return, at another type. *)
Definition retype {A B} (o : Outcome A) (dflt : B) : Outcome B :=
  match o with
  | Ret _ => Ret dflt
  | Panic => Panic
  | Goexit => Goexit
  | Crashed => Crashed
  | Blocked => Blocked
  end.

Section monad.
Context {W : Type}.

(** Code with effects on a world [W]. *)
Definition M (A : Type) : Type := W -> Outcome A * W.

Definition ret {A} (a : A) : M A := fun w => (Ret a, w).

Definition bind {A B} (m : M A) (k : A -> M B) : M B :=
  fun w =>
    match m w with
    | (Ret a, w') => k a w'
    | (Panic, w') => (Panic, w')
    | (Goexit, w') => (Goexit, w')
    | (Crashed, w') => (Crashed, w')
    | (Blocked, w') => (Blocked, w')
    end.

Definition panic {A} : M A := fun w => (Panic, w).
Definition goexit {A} : M A := fun w => (Goexit, w).
Definition get : M W := fun w => (Ret w, w).
Definition modify (f : W -> W) : M unit := fun w => (Ret tt, f w).

(** Dereference of a pointer that may be nil or dangling. *)
Definition deref {A} (o : option A) : M A :=
  match o with
  | Some a => ret a
  | None => panic
  end.

(** [for _, x := range xs { body x }] *)
Fixpoint for_each {A} (xs : list A) (body : A -> M unit) : M unit :=
  match xs with
  | [] => ret tt
  | x :: xs' => bind (body x) (fun _ => for_each xs' body)
  end.

(** A loop that collects one result per element. *)
Fixpoint map_each {A B} (xs : list A) (body : A -> M B) : M (list B) :=
  match xs with
  | [] => ret []
  | x :: xs' => bind (body x) (fun y => bind (map_each xs' body) (fun ys => ret (y :: ys)))
  end.

End monad.

Arguments M : clear implicits.

Declare Scope go_scope.
Delimit Scope go_scope with go.
Notation "'let*' x ':=' m 'in' k" := (bind m (fun x => k))
  (at level 10, x name, m at level 100, k at level 200) : go_scope.
Notation "'let*' ' p ':=' m 'in' k" := (bind m (fun p => k))
  (at level 10, p strict pattern, m at level 100, k at level 200) : go_scope.
Notation "m ;; k" := (bind m (fun _ => k))
  (at level 100, k at level 200, right associativity) : go_scope.

End GoRt.

(** * The harness: data *)

Module Harness.
Import F64 GoTime Clock GoRt.
Local Open Scope go_scope.

Inductive Signal : Type := SIGTERM | SIGHUP.

(** A Go result pair [(value, err)]. *)
Inductive result (A : Type) : Type :=
  | Ok (a : A)
  | Err (e : string).
Arguments Ok {A} a.
Arguments Err {A} e.

(** [os.Process] *)
Record os_Process : Type := { Pid : Z }.

(** [exec.Cmd]; [Stdout] and [Stderr] are the buffers the process fills. *)
Record Cmd : Type := {
  Path : string;
  Args : list string;
  Process : option os_Process;
  Stdout : string;
  Stderr : string;
}.

(** [os.File]: the path it was opened under and the offset of its
    descriptor. *)
Record File : Type := {
  Name : string;
  offset : nat;
}.

(** [type Alertmanager struct]; the pointer fields may be nil.  The client
    is given by the address it is bound to. *)
Record Alertmanager : Type := {
  addr : string;
  client : option string;
  cmd : option Cmd;
  confFile : option File;
}.

Definition with_Process (p : option os_Process) (c : Cmd) : Cmd :=
  {| Path := Path c; Args := Args c; Process := p;
     Stdout := Stdout c; Stderr := Stderr c |}.

Definition with_addr (s : string) (a : Alertmanager) : Alertmanager :=
  {| addr := s; client := client a; cmd := cmd a; confFile := confFile a |}.
Definition with_client (c : option string) (a : Alertmanager) : Alertmanager :=
  {| addr := addr a; client := c; cmd := cmd a; confFile := confFile a |}.
Definition with_cmd (c : option Cmd) (a : Alertmanager) : Alertmanager :=
  {| addr := addr a; client := client a; cmd := c; confFile := confFile a |}.
Definition with_confFile (f : option File) (a : Alertmanager) : Alertmanager :=
  {| addr := addr a; client := client a; cmd := cmd a; confFile := f |}.

(** Declared in files of the package that are not part of the sources at
    hand: the test alert and the native alert it converts to, the rest of
    a test silence and its native form, the identifier of a silence, the
    collector, and the conversions and collector methods that are called
    from the code at hand. *)
Record Decls : Type := {
  TestAlert : Type;
  Alert : Type;
  SilenceBody : Type;
  Silence : Type;
  SilenceID : Type;
  Collector : Type;
  nativeAlert : AcceptanceOpts -> TestAlert -> Alert;
  nativeSilence : AcceptanceOpts -> SilenceID -> SilenceBody -> Silence;
  Collector_latest : Collector -> float64;
}.

Section data.
Context {D : Decls}.

(** [TestSilence]: the identifier and the rest of the declaration. *)
Record TestSilence : Type := {
  ID : SilenceID D;
  body : SilenceBody D;
}.

Definition with_ID (sid : SilenceID D) (s : TestSilence) : TestSilence :=
  {| ID := sid; body := body s |}.

(** A request that reached the API of an instance. *)
Inductive ApiCall : Type :=
  | PushCall (to : string) (nas : list (Alert D))
  | SetCall (to : string) (s : Silence D)
  | DelCall (to : string) (sid : SilenceID D).

(** Everything the harness reads and writes outside its own registry. *)
Record World : Type := {
  now : Time;                         (* the wall clock *)
  files : gmap string string;         (* the file system: path to content *)
  signals : list (Z * Signal);        (* signals sent, oldest first *)
  api_calls : list ApiCall;           (* requests sent, oldest first *)
  am_heap : list Alertmanager;        (* the [*Alertmanager] *)
  alert_heap : list (TestAlert D);       (* the [*TestAlert] *)
  silence_heap : list TestSilence;    (* the [*TestSilence] *)
  failed : bool;                      (* [testing.T]: marked as failed *)
  output : list string;               (* [testing.T]: the log *)
}.

Definition set_now (x : Time) (w : World) : World :=
  {| now := x; files := files w; signals := signals w; api_calls := api_calls w;
     am_heap := am_heap w; alert_heap := alert_heap w;
     silence_heap := silence_heap w; failed := failed w; output := output w |}.
Definition set_files (x : gmap string string) (w : World) : World :=
  {| now := now w; files := x; signals := signals w; api_calls := api_calls w;
     am_heap := am_heap w; alert_heap := alert_heap w;
     silence_heap := silence_heap w; failed := failed w; output := output w |}.
Definition set_signals (x : list (Z * Signal)) (w : World) : World :=
  {| now := now w; files := files w; signals := x; api_calls := api_calls w;
     am_heap := am_heap w; alert_heap := alert_heap w;
     silence_heap := silence_heap w; failed := failed w; output := output w |}.
Definition set_api_calls (x : list ApiCall) (w : World) : World :=
  {| now := now w; files := files w; signals := signals w; api_calls := x;
     am_heap := am_heap w; alert_heap := alert_heap w;
     silence_heap := silence_heap w; failed := failed w; output := output w |}.
Definition set_am_heap (x : list Alertmanager) (w : World) : World :=
  {| now := now w; files := files w; signals := signals w; api_calls := api_calls w;
     am_heap := x; alert_heap := alert_heap w;
     silence_heap := silence_heap w; failed := failed w; output := output w |}.
Definition set_alert_heap (x : list (TestAlert D)) (w : World) : World :=
  {| now := now w; files := files w; signals := signals w; api_calls := api_calls w;
     am_heap := am_heap w; alert_heap := x;
     silence_heap := silence_heap w; failed := failed w; output := output w |}.
Definition set_silence_heap (x : list TestSilence) (w : World) : World :=
  {| now := now w; files := files w; signals := signals w; api_calls := api_calls w;
     am_heap := am_heap w; alert_heap := alert_heap w;
     silence_heap := x; failed := failed w; output := output w |}.
Definition set_failed (x : bool) (w : World) : World :=
  {| now := now w; files := files w; signals := signals w; api_calls := api_calls w;
     am_heap := am_heap w; alert_heap := alert_heap w;
     silence_heap := silence_heap w; failed := x; output := output w |}.
Definition set_output (x : list string) (w : World) : World :=
  {| now := now w; files := files w; signals := signals w; api_calls := api_calls w;
     am_heap := am_heap w; alert_heap := alert_heap w;
     silence_heap := silence_heap w; failed := failed w; output := x |}.

(** What the surroundings answer: the operating system, the network and
    the server under test.  [None] stands for a nil error. *)
Record Env : Type := {
  ioutil_TempFile : World -> result string;       (* name of the new file *)
  file_write : World -> File -> string -> option string;
  file_sync : World -> File -> option string;
  net_Listen : World -> result string;            (* address of the listener *)
  alertmanager_New : World -> string -> result string;
  exec_Start : World -> Cmd -> result Z;          (* pid of the new process *)
  api_Push : World -> string -> list (Alert D) -> option string;
  api_Set : World -> string -> Silence D -> result (SilenceID D);
  api_Del : World -> string -> SilenceID D -> option string;
  Collector_check : Collector D -> World -> string;   (* the report *)
}.

(** A scheduled action, [func()]. *)
Definition Action : Type := M World unit.

(** [type AcceptanceTest struct]; [ams] holds pointers into [am_heap], the
    map [actions] is a list of entries in no particular order. *)
Record AcceptanceTest : Type := {
  opts : AcceptanceOpts;
  ams : list nat;
  collectors : list (Collector D);
  actions : list (float64 * list Action);
}.

Definition set_ams (x : list nat) (t : AcceptanceTest) : AcceptanceTest :=
  {| opts := opts t; ams := x; collectors := collectors t; actions := actions t |}.
Definition set_collectors (x : list (Collector D)) (t : AcceptanceTest) : AcceptanceTest :=
  {| opts := opts t; ams := ams t; collectors := x; actions := actions t |}.
Definition set_actions (x : list (float64 * list Action)) (t : AcceptanceTest)
  : AcceptanceTest :=
  {| opts := opts t; ams := ams t; collectors := collectors t; actions := x |}.

End data.

Arguments TestSilence : clear implicits.
Arguments ApiCall : clear implicits.
Arguments World : clear implicits.
Arguments Env : clear implicits.
Arguments Action : clear implicits.
Arguments AcceptanceTest : clear implicits.

(** * The harness: operations *)

Section operations.
Context {D : Decls}.

(** Result of an out-of-range conversion to [int64] on the platform. *)
Variable indef : float64 -> Z.

Variable env : Env D.

Local Abbreviation World := (World D).
Local Abbreviation Action := (Action D).
Local Abbreviation AcceptanceTest := (AcceptanceTest D).

(** The line feed of the format strings. *)
Definition newline : string := String (Ascii.ascii_of_nat 10) EmptyString.

(** ** package testing *)

Definition t_Log (s : string) : M World unit :=
  modify (fun w => set_output (output w ++ [s]) w).

(** [t.Error]: log, mark as failed, go on. *)
Definition t_Error (e : string) : M World unit :=
  t_Log e ;; modify (set_failed true).

(** [t.Fatal]: log, mark as failed, leave the goroutine. *)
Definition t_Fatal {A} (e : string) : M World A :=
  t_Log e ;; modify (set_failed true) ;; goexit.

(** ** package time *)

Definition time_Now : M World Time := fun w => (Ret (now w), w).

(** [time.Sleep(d)]: "A negative or zero duration causes Sleep to return
    immediately."  A positive one takes the clock to the end of the
    pause. *)
Definition time_Sleep (d : Duration) : M World unit :=
  modify (fun w => set_now (now w + Z.max 0 d)%Z w).

(** ** Stores *)

Definition load_am (am : nat) : M World Alertmanager :=
  fun w => deref (am_heap w !! am) w.

Definition store_am (am : nat) (a : Alertmanager) : M World unit :=
  modify (fun w => set_am_heap (<[am := a]> (am_heap w)) w).

Definition load_alert (p : nat) : M World (TestAlert D) :=
  fun w => deref (alert_heap w !! p) w.

Definition load_silence (p : nat) : M World (TestSilence D) :=
  fun w => deref (silence_heap w !! p) w.

(** ** Files, processes *)

Fixpoint nuls (n : nat) : string :=
  match n with
  | O => EmptyString
  | S n' => String Ascii.zero (nuls n')
  end.

(** The content of a file after [s] was written at offset [off]. *)
Definition write_at (off : nat) (s content : string) : string :=
  let len := String.length content in
  (String.substring 0 off content ++ nuls (off - len) ++ s
   ++ String.substring (off + String.length s) (len - (off + String.length s)) content)%string.

(** [f.WriteString(s)]: write at the offset of the descriptor and advance
    it.  A file that was unlinked keeps taking writes, out of sight.
    Nothing is written when the write fails. *)
Definition File_WriteString (f : File) (s : string) : M World (result File) :=
  fun w =>
    match file_write env w f s with
    | Some e => (Ret (Err e), w)
    | None =>
        let fs' :=
          match files w !! Name f with
          | Some c => <[Name f := write_at (offset f) s c]> (files w)
          | None => files w
          end in
        (Ret (Ok {| Name := Name f; offset := offset f + String.length s |}),
         set_files fs' w)
    end.

(** [syscall.Kill(pid, sig)]; the error is dropped by the callers. *)
Definition syscall_Kill (pid : Z) (sig : Signal) : M World unit :=
  modify (fun w => set_signals (signals w ++ [(pid, sig)]) w).

(** [os.RemoveAll(path)] of a regular file; no error when it is absent. *)
Definition os_RemoveAll (path : string) : M World unit :=
  modify (fun w => set_files (delete path (files w)) w).

(** [c.Start()] of [exec.Cmd]: refuses a command that was started, else
    asks the system; [Process] is set on success only. *)
Definition Cmd_Start (c : Cmd) : M World (result Cmd) :=
  fun w =>
    match Process c with
    | Some _ => (Ret (Err "exec: already started"), w)
    | None =>
        match exec_Start env w c with
        | Err e => (Ret (Err e), w)
        | Ok pid => (Ret (Ok (with_Process (Some {| Pid := pid |}) c)), w)
        end
    end.

(** ** The managed instance *)

(** The process handle behind the pointer [am], when there is one:
    [am.cmd.Process]. *)
Definition process_of (am : nat) (w : World) : option os_Process :=
  match am_heap w !! am with
  | Some a => match cmd a with Some c => Process c | None => None end
  | None => None
  end.

(** [func (am *Alertmanager) UpdateConfig(conf string)] *)
Definition UpdateConfig (am : nat) (conf : string) : M World unit :=
  let* a := load_am am in
  let* f := deref (confFile a) in
  let* r := File_WriteString f conf in
  match r with
  | Err e => t_Error e
  | Ok f' =>
      store_am am (with_confFile (Some f') a) ;;
      let* w := get in
      match file_sync env w f' with
      | Some e => t_Error e
      | None => ret tt
      end
  end.

(** [func (am *Alertmanager) Start()] *)
Definition Start (am : nat) : M World unit :=
  let* a := load_am am in
  let* c := deref (cmd a) in
  let* r := Cmd_Start c in
  match r with
  | Err e => t_Fatal ("Starting alertmanager failed: " ++ e)
  | Ok c' => store_am am (with_cmd (Some c') a)
  end ;;
  time_Sleep (100 * Millisecond)%Z.

(** [func (am *Alertmanager) Terminate()] *)
Definition Terminate (am : nat) : M World unit :=
  let* a := load_am am in
  let* c := deref (cmd a) in
  let* p := deref (Process c) in
  syscall_Kill (Pid p) SIGTERM.

(** [func (am *Alertmanager) Reload()] *)
Definition Reload (am : nat) : M World unit :=
  let* a := load_am am in
  let* c := deref (cmd a) in
  let* p := deref (Process c) in
  syscall_Kill (Pid p) SIGHUP.

(** [func (am *Alertmanager) cleanup()] *)
Definition cleanup (am : nat) : M World unit :=
  let* a := load_am am in
  let* f := deref (confFile a) in
  os_RemoveAll (Name f).

(** ** The action registry: [map[float64][]func()] *)

(** [m[k]]: the value of the entry whose key is [==] to [k]. *)
Fixpoint map_get {V} (m : list (float64 * V)) (k : float64) : option V :=
  match m with
  | [] => None
  | (k', v) :: m' => if eqb k' k then Some v else map_get m' k
  end.

(** [m[k] = v]: the entry whose key is [==] to [k] takes the value, and
    there is a new entry when there is none; a NaN key is [==] to no key,
    so that it always makes a new entry. *)
Fixpoint map_set {V} (m : list (float64 * V)) (k : float64) (v : V)
  : list (float64 * V) :=
  match m with
  | [] => [(k, v)]
  | (k', v') :: m' =>
      if eqb k' k then (k', v) :: m' else (k', v') :: map_set m' k v
  end.

(** The same point of the time axis: [==], or NaN on both sides. *)
Definition same_time (k k' : float64) : bool :=
  match k, k' with
  | NaN, NaN => true
  | _, _ => eqb k k'
  end.

(** What the map holds for the time [k]: the slices of the entries whose
    key is [k], one after the other. *)
Definition stored_at {V} (m : list (float64 * list V)) (k : float64) : list V :=
  flat_map snd (filter (fun e => same_time (fst e) k) m).

(** What a map is: no two entries have keys that are [==]. *)
Fixpoint distinct_keys {V} (m : list (float64 * V)) : Prop :=
  match m with
  | [] => True
  | (k, _) :: m' => Forall (fun e => eqb k (fst e) = false) m' /\ distinct_keys m'
  end.

(** [func (t *AcceptanceTest) Do(at float64, f func())] *)
Definition Do (t : AcceptanceTest) (at_ : float64) (f : Action) : AcceptanceTest :=
  set_actions
    (map_set (actions t) at_ (default [] (map_get (actions t) at_) ++ [f])) t.

(** A sequence of calls of [Do]. *)
Definition schedule (t : AcceptanceTest) (calls : list (float64 * Action))
  : AcceptanceTest :=
  fold_left (fun t c => Do t (fst c) (snd c)) calls t.

(** The functions scheduled for the time [k] by a sequence of calls, in
    the order of the calls. *)
Definition scheduled_at (calls : list (float64 * Action)) (k : float64)
  : list Action :=
  map snd (filter (fun c => same_time (fst c) k) calls).

(** ** Scheduling requests against an instance *)

Definition log_call (c : ApiCall D) : M World unit :=
  modify (fun w => set_api_calls (api_calls w ++ [c]) w).

(** The function literal of [Push]: it holds the API of the client and
    the native alerts [nas]. *)
Definition push_action (alertAPI : option string) (nas : list (Alert D)) : Action :=
  let* to := deref alertAPI in
  let* w := get in
  log_call (PushCall to nas) ;;
  match api_Push env w to nas with
  | Some e => t_Error e
  | None => ret tt
  end.

(** [func (am *Alertmanager) Push(at float64, alerts ...*TestAlert)] *)
Definition Push (t : AcceptanceTest) (am : nat) (at_ : float64) (alerts : list nat)
  : M World AcceptanceTest :=
  let* nas := map_each alerts (fun p =>
                let* _ := load_am am in
                let* a := load_alert p in
                ret (nativeAlert D (opts t) a)) in
  let* a := load_am am in
  ret (Do t at_ (push_action (client a) nas)).

(** The function literal of [SetSilence]: it holds the API of the client
    and the pointer [sil]. *)
Definition set_silence_action (o : AcceptanceOpts) (silences : option string)
    (sil : nat) : Action :=
  let* s := load_silence sil in
  let* to := deref silences in
  let* w := get in
  log_call (SetCall to (nativeSilence D o (ID s) (body s))) ;;
  match api_Set env w to (nativeSilence D o (ID s) (body s)) with
  | Err e => t_Error e
  | Ok sid =>
      modify (fun w => set_silence_heap (alter (with_ID sid) sil (silence_heap w)) w)
  end.

(** [func (am *Alertmanager) SetSilence(at float64, sil *TestSilence)] *)
Definition SetSilence (t : AcceptanceTest) (am : nat) (at_ : float64) (sil : nat)
  : M World AcceptanceTest :=
  let* a := load_am am in
  ret (Do t at_ (set_silence_action (opts t) (client a) sil)).

(** The function literal of [DelSilence]. *)
Definition del_silence_action (silences : option string) (sil : nat) : Action :=
  let* s := load_silence sil in
  let* to := deref silences in
  let* w := get in
  log_call (DelCall to (ID s)) ;;
  match api_Del env w to (ID s) with
  | Some e => t_Error e
  | None => ret tt
  end.

(** [func (am *Alertmanager) DelSilence(at float64, sil *TestSilence)] *)
Definition DelSilence (t : AcceptanceTest) (am : nat) (at_ : float64) (sil : nat)
  : M World AcceptanceTest :=
  let* a := load_am am in
  ret (Do t at_ (del_silence_action (client a) sil)).

(** ** Construction *)

(** [func NewAcceptanceTest(t *testing.T, opts *AcceptanceOpts)]: the base
    time is the time of the call. *)
Definition NewAcceptanceTest (tolerance : Duration) : M World AcceptanceTest :=
  let* n := time_Now in
  ret {| opts := {| Tolerance := tolerance; baseTime := n |};
         ams := []; collectors := []; actions := [] |}.

(** [func freeAddress() string] *)
Definition freeAddress : M World string :=
  let* w := get in
  match net_Listen env w with
  | Err _ => panic
  | Ok a => ret a
  end.

(** [func (t *AcceptanceTest) Alertmanager(conf string) *Alertmanager] *)
Definition NewAlertmanager (t : AcceptanceTest) (conf : string)
  : M World (AcceptanceTest * nat) :=
  let* w := get in
  let am := length (am_heap w) in
  modify (fun w => set_am_heap
    (am_heap w ++ [{| addr := ""; client := None; cmd := None; confFile := None |}]) w) ;;
  let* w := get in
  match ioutil_TempFile env w with
  | Err e => t_Fatal e
  | Ok name =>
      modify (fun w => set_files (<[name := ""%string]> (files w)) w) ;;
      let* a := load_am am in
      store_am am (with_confFile (Some {| Name := name; offset := 0 |}) a) ;;
      UpdateConfig am conf ;;
      let* ad := freeAddress in
      let* a := load_am am in
      store_am am (with_addr ad a) ;;
      t_Log ("AM on " ++ ad) ;;
      let* w := get in
      let* cl :=
        match alertmanager_New env w ("http://" ++ ad) with
        | Err e => t_Error e ;; ret None
        | Ok c => ret (Some c)
        end in
      let* a := load_am am in
      store_am am
        (with_cmd
           (Some {| Path := "../../alertmanager";
                    Args := ["-config.file"; name; "-log.level"; "debug";
                             "-web.listen-address"; ad];
                    Process := None; Stdout := ""; Stderr := "" |})
           (with_client cl a)) ;;
      ret (set_ams (ams t ++ [am]) t, am)
  end.

(** ** Running the test *)

(** The goroutines of [runActions] with their wake-up times: one per
    registered function, [ts] computed once per entry of the map. *)
Definition goroutines (t : AcceptanceTest) : list (Time * Action) :=
  flat_map (fun '(at_, fs) =>
              let ts := expandTime indef (opts t) at_ in
              map (fun f => (ts, f)) fs)
           (actions t).

Fixpoint insert_by_time (g : Time * Action) (l : list (Time * Action))
  : list (Time * Action) :=
  match l with
  | [] => [g]
  | g' :: l' =>
      if (fst g <? fst g')%Z then g :: g' :: l' else g' :: insert_by_time g l'
  end.

Definition by_time (l : list (Time * Action)) : list (Time * Action) :=
  foldr insert_by_time [] (reverse l).

(** One goroutine after the other: [time.Sleep(ts.Sub(time.Now()))], [f()],
    [wg.Done()].  A function that leaves its goroutine or hangs never
    reaches [wg.Done()], and [wg.Wait()] blocks; a function that panics
    takes the process down. *)
Fixpoint run_goroutines (l : list (Time * Action)) (done : bool) : M World unit :=
  match l with
  | [] => fun w => if done then (Ret tt, w) else (Blocked, w)
  | (ts, f) :: l' =>
      fun w =>
        match (let* n := time_Now in time_Sleep (Sub ts n) ;; f) w with
        | (Ret _, w') => run_goroutines l' done w'
        | (Goexit, w') | (Blocked, w') => run_goroutines l' false w'
        | (Panic, w') | (Crashed, w') => (Crashed, w')
        end
  end.

(** [func (t *AcceptanceTest) runActions()], under the schedule that runs
    the goroutines to completion in the order of their wake-up times. *)
Definition runActions (t : AcceptanceTest) : M World unit :=
  run_goroutines (by_time (goroutines t)) true.

(** The first loop of [Run]: start each instance and defer its teardown.
    The result holds the deferred calls, the last one first. *)
Fixpoint start_all (l : list nat) (deferred : list nat) (w : World)
  : Outcome unit * list nat * World :=
  match l with
  | [] => (Ret tt, deferred, w)
  | am :: l' =>
      match Start am w with
      | (Ret _, w') => start_all l' (am :: deferred) w'
      | (o, w') => (o, deferred, w')
      end
  end.

(** The deferred function literal of [Run]. *)
Definition teardown (am : nat) : M World unit :=
  Terminate am ;; cleanup am.

(** The deferred calls run when the function returns and when its
    goroutine unwinds, last in first out; a deferred call that panics
    does not keep the remaining ones from running. *)
Fixpoint run_deferred (deferred : list nat) (o : Outcome unit) (w : World)
  : Outcome unit * World :=
  match deferred with
  | [] => (o, w)
  | am :: rest =>
      match teardown am w with
      | (Ret _, w') => run_deferred rest o w'
      | (_, w') => run_deferred rest Panic w'
      end
  end.

(** The maximum loop of [Run] over [coll.latest()]. *)
Definition latest_of (cs : list (Collector D)) : float64 :=
  fold_left (fun latest coll =>
               let l := Collector_latest D coll in
               if gtb l latest then l else latest)
            cs zero.

(** [time.Sleep(deadline.Sub(time.Now()))] *)
Definition await_deadline (t : AcceptanceTest) : M World unit :=
  let deadline := expandTime indef (opts t) (latest_of (collectors t)) in
  let* n := time_Now in
  time_Sleep (Sub deadline n).

(** The loop over [coll.check()]. *)
Definition check_collectors (t : AcceptanceTest) : M World unit :=
  for_each (collectors t) (fun coll =>
    let* w := get in
    t_Log (Collector_check env coll w)).

(** The loop that logs what the instances printed. *)
Definition log_outputs (t : AcceptanceTest) : M World unit :=
  for_each (ams t) (fun am =>
    let* a := load_am am in
    let* c := deref (cmd a) in
    t_Log ("stdout:" ++ newline ++ Stdout c) ;;
    t_Log ("stderr:" ++ newline ++ Stderr c)).

(** [Run] after its first loop. *)
Definition Run_body (t : AcceptanceTest) : M World unit :=
  runActions t ;;
  await_deadline t ;;
  check_collectors t ;;
  log_outputs t.

(** [func (t *AcceptanceTest) Run()] *)
Definition Run (t : AcceptanceTest) (w : World) : Outcome unit * World :=
  match start_all (ams t) [] w with
  | (Ret _, deferred, w1) =>
      match Run_body t w1 with
      | (Crashed, w2) => (Crashed, w2)
      | (Blocked, w2) => (Blocked, w2)
      | (o, w2) => run_deferred deferred o w2
      end
  | (Crashed, _, w1) => (Crashed, w1)
  | (Blocked, _, w1) => (Blocked, w1)
  | (o, deferred, w1) => run_deferred deferred o w1
  end.

(** ** What a run leaves behind *)

(** The instance behind [am] was built: it has its configuration file. *)
Definition built (am : nat) (w : World) : Prop :=
  exists a f, am_heap w !! am = Some a /\ confFile a = Some f.

(** The instance behind [am] was built and started. *)
Definition running (am : nat) (w : World) : Prop :=
  exists a c p f,
    am_heap w !! am = Some a /\ cmd a = Some c /\ Process c = Some p /\
    confFile a = Some f.

(** The teardown of [am] has taken place: its process was sent SIGTERM and
    its configuration file is gone. *)
Definition torn_down (am : nat) (w : World) : Prop :=
  exists a c p f,
    am_heap w !! am = Some a /\ cmd a = Some c /\ Process c = Some p /\
    confFile a = Some f /\
    (Pid p, SIGTERM) ∈ signals w /\ files w !! Name f = None.


End operations.

End Harness.

(** * The collector *)

Module CollectorModel.

Section collector.

(** The records of an alert batch, compared by value. *)
Context {A : Type} `{EqDecision A}.

(** Modelled from the spec: the file of the collector is not part of the
    sources at hand.  "Expectation Interval: (earliest, latest) relative
    times, associated with one expected Alert Batch at a Collector." *)
Record Expectation : Type := {
  earliest : Q;
  latest : Q;
  expected : list A;
}.

(** Modelled from the spec: the observation of the collector, "(observedAt,
    batch) recorded at a Collector when it is queried and returns
    data". *)
Record Observation : Type := {
  observedAt : Q;
  observed : list A;
}.

(** Modelled from the spec: the equality of alert batches, "equal under a
    value-equality comparison of their constituent records, irrespective
    of order". *)
Definition batch_eqb (b1 b2 : list A) : bool := bool_decide (b1 ≡ₚ b2).

(** Modelled from the spec: the candidates of the matching algorithm,
    the observations "whose observedAt falls in [earliest - tolerance,
    latest + tolerance] and whose batch is value-equal to the expected
    batch". *)
Definition candidate (tol : Q) (e : Expectation) (o : Observation) : bool :=
  Qle_bool (earliest e - tol) (observedAt o)
  && Qle_bool (observedAt o) (latest e + tol)
  && batch_eqb (expected e) (observed o).

(** Modelled from the spec: the consumption of the matching algorithm,
    "once an observation is used to satisfy an expectation it is removed
    from the candidate pool for subsequent expectations".  The oldest
    candidate is the one that is used. *)
Fixpoint consume (tol : Q) (e : Expectation) (pool : list Observation)
  : option (list Observation) :=
  match pool with
  | [] => None
  | o :: pool' =>
      if candidate tol e o then Some pool'
      else option_map (cons o) (consume tol e pool')
  end.

(** Modelled from the spec: the order of the matching algorithm,
    "Expectations are matched in ascending order of earliest". *)
Fixpoint insert_by_earliest (e : Expectation) (l : list Expectation)
  : list Expectation :=
  match l with
  | [] => [e]
  | e' :: l' =>
      if Qle_bool (earliest e) (earliest e') then e :: e' :: l'
      else e' :: insert_by_earliest e l'
  end.

Definition by_earliest (es : list Expectation) : list Expectation :=
  foldr insert_by_earliest [] es.

(** Modelled from the spec: the report of the collector, the "count of
    satisfied/unsatisfied expectations, and for each unsatisfied one, the
    interval and batch that were expected", and the "unexpected
    extras". *)
Record Report : Type := {
  satisfied : list Expectation;
  unsatisfied : list Expectation;
  extras : list Observation;
}.

(** Modelled from the spec: the greedy pass of the matching algorithm,
    "An expectation is satisfied if at least one such candidate exists;
    each observation may satisfy at most one expectation". *)
Fixpoint match_all (tol : Q) (es : list Expectation) (pool : list Observation)
  : Report :=
  match es with
  | [] => {| satisfied := []; unsatisfied := []; extras := pool |}
  | e :: es' =>
      match consume tol e pool with
      | Some pool' =>
          let r := match_all tol es' pool' in
          {| satisfied := e :: satisfied r; unsatisfied := unsatisfied r;
             extras := extras r |}
      | None =>
          let r := match_all tol es' pool in
          {| satisfied := satisfied r; unsatisfied := e :: unsatisfied r;
             extras := extras r |}
      end
  end.

(** Modelled from the spec: the operation [reconcile() -> Report] of the
    collector. *)
Definition reconcile (tol : Q) (es : list Expectation) (obs : list Observation)
  : Report :=
  match_all tol (by_earliest es) obs.

End collector.

End CollectorModel.

(** * The goroutines of [runActions] *)

Module Concurrent.
Import F64 GoTime Clock.

Section model.

(** The scheduled functions. *)
Context {F : Type}.

Variable indef : float64 -> Z.
Variable opts : AcceptanceOpts.

(** Where a goroutine [go func(f func()) {...}(f)] stands. *)
Inductive gpc : Type :=
  | GStart                   (* before [time.Now()] *)
  | GGotNow (n : Time)       (* before [time.Sleep(ts.Sub(n))] *)
  | GSleeping (wake : Time)  (* in [time.Sleep], which lasts until [wake] at least *)
  | GWoken                   (* before [f()] *)
  | GRunning                 (* in [f()] *)
  | GReturned                (* before [wg.Done()] *)
  | GDone.

Record goroutine : Type := {
  g_at : float64;               (* the key of the entry *)
  g_f : F;                      (* the argument [f] *)
  g_ts : Time;                  (* the captured [ts] *)
  g_pc : gpc;
  g_invoked : option Time;      (* when [f()] was called *)
  g_completed : option Time;    (* when [f()] returned *)
}.

(** Where [runActions] stands. *)
Inductive mpc : Type :=
  | MRange (rest : list (float64 * list F))
      (* at the head of the outer loop *)
  | MGo (at_ : float64) (ts : Time) (fs : list F) (rest : list (float64 * list F))
      (* at the head of the inner loop, after [wg.Add(len(fs))] *)
  | MWait                       (* in [wg.Wait()] *)
  | MReturned (tr : Time).      (* returned, at time [tr] *)

Record state : Type := {
  clock : Time;
  wg : Z;                       (* the counter of the wait group *)
  main : mpc;
  gs : list goroutine;
}.

Definition set_pc (pc : gpc) (g : goroutine) : goroutine :=
  {| g_at := g_at g; g_f := g_f g; g_ts := g_ts g; g_pc := pc;
     g_invoked := g_invoked g; g_completed := g_completed g |}.

Definition call_at (n : Time) (g : goroutine) : goroutine :=
  {| g_at := g_at g; g_f := g_f g; g_ts := g_ts g; g_pc := GRunning;
     g_invoked := Some n; g_completed := g_completed g |}.

Definition finish_at (n : Time) (g : goroutine) : goroutine :=
  {| g_at := g_at g; g_f := g_f g; g_ts := g_ts g; g_pc := GReturned;
     g_invoked := g_invoked g; g_completed := Some n |}.

Definition spawn (at_ : float64) (ts : Time) (f : F) : goroutine :=
  {| g_at := at_; g_f := f; g_ts := ts; g_pc := GStart;
     g_invoked := None; g_completed := None |}.

Definition with_main (m : mpc) (s : state) : state :=
  {| clock := clock s; wg := wg s; main := m; gs := gs s |}.

Definition with_g (i : nat) (g : goroutine) (s : state) : state :=
  {| clock := clock s; wg := wg s; main := main s; gs := <[i := g]> (gs s) |}.

(** The state in which [runActions] is entered at time [n] with the
    registry [registry]. *)
Definition init (n : Time) (registry : list (float64 * list F)) : state :=
  {| clock := n; wg := 0%Z; main := MRange registry; gs := [] |}.

(** One step of the program: time passes, [runActions] moves on, or one
    goroutine moves on.  A sleeping goroutine wakes up no earlier than
    its pause ends; [wg.Wait()] returns when the counter is zero; a
    function may take any time, or never return. *)
Inductive step : state -> state -> Prop :=
  | step_tick s d :
      (0 <= d)%Z ->
      step s {| clock := (clock s + d)%Z; wg := wg s; main := main s; gs := gs s |}
  | step_range s at_ fs rest :
      main s = MRange ((at_, fs) :: rest) ->
      step s {| clock := clock s; wg := (wg s + Z.of_nat (length fs))%Z;
                main := MGo at_ (expandTime indef opts at_) fs rest; gs := gs s |}
  | step_go s at_ ts f fs rest :
      main s = MGo at_ ts (f :: fs) rest ->
      step s {| clock := clock s; wg := wg s; main := MGo at_ ts fs rest;
                gs := gs s ++ [spawn at_ ts f] |}
  | step_next s at_ ts rest :
      main s = MGo at_ ts [] rest ->
      step s (with_main (MRange rest) s)
  | step_wait s :
      main s = MRange [] ->
      step s (with_main MWait s)
  | step_return s :
      main s = MWait -> wg s = 0%Z ->
      step s (with_main (MReturned (clock s)) s)
  | step_now s i g :
      gs s !! i = Some g -> g_pc g = GStart ->
      step s (with_g i (set_pc (GGotNow (clock s)) g) s)
  | step_sleep s i g n :
      gs s !! i = Some g -> g_pc g = GGotNow n ->
      step s (with_g i (set_pc (GSleeping (clock s + Z.max 0 (Sub (g_ts g) n))%Z) g) s)
  | step_wake s i g wake :
      gs s !! i = Some g -> g_pc g = GSleeping wake -> (wake <= clock s)%Z ->
      step s (with_g i (set_pc GWoken g) s)
  | step_call s i g :
      gs s !! i = Some g -> g_pc g = GWoken ->
      step s (with_g i (call_at (clock s) g) s)
  | step_finish s i g :
      gs s !! i = Some g -> g_pc g = GRunning ->
      step s (with_g i (finish_at (clock s) g) s)
  | step_done s i g :
      gs s !! i = Some g -> g_pc g = GReturned ->
      step s {| clock := clock s; wg := (wg s - 1)%Z; main := main s;
                gs := <[i := set_pc GDone g]> (gs s) |}.

(** The states of a run. *)
Definition reachable (n : Time) (registry : list (float64 * list F)) (s : state)
  : Prop :=
  rtc step (init n registry) s.

(** ** The invariant *)

Definition is_done (g : goroutine) : bool :=
  match g_pc g with GDone => true | _ => false end.

(** The goroutines that have not called [wg.Done()]. *)
Fixpoint live (l : list goroutine) : Z :=
  match l with
  | [] => 0%Z
  | g :: l' => ((if is_done g then 0 else 1) + live l')%Z
  end.

(** The goroutines of the current entry that are not spawned yet. *)
Definition pending (m : mpc) : Z :=
  match m with
  | MGo _ _ fs _ => Z.of_nat (length fs)
  | _ => 0%Z
  end.

Definition flatten (r : list (float64 * list F)) : list (float64 * F) :=
  flat_map (fun '(at_, fs) => map (pair at_) fs) r.

(** The functions that have no goroutine yet. *)
Definition remaining (m : mpc) : list (float64 * F) :=
  match m with
  | MRange rest => flatten rest
  | MGo at_ _ fs rest => map (pair at_) fs ++ flatten rest
  | MWait | MReturned _ => []
  end.

(** What the position of a goroutine says about its times. *)
Definition good (now_ : Time) (g : goroutine) : Prop :=
  g_ts g = expandTime indef opts (g_at g) /\
  match g_pc g with
  | GStart => g_invoked g = None /\ g_completed g = None
  | GGotNow n =>
      (baseTime opts <= n <= now_)%Z /\ g_invoked g = None /\ g_completed g = None
  | GSleeping wake =>
      (g_ts g <= wake)%Z /\ g_invoked g = None /\ g_completed g = None
  | GWoken =>
      (g_ts g <= now_)%Z /\ g_invoked g = None /\ g_completed g = None
  | GRunning =>
      (exists ti, g_invoked g = Some ti /\ (g_ts g <= ti <= now_)%Z) /\
      g_completed g = None
  | GReturned | GDone =>
      (exists ti, g_invoked g = Some ti /\ (g_ts g <= ti)%Z) /\
      (exists tc, g_completed g = Some tc /\ (tc <= now_)%Z)
  end.

Definition returned_ok (s : state) : Prop :=
  match main s with
  | MReturned tr =>
      (tr <= clock s)%Z /\
      Forall (fun g => g_pc g = GDone /\
                       exists tc, g_completed g = Some tc /\ (tc <= tr)%Z) (gs s)
  | _ => True
  end.

Definition go_ts_ok (s : state) : Prop :=
  match main s with
  | MGo at_ ts _ _ => ts = expandTime indef opts at_
  | _ => True
  end.

Record invariant (registry : list (float64 * list F)) (s : state) : Prop := {
  inv_base : (baseTime opts <= clock s)%Z;
  inv_good : Forall (good (clock s)) (gs s);
  inv_wg : wg s = (live (gs s) + pending (main s))%Z;
  inv_all : map (fun g => (g_at g, g_f g)) (gs s) ++ remaining (main s)
            = flatten registry;
  inv_ts : go_ts_ok s;
  inv_ret : returned_ok s;
}.

(** What a goroutine counts for in [live]. *)
Definition weight (g : goroutine) : Z := if is_done g then 0%Z else 1%Z.

(** A step during which no time passes. *)
Definition quiet_step (s s' : state) : Prop := step s s' /\ clock s' = clock s.

End model.

End Concurrent.

(** * A concrete setting to run the harness in *)

Module Sample.
Import F64 GoTime Clock GoRt Harness.

(** Alerts and silences are their names; a collector is the latest bound
    of its expectations. *)
Definition decls : Decls :=
  {| TestAlert := string;
     Alert := string;
     SilenceBody := string;
     Silence := string;
     SilenceID := string;
     Collector := float64;
     nativeAlert := fun _ a => a;
     nativeSilence := fun _ _ b => b;
     Collector_latest := fun c => c |}.

(** Temporary files are numbered after the instances; every request is
    served. [launch] says whether a command with this configuration file
    can be started. *)
Definition env_with (launch : string -> bool) : Env decls :=
  {| ioutil_TempFile := fun w =>
       Ok ("/tmp/am_config" ++ String (Ascii.ascii_of_nat (48 + length (am_heap w))) "")%string;
     file_write := fun _ _ _ => None;
     file_sync := fun _ _ => None;
     net_Listen := fun w =>
       Ok ("[::]:4000" ++ String (Ascii.ascii_of_nat (48 + length (am_heap w))) "")%string;
     alertmanager_New := fun _ url => Ok url;
     exec_Start := fun w c =>
       match Args c with
       | _ :: name :: _ =>
           if launch name
           then Ok (1000 + Z.of_nat (length (filter (fun a => bool_decide (is_Some (cmd a ≫= Process))) (am_heap w))))%Z
           else Err "fork/exec ../../alertmanager: no such file or directory"
       | _ => Err "exec: no command"
       end;
     api_Push := fun _ _ _ => None;
     api_Set := fun _ _ (s : Silence decls) => Ok ("id-" ++ s : SilenceID decls)%string;
     api_Del := fun _ _ _ => None;
     Collector_check := fun _ _ => "ok" |}.

(** Every instance can be started. *)
Definition env_ok : Env decls := env_with (fun _ => true).


(** The instance configured from the second temporary file cannot be
    started. *)
Definition env_second_fails : Env decls :=
  env_with (fun name => negb (String.eqb name "/tmp/am_config2")).

Definition world0 : World decls :=
  @Build_World decls
    1446000000000000000%Z                          (* now *)
    ∅                                              (* files *)
    []                                             (* signals *)
    []                                             (* api_calls *)
    []                                             (* am_heap *)
    ["alert-a"; "alert-b"]%string                  (* alert_heap *)
    [@Build_TestSilence decls ""%string "quiet"%string]  (* silence_heap *)
    false                                          (* failed *)
    [].                                            (* output *)

(** Build a test with the instances configured by [confs]. *)
Fixpoint with_instances (env : Env decls) (confs : list string)
    (t : AcceptanceTest decls) : M (World decls) (AcceptanceTest decls) :=
  match confs with
  | [] => ret t
  | conf :: confs' =>
      bind (NewAlertmanager env t conf) (fun '(t', _) => with_instances env confs' t')
  end.

Definition new_test (env : Env decls) (confs : list string)
  : M (World decls) (AcceptanceTest decls) :=
  bind (NewAcceptanceTest 0%Z) (with_instances env confs).

(** An empty test. *)
Definition blank_test : AcceptanceTest decls :=
  {| opts := {| Tolerance := 0%Z; baseTime := 0%Z |};
     ams := []; collectors := []; actions := [] |}.

(** The test and the world after [NewAcceptanceTest] and one call of
    [t.Alertmanager] per document, in the setting [env]. *)
Definition built_with (env : Env decls) (confs : list string)
  : AcceptanceTest decls * World decls :=
  match new_test env confs world0 with
  | (Ret t, w) => (t, w)
  | (_, w) => (blank_test, w)
  end.


(** Three instances; the second one cannot be started. *)
Definition second_fails : AcceptanceTest decls * World decls :=
  built_with env_second_fails ["a"; "b"; "c"]%string.

(** The test and the world after [NewAcceptanceTest] and
    [t.Alertmanager("a")]. *)
Definition one_instance : AcceptanceTest decls * World decls :=
  match new_test env_ok ["a"%string] world0 with
  | (Ret t, w) => (t, w)
  | (_, w) => (blank_test, w)
  end.

(** Two collectors whose expectations end half a second after the base
    time, seen one second after the base time. *)
Definition late_test : AcceptanceTest decls :=
  set_collectors ([Fin (1 # 2); Fin (1 # 4)] : list (Collector decls))
    (fst (built_with env_ok ["a"%string])).

Definition late_world : World decls :=
  set_now (now world0 + Second)%Z (snd (built_with env_ok ["a"%string])).

(** The world of [late_test] after the first loop of [Run]. *)
Definition late_started : World decls :=
  snd (start_all env_ok (ams late_test) [] late_world).

(** Five calls of [Do], two of them for the time 1 and two for NaN. *)
Definition five_calls : list (float64 * Action decls) :=
  [(Fin 1, ret tt); (NaN, panic); (Fin (2 # 2), goexit); (NaN, ret tt);
   (Fin 2, panic)].

End Sample.

(** * Concrete times *)

Module ClockSample.
Import F64 GoTime Clock.
Local Open Scope Q_scope.

(** A test made on 28 October 2015. *)
Definition opts2015 : AcceptanceOpts :=
  {| Tolerance := 0%Z; baseTime := 1446000000000000000%Z |}.

(** The [float64] next to one tenth. *)
Definition tenth : Q := 3602879701896397 # 36028797018963968.

End ClockSample.

(** * A concrete registry for the goroutines *)

Module ConcurrentSample.
Import F64 GoTime Clock Concurrent.

Definition opts0 : AcceptanceOpts := {| Tolerance := 0%Z; baseTime := 0%Z |}.

(** One function, scheduled one second after the base time. *)
Definition registry1 : list (float64 * list string) := [(Fin 1, ["push"%string])].

(** The state in which [runActions] has returned, five nanoseconds after
    the second. *)
Definition returned_state : state :=
  {| clock := 1000000005%Z;
     wg := 0%Z;
     main := MReturned 1000000005%Z;
     gs := [{| g_at := Fin 1; g_f := "push"%string; g_ts := 1000000000%Z;
               g_pc := GDone; g_invoked := Some 1000000000%Z;
               g_completed := Some 1000000005%Z |}] |}.

End ConcurrentSample.

(** * Concrete expectations and observations *)

Module CollectorSample.
Import CollectorModel.
Local Open Scope Q_scope.

Definition B : list string := ["alert-a"; "alert-b"]%string.

(** The same batch in another order. *)
Definition B' : list string := ["alert-b"; "alert-a"]%string.

Definition five_to_ten : Expectation := {| earliest := 5; latest := 10; expected := B |}.
Definition twenty_to_thirty : Expectation :=
  {| earliest := 20; latest := 30; expected := B |}.

Definition seen (at_ : Q) : Observation := {| observedAt := at_; observed := B' |}.

End CollectorSample.

(** * The binary64 of the kernel *)

Module KernelFloat.
Import F64 Floats.
Local Open Scope Q_scope.

(** The value of a primitive float. *)
Definition of_prim (x : PrimFloat.float) : float64 :=
  match Prim2SF x with
  | S754_zero _ => F64.Fin 0
  | S754_infinity s => F64.Inf s
  | S754_nan => F64.NaN
  | S754_finite s m e =>
      F64.Fin (Qred ((if s then -1 else 1) * inject_Z (Zpos m) * 2 ^ e))
  end.

End KernelFloat.

(** * What the instances and the registry of a test look like *)

Module HarnessSpec.
Import F64 GoTime Clock GoRt Harness.
Local Open Scope go_scope.

Section spec.
Context {D : Decls}.
Variable env : Env D.

(** The configuration file of the instance behind [am] holds [doc], and
    the descriptor of the instance stands at its end. *)
Definition holds_document (am : nat) (doc : string) (w : World D) : Prop :=
  exists a f,
    am_heap w !! am = Some a /\ confFile a = Some f /\
    files w !! Name f = Some doc /\ offset f = String.length doc.

(** The documents of a sequence of calls of [UpdateConfig], one after the
    other. *)
Definition documents (conf : string) (confs : list string) : string :=
  fold_left String.append confs conf.

(** The instance behind [am] as [t.Alertmanager] leaves it: a command that
    was not started, and a configuration file. *)
Definition unstarted (am : nat) (w : World D) : Prop :=
  exists a c f,
    am_heap w !! am = Some a /\ cmd a = Some c /\ Process c = None /\
    confFile a = Some f.

(** The functions that [Push], [SetSilence] and [DelSilence] register for
    an instance that has its client, with silences among the first [n] of
    the store. *)
Inductive request (n : nat) : Action D -> Prop :=
  | request_push to nas :
      request n (push_action env (Some to) nas)
  | request_set o to sil :
      sil < n -> request n (set_silence_action env o (Some to) sil)
  | request_del to sil :
      sil < n -> request n (del_silence_action env (Some to) sil).

(** A part of the world that the clock and the state of [testing.T] are
    not part of. *)
Definition apart {X} (proj : World D -> X) : Prop :=
  (forall x w, proj (set_now x w) = proj w) /\
  (forall x w, proj (set_output x w) = proj w) /\
  (forall x w, proj (set_failed x w) = proj w).

(** The signal that the teardown of [am] sends. *)
Definition term_signal (w : World D) (am : nat) : list (Z * Signal) :=
  match process_of am w with
  | Some p => [(Pid p, SIGTERM)]
  | None => []
  end.

End spec.

End HarnessSpec.

(** * Where a run of the goroutines can get to *)

Module ConcurrentSpec.
Import F64 GoTime Clock Concurrent.

Section spec.
Context {F : Type}.
Variable indef : float64 -> Z.
Variable opts : AcceptanceOpts.

(** From [s] the program can get to [s'], in which the goroutine [i] has
    called [wg.Done()], by steps of this goroutine and of the clock
    only. *)
Definition finishes (i : nat) (s s' : state (F := F)) : Prop :=
  rtc (step indef opts) s s' /\
  main s' = main s /\
  length (gs s') = length (gs s) /\
  (exists g', gs s' !! i = Some g' /\ g_pc g' = GDone) /\
  (forall j, j <> i -> gs s' !! j = gs s !! j).

(** From [s] the program can get to a state in which [runActions] has
    returned. *)
Definition can_return (s : state (F := F)) : Prop :=
  exists s' tr, rtc (step indef opts) s s' /\ main s' = MReturned tr.

End spec.

End ConcurrentSpec.

(** * package config: the configuration file of the Alertmanager *)

Module Config.

(** What the package takes from files and libraries that are not part of
    the sources at hand: the values of the type [interface{}], the
    compiled regular expression, the fields of the notifier
    configurations that this file does not read, the verb [%q] of package
    fmt, [model.LabelNameRE.MatchString], the function of the pattern
    [patAuthLine] that replaces all matches by [${1}<hidden>], and
    [filepath.IsAbs] and [filepath.Join]. *)
Record Lib : Type := {
  Any : Type;
  Regexp : Type;
  EmailOther : Type;
  PagerdutyOther : Type;
  HipchatOther : Type;
  SlackOther : Type;
  WebhookConfig : Type;
  OpsGenieOther : Type;
  quote : string -> string;
  LabelNameRE_MatchString : string -> bool;
  patAuthLine_hide : string -> string;
  filepath_IsAbs : string -> bool;
  filepath_Join : string -> string -> string;
}.

(** [type Secret string] *)
Definition Secret : Type := string.

(** How a function that returns an [error] ends: with [nil], with an
    error, or by the panic of a nil pointer that is dereferenced. *)
Inductive ending : Type :=
  | Nil
  | Error (e : string)
  | NilPanic.

Definition of_error (e : option string) : ending :=
  match e with
  | None => Nil
  | Some e => Error e
  end.

(** [strings.HasSuffix] *)
Definition HasSuffix (s suffix : string) : bool :=
  (String.length suffix <=? String.length s) &&
  String.eqb (String.substring (String.length s - String.length suffix)
                (String.length suffix) s) suffix.

(** [type GlobalConfig struct]; [model.Duration] counts nanoseconds. *)
Record GlobalConfig : Type := {
  ResolveTimeout : Z;
  SMTPFrom : string;
  SMTPSmarthost : string;
  SlackAPIURL : Secret;
  PagerdutyURL : string;
  HipchatURL : string;
  HipchatAuthToken : Secret;
  OpsGenieAPIHost : string;
}.

(** [var DefaultGlobalConfig] *)
Definition DefaultGlobalConfig : GlobalConfig :=
  {| ResolveTimeout := 5 * (60 * 1000000000);
     SMTPFrom := "";
     SMTPSmarthost := "";
     SlackAPIURL := "";
     PagerdutyURL := "https://events.pagerduty.com/generic/2010-04-15/create_event.json";
     HipchatURL := "https://api.hipchat.com/";
     HipchatAuthToken := "";
     OpsGenieAPIHost := "https://api.opsgenie.com/" |}.

(** The global configuration has none of the settings for which
    [DefaultGlobalConfig] has none either. *)
Definition bare (g : GlobalConfig) : Prop :=
  SMTPSmarthost g = ""%string /\ SMTPFrom g = ""%string /\
  SlackAPIURL g = ""%string /\ HipchatAuthToken g = ""%string.

Section types.
Context {L : Lib}.

(** The notifier configurations: the fields that this file reads and
    writes, and the rest of each struct. *)
Record EmailConfig : Type := {
  Smarthost : string;
  From : string;
  email_other : EmailOther L;
}.

Record SlackConfig : Type := {
  slack_APIURL : Secret;
  slack_other : SlackOther L;
}.

Record HipchatConfig : Type := {
  hipchat_APIURL : string;
  AuthToken : Secret;
  hipchat_other : HipchatOther L;
}.

Record PagerdutyConfig : Type := {
  URL : string;
  pagerduty_other : PagerdutyOther L;
}.

Record OpsGenieConfig : Type := {
  APIHost : string;
  opsgenie_other : OpsGenieOther L;
}.

(** [type Receiver struct]; a slice of pointers is a list of structs or
    nil, one struct for each pointer.  The map [XXX] is the list of its
    entries in the order in which [range] goes through them. *)
Record Receiver : Type := {
  Name : string;
  EmailConfigs : list (option EmailConfig);
  PagerdutyConfigs : list (option PagerdutyConfig);
  HipchatConfigs : list (option HipchatConfig);
  SlackConfigs : list (option SlackConfig);
  WebhookConfigs : list (option (WebhookConfig L));
  OpsGenieConfigs : list (option OpsGenieConfig);
  receiver_XXX : list (string * Any L);
}.

(** [type Route struct]; the maps are the lists of their entries in the
    order in which [range] goes through them. *)
#[local] Unset Elimination Schemes.
Inductive Route : Type := Build_Route {
  route_Receiver : string;
  GroupBy : list string;
  Match : list (string * string);
  MatchRE : list (string * Regexp L);
  Continue : bool;
  Routes : list (option Route);
  GroupWait : option Z;
  GroupInterval : option Z;
  RepeatInterval : option Z;
  route_XXX : list (string * Any L);
}.
#[local] Set Elimination Schemes.

(** [type InhibitRule struct] *)
Record InhibitRule : Type := {
  SourceMatch : list (string * string);
  SourceMatchRE : list (string * Regexp L);
  TargetMatch : list (string * string);
  TargetMatchRE : list (string * Regexp L);
  Equal : list string;
  inhibit_XXX : list (string * Any L);
}.

(** [type Config struct] *)
Record Config : Type := {
  Global : option GlobalConfig;
  config_Route : option Route;
  InhibitRules : list (option InhibitRule);
  Receivers : list (option Receiver);
  Templates : list string;
  XXX : list (string * Any L);
  original : string;
}.

Definition with_Smarthost (x : string) (ec : EmailConfig) : EmailConfig :=
  {| Smarthost := x; From := From ec; email_other := email_other ec |}.
Definition with_From (x : string) (ec : EmailConfig) : EmailConfig :=
  {| Smarthost := Smarthost ec; From := x; email_other := email_other ec |}.
Definition with_slack_APIURL (x : Secret) (sc : SlackConfig) : SlackConfig :=
  {| slack_APIURL := x; slack_other := slack_other sc |}.
Definition with_hipchat_APIURL (x : string) (hc : HipchatConfig) : HipchatConfig :=
  {| hipchat_APIURL := x; AuthToken := AuthToken hc; hipchat_other := hipchat_other hc |}.
Definition with_AuthToken (x : Secret) (hc : HipchatConfig) : HipchatConfig :=
  {| hipchat_APIURL := hipchat_APIURL hc; AuthToken := x;
     hipchat_other := hipchat_other hc |}.
Definition with_URL (x : string) (pdc : PagerdutyConfig) : PagerdutyConfig :=
  {| URL := x; pagerduty_other := pagerduty_other pdc |}.
Definition with_APIHost (x : string) (ogc : OpsGenieConfig) : OpsGenieConfig :=
  {| APIHost := x; opsgenie_other := opsgenie_other ogc |}.

Definition with_EmailConfigs (x : list (option EmailConfig)) (r : Receiver) : Receiver :=
  {| Name := Name r; EmailConfigs := x; PagerdutyConfigs := PagerdutyConfigs r;
     HipchatConfigs := HipchatConfigs r; SlackConfigs := SlackConfigs r;
     WebhookConfigs := WebhookConfigs r; OpsGenieConfigs := OpsGenieConfigs r;
     receiver_XXX := receiver_XXX r |}.
Definition with_PagerdutyConfigs (x : list (option PagerdutyConfig)) (r : Receiver)
  : Receiver :=
  {| Name := Name r; EmailConfigs := EmailConfigs r; PagerdutyConfigs := x;
     HipchatConfigs := HipchatConfigs r; SlackConfigs := SlackConfigs r;
     WebhookConfigs := WebhookConfigs r; OpsGenieConfigs := OpsGenieConfigs r;
     receiver_XXX := receiver_XXX r |}.
Definition with_HipchatConfigs (x : list (option HipchatConfig)) (r : Receiver)
  : Receiver :=
  {| Name := Name r; EmailConfigs := EmailConfigs r;
     PagerdutyConfigs := PagerdutyConfigs r;
     HipchatConfigs := x; SlackConfigs := SlackConfigs r;
     WebhookConfigs := WebhookConfigs r; OpsGenieConfigs := OpsGenieConfigs r;
     receiver_XXX := receiver_XXX r |}.
Definition with_SlackConfigs (x : list (option SlackConfig)) (r : Receiver) : Receiver :=
  {| Name := Name r; EmailConfigs := EmailConfigs r;
     PagerdutyConfigs := PagerdutyConfigs r;
     HipchatConfigs := HipchatConfigs r; SlackConfigs := x;
     WebhookConfigs := WebhookConfigs r; OpsGenieConfigs := OpsGenieConfigs r;
     receiver_XXX := receiver_XXX r |}.
Definition with_OpsGenieConfigs (x : list (option OpsGenieConfig)) (r : Receiver)
  : Receiver :=
  {| Name := Name r; EmailConfigs := EmailConfigs r;
     PagerdutyConfigs := PagerdutyConfigs r;
     HipchatConfigs := HipchatConfigs r; SlackConfigs := SlackConfigs r;
     WebhookConfigs := WebhookConfigs r; OpsGenieConfigs := x;
     receiver_XXX := receiver_XXX r |}.

Definition with_Global (x : option GlobalConfig) (c : Config) : Config :=
  {| Global := x; config_Route := config_Route c; InhibitRules := InhibitRules c;
     Receivers := Receivers c; Templates := Templates c; XXX := XXX c;
     original := original c |}.
Definition with_Receivers (x : list (option Receiver)) (c : Config) : Config :=
  {| Global := Global c; config_Route := config_Route c;
     InhibitRules := InhibitRules c;
     Receivers := x; Templates := Templates c; XXX := XXX c;
     original := original c |}.
Definition with_Templates (x : list string) (c : Config) : Config :=
  {| Global := Global c; config_Route := config_Route c;
     InhibitRules := InhibitRules c;
     Receivers := Receivers c; Templates := x; XXX := XXX c;
     original := original c |}.
Definition with_original (x : string) (c : Config) : Config :=
  {| Global := Global c; config_Route := config_Route c;
     InhibitRules := InhibitRules c;
     Receivers := Receivers c; Templates := Templates c; XXX := XXX c;
     original := x |}.

(** [&Config{}] *)
Definition empty_Config : Config :=
  {| Global := None; config_Route := None; InhibitRules := []; Receivers := [];
     Templates := []; XXX := []; original := "" |}.

(** [func checkOverflow(m map[string]interface{}, ctx string) error] *)
Definition checkOverflow (m : list (string * Any L)) (ctx : string) : option string :=
  if 0 <? length m
  then Some ("unknown fields in " ++ ctx ++ ": " ++ String.concat ", " (map fst m))%string
  else None.

(** ** [func (c *Config) UnmarshalYAML] *)

(** A loop [for _, x := range xs] over a slice of pointers whose body
    works on the struct behind [x] and may return an error.  The result
    is the slice as the loop leaves it and how the loop ends. *)
Fixpoint range_ptrs {T} (body : T -> T * ending) (xs : list (option T))
  : list (option T) * ending :=
  match xs with
  | [] => ([], Nil)
  | None :: _ => (xs, NilPanic)
  | Some x :: xs' =>
      match body x with
      | (x', Nil) =>
          let (xs'', e) := range_ptrs body xs' in (Some x' :: xs'', e)
      | (x', e) => (Some x' :: xs', e)
      end
  end.

(** The body of [for _, ec := range rcv.EmailConfigs], with the global
    configuration [g] of the file. *)
Definition email_body (g : GlobalConfig) (ec : EmailConfig) : EmailConfig * ending :=
  let r :=
    if String.eqb (Smarthost ec) ""
    then if String.eqb (SMTPSmarthost g) ""
         then (ec, Error "no global SMTP smarthost set")
         else (with_Smarthost (SMTPSmarthost g) ec, Nil)
    else (ec, Nil) in
  match r with
  | (ec, Nil) =>
      if String.eqb (From ec) ""
      then if String.eqb (SMTPFrom g) ""
           then (ec, Error "no global SMTP from set")
           else (with_From (SMTPFrom g) ec, Nil)
      else (ec, Nil)
  | _ => r
  end.

(** The body of [for _, sc := range rcv.SlackConfigs]. *)
Definition slack_body (g : GlobalConfig) (sc : SlackConfig) : SlackConfig * ending :=
  if String.eqb (slack_APIURL sc) ""
  then if String.eqb (SlackAPIURL g) ""
       then (sc, Error "no global Slack API URL set")
       else (with_slack_APIURL (SlackAPIURL g) sc, Nil)
  else (sc, Nil).

(** The body of [for _, hc := range rcv.HipchatConfigs]. *)
Definition hipchat_body (g : GlobalConfig) (hc : HipchatConfig)
  : HipchatConfig * ending :=
  let r :=
    if String.eqb (hipchat_APIURL hc) ""
    then if String.eqb (HipchatURL g) ""
         then (hc, Error "no global Hipchat API URL set")
         else (with_hipchat_APIURL (HipchatURL g) hc, Nil)
    else (hc, Nil) in
  match r with
  | (hc, Nil) =>
      let hc :=
        if negb (HasSuffix (hipchat_APIURL hc) "/")
        then with_hipchat_APIURL (hipchat_APIURL hc ++ "/") hc
        else hc in
      if String.eqb (AuthToken hc) ""
      then if String.eqb (HipchatAuthToken g) ""
           then (hc, Error "no global Hipchat Auth Token set")
           else (with_AuthToken (HipchatAuthToken g) hc, Nil)
      else (hc, Nil)
  | _ => r
  end.

(** The body of [for _, pdc := range rcv.PagerdutyConfigs]. *)
Definition pagerduty_body (g : GlobalConfig) (pdc : PagerdutyConfig)
  : PagerdutyConfig * ending :=
  if String.eqb (URL pdc) ""
  then if String.eqb (PagerdutyURL g) ""
       then (pdc, Error "no global PagerDuty URL set")
       else (with_URL (PagerdutyURL g) pdc, Nil)
  else (pdc, Nil).

(** The body of [for _, ogc := range rcv.OpsGenieConfigs]. *)
Definition opsgenie_body (g : GlobalConfig) (ogc : OpsGenieConfig)
  : OpsGenieConfig * ending :=
  let r :=
    if String.eqb (APIHost ogc) ""
    then if String.eqb (OpsGenieAPIHost g) ""
         then (ogc, Error "no global OpsGenie URL set")
         else (with_APIHost (OpsGenieAPIHost g) ogc, Nil)
    else (ogc, Nil) in
  match r with
  | (ogc, Nil) =>
      if negb (HasSuffix (APIHost ogc) "/")
      then (with_APIHost (APIHost ogc ++ "/") ogc, Nil)
      else (ogc, Nil)
  | _ => r
  end.

(** The body of [for _, rcv := range c.Receivers], before
    [names[rcv.Name] = struct{}{}]; [names] holds the keys of the map. *)
Definition receiver_body (g : GlobalConfig) (names : list string) (rcv : Receiver)
  : Receiver * ending :=
  if bool_decide (Name rcv ∈ names)
  then (rcv, Error ("notification config name " ++ quote L (Name rcv)
                    ++ " is not unique")%string)
  else
    let (ecs, e) := range_ptrs (email_body g) (EmailConfigs rcv) in
    let rcv := with_EmailConfigs ecs rcv in
    match e with
    | Nil =>
        let (scs, e) := range_ptrs (slack_body g) (SlackConfigs rcv) in
        let rcv := with_SlackConfigs scs rcv in
        match e with
        | Nil =>
            let (hcs, e) := range_ptrs (hipchat_body g) (HipchatConfigs rcv) in
            let rcv := with_HipchatConfigs hcs rcv in
            match e with
            | Nil =>
                let (pdcs, e) := range_ptrs (pagerduty_body g) (PagerdutyConfigs rcv) in
                let rcv := with_PagerdutyConfigs pdcs rcv in
                match e with
                | Nil =>
                    let (ogcs, e) :=
                      range_ptrs (opsgenie_body g) (OpsGenieConfigs rcv) in
                    (with_OpsGenieConfigs ogcs rcv, e)
                | _ => (rcv, e)
                end
            | _ => (rcv, e)
            end
        | _ => (rcv, e)
        end
    | _ => (rcv, e)
    end.

(** The loop [for _, rcv := range c.Receivers]. *)
Fixpoint range_receivers (g : GlobalConfig) (names : list string)
    (rcvs : list (option Receiver)) : list (option Receiver) * ending :=
  match rcvs with
  | [] => ([], Nil)
  | None :: _ => (rcvs, NilPanic)
  | Some rcv :: rcvs' =>
      match receiver_body g names rcv with
      | (rcv', Nil) =>
          let (rcvs'', e) := range_receivers g (Name rcv' :: names) rcvs' in
          (Some rcv' :: rcvs'', e)
      | (rcv', e) => (Some rcv' :: rcvs', e)
      end
  end.

(** [UnmarshalYAML] of [*Config] after its call of [unmarshal] has
    returned [nil]: the configuration as the function leaves it and how
    it ends. *)
Definition Config_defaults (c : Config) : Config * ending :=
  let g :=
    match Global c with
    | None => DefaultGlobalConfig
    | Some g => g
    end in
  let c := with_Global (Some g) c in
  let (rcvs, e) := range_receivers g [] (Receivers c) in
  let c := with_Receivers rcvs c in
  match e with
  | Nil => (c, of_error (checkOverflow (XXX c) "config"))
  | _ => (c, e)
  end.

(** [func (c *Config) UnmarshalYAML(unmarshal func(interface{}) error) error];
    [unmarshal] fills the configuration it is given. *)
Definition Config_UnmarshalYAML (unmarshal : Config -> Config * option string)
    (c : Config) : Config * ending :=
  match unmarshal c with
  | (c, Some err) => (c, Error err)
  | (c, None) => Config_defaults c
  end.

(** ** [func (r *Route) UnmarshalYAML] *)

(** [for k := range m { if !model.LabelNameRE.MatchString(k) { return
    fmt.Errorf("invalid label name %q", k) } }] *)
Fixpoint check_names {V} (m : list (string * V)) : option string :=
  match m with
  | [] => None
  | (k, _) :: m' =>
      if negb (LabelNameRE_MatchString L k)
      then Some ("invalid label name " ++ quote L k)%string
      else check_names m'
  end.

(** The loop over [r.GroupBy]; [seen] holds the keys of the map
    [groupBy]. *)
Fixpoint check_group_by (seen : list string) (lns : list string) : option string :=
  match lns with
  | [] => None
  | ln :: lns' =>
      if bool_decide (ln ∈ seen)
      then Some ("duplicated label " ++ quote L ln ++ " in group_by")%string
      else check_group_by (ln :: seen) lns'
  end.

(** [UnmarshalYAML] of [*Route] after its call of [unmarshal] has
    returned [nil]. *)
Definition Route_checks (r : Route) : option string :=
  match check_names (Match r) with
  | Some e => Some e
  | None =>
      match check_names (MatchRE r) with
      | Some e => Some e
      | None =>
          match check_group_by [] (GroupBy r) with
          | Some e => Some e
          | None => checkOverflow (route_XXX r) "route"
          end
      end
  end.

Definition Route_UnmarshalYAML (unmarshal : Route -> Route * option string)
    (r : Route) : Route * option string :=
  match unmarshal r with
  | (r, Some err) => (r, Some err)
  | (r, None) => (r, Route_checks r)
  end.

(** ** [func (r *InhibitRule) UnmarshalYAML] *)

Definition InhibitRule_checks (r : InhibitRule) : option string :=
  match check_names (SourceMatch r) with
  | Some e => Some e
  | None =>
      match check_names (SourceMatchRE r) with
      | Some e => Some e
      | None =>
          match check_names (TargetMatch r) with
          | Some e => Some e
          | None =>
              match check_names (TargetMatchRE r) with
              | Some e => Some e
              | None => checkOverflow (inhibit_XXX r) "inhibit rule"
              end
          end
      end
  end.

Definition InhibitRule_UnmarshalYAML
    (unmarshal : InhibitRule -> InhibitRule * option string)
    (r : InhibitRule) : InhibitRule * option string :=
  match unmarshal r with
  | (r, Some err) => (r, Some err)
  | (r, None) => (r, InhibitRule_checks r)
  end.

(** ** Loading *)

(** [func Load(s string)], which returns a [*Config] and an error;
    [yaml_Unmarshal] is [yaml.Unmarshal] for the type [*Config]. *)
Definition Load (yaml_Unmarshal : string -> Config -> Config * option string)
    (s : string) : Config + string :=
  match yaml_Unmarshal s empty_Config with
  | (_, Some err) => inr err
  | (cfg, None) =>
      match config_Route cfg with
      | None => inr "no route provided in config"%string
      | Some _ => inl (with_original s cfg)
      end
  end.

(** [func resolveFilepaths(baseDir string, cfg *Config)] *)
Definition resolveFilepaths (baseDir : string) (cfg : Config) : Config :=
  let join fp :=
    if (0 <? String.length fp) && negb (filepath_IsAbs L fp)
    then filepath_Join L baseDir fp
    else fp in
  with_Templates (map join (Templates cfg)) cfg.

(** [func LoadFile(filename string)], which returns a [*Config] and an
    error; [ReadFile] is [ioutil.ReadFile] and [Dir] is [filepath.Dir]. *)
Definition LoadFile (yaml_Unmarshal : string -> Config -> Config * option string)
    (ReadFile : string -> string + string) (Dir : string -> string)
    (filename : string) : Config + string :=
  match ReadFile filename with
  | inr err => inr err
  | inl content =>
      match Load yaml_Unmarshal content with
      | inr err => inr err
      | inl cfg => inl (resolveFilepaths (Dir filename) cfg)
      end
  end.

(** [func (c Config) String() string]; [yaml_Marshal] is [yaml.Marshal]
    for the type [Config]. *)
Definition Config_String (yaml_Marshal : Config -> string + string) (c : Config)
  : string :=
  if negb (String.eqb (original c) "")
  then patAuthLine_hide L (original c)
  else
    match yaml_Marshal c with
    | inr err => ("<error creating config string: " ++ err ++ ">")%string
    | inl b => patAuthLine_hide L b
    end.

(** ** What a configuration is like after [UnmarshalYAML] *)

(** The receiver has all the settings that the notifiers need. *)
Definition settled (rcv : Receiver) : Prop :=
  Forall (fun x => exists ec, x = Some ec /\ Smarthost ec <> ""%string /\
                              From ec <> ""%string) (EmailConfigs rcv) /\
  Forall (fun x => exists sc, x = Some sc /\ slack_APIURL sc <> ""%string)
         (SlackConfigs rcv) /\
  Forall (fun x => exists hc, x = Some hc /\
                              HasSuffix (hipchat_APIURL hc) "/" = true /\
                              AuthToken hc <> ""%string) (HipchatConfigs rcv) /\
  Forall (fun x => exists pdc, x = Some pdc /\ URL pdc <> ""%string)
         (PagerdutyConfigs rcv) /\
  Forall (fun x => exists ogc, x = Some ogc /\ HasSuffix (APIHost ogc) "/" = true)
         (OpsGenieConfigs rcv).

(** The receiver has the settings of its own that the defaults of the
    package do not provide. *)
Definition self_reliant (rcv : Receiver) : Prop :=
  Forall (fun x => exists ec, x = Some ec /\ Smarthost ec <> ""%string /\
                              From ec <> ""%string) (EmailConfigs rcv) /\
  Forall (fun x => exists sc, x = Some sc /\ slack_APIURL sc <> ""%string)
         (SlackConfigs rcv) /\
  Forall (fun x => exists hc, x = Some hc /\ AuthToken hc <> ""%string)
         (HipchatConfigs rcv).

End types.

End Config.

(** * Concrete tests with requests *)

Module SampleRequests.
Import F64 GoTime Clock GoRt Harness Sample.

(** Every command can be started. *)
Definition env_ready : Env decls :=
  {| ioutil_TempFile := ioutil_TempFile env_ok;
     file_write := file_write env_ok;
     file_sync := file_sync env_ok;
     net_Listen := net_Listen env_ok;
     alertmanager_New := alertmanager_New env_ok;
     exec_Start := fun w _ =>
       Ok (1000 + Z.of_nat (length (filter (fun a => bool_decide (is_Some (cmd a ≫= Process)))
                                           (am_heap w))))%Z;
     api_Push := api_Push env_ok;
     api_Set := api_Set env_ok;
     api_Del := fun _ _ _ => Some "silence not found"%string;
     Collector_check := Collector_check env_ok |}.

(** Two instances in the setting [env_ready]. *)
Definition two_instances : AcceptanceTest decls * World decls :=
  built_with env_ready ["a"; "b"]%string.

(** The client of the first instance. *)
Definition client0 : string := "http://[::]:40001".

(** A push after one second, a silence after two and its deletion after
    three. *)
Definition three_requests : list (float64 * list (Action decls)) :=
  [(Fin 1, [push_action env_ready (Some client0) ["alert-a"%string]]);
   (Fin 2, [set_silence_action env_ready (opts (fst two_instances)) (Some client0) 0]);
   (Fin 3, [del_silence_action env_ready (Some client0) 0])].

Definition requests_test : AcceptanceTest decls :=
  set_actions three_requests (fst two_instances).

(** A function that panics, one second after the base time. *)
Definition panic_test : AcceptanceTest decls :=
  set_actions [(Fin 1, [panic])] (fst two_instances).

(** A setting in which the native form of a silence shows the
    identifier it was converted with: it is the pair of the identifier
    and the rest of the declaration. *)
Definition decls_id : Decls :=
  {| TestAlert := string;
     Alert := string;
     SilenceBody := string;
     Silence := string * string;
     SilenceID := string;
     Collector := float64;
     nativeAlert := fun _ a => a;
     nativeSilence := fun _ sid b => (sid, b);
     Collector_latest := fun c => c |}.

(** The server gives the identifier "id-7" to every silence it is sent,
    and serves every other request. *)
Definition env_id : Env decls_id :=
  {| ioutil_TempFile := fun _ => Ok "/tmp/am_config1"%string;
     file_write := fun _ _ _ => None;
     file_sync := fun _ _ => None;
     net_Listen := fun _ => Ok "[::]:40001"%string;
     alertmanager_New := fun _ url => Ok url;
     exec_Start := fun _ _ => Ok 1000%Z;
     api_Push := fun _ _ _ => None;
     api_Set := fun _ _ _ => Ok ("id-7"%string : SilenceID decls_id);
     api_Del := fun _ _ _ => None;
     Collector_check := fun _ _ => "ok"%string |}.

(** A world with one silence, which has no identifier yet. *)
Definition world_id : World decls_id :=
  @Build_World decls_id
    1446000000000000000%Z ∅ [] [] [] []
    [@Build_TestSilence decls_id EmptyString "quiet"%string]
    false [].

Definition opts_id : AcceptanceOpts :=
  {| Tolerance := 0%Z; baseTime := 1446000000000000000%Z |}.

End SampleRequests.

(** * A concrete configuration *)

Module ConfigSample.
Import Config.

Definition is_letter (a : Ascii.ascii) : bool :=
  let n := Ascii.nat_of_ascii a in
  ((65 <=? n) && (n <=? 90)) || ((97 <=? n) && (n <=? 122)) || (n =? 95).

Definition is_digit (a : Ascii.ascii) : bool :=
  let n := Ascii.nat_of_ascii a in (48 <=? n) && (n <=? 57).

Fixpoint all_chars (p : Ascii.ascii -> bool) (s : string) : bool :=
  match s with
  | EmptyString => true
  | String a s' => p a && all_chars p s'
  end.

(** A letter or an underscore, then letters, digits and underscores. *)
Definition label_name (s : string) : bool :=
  match s with
  | EmptyString => false
  | String a s' => is_letter a && all_chars (fun b => is_letter b || is_digit b) s'
  end.

Definition double_quote : string := String (Ascii.ascii_of_nat 34) EmptyString.

(** Paths are those of Unix; no pattern is hidden. *)
Definition lib : Lib :=
  {| Any := string;
     Regexp := string;
     EmailOther := unit;
     PagerdutyOther := unit;
     HipchatOther := unit;
     SlackOther := unit;
     WebhookConfig := unit;
     OpsGenieOther := unit;
     quote := fun s => (double_quote ++ s ++ double_quote)%string;
     LabelNameRE_MatchString := label_name;
     patAuthLine_hide := fun s => s;
     filepath_IsAbs := String.prefix "/";
     filepath_Join := fun dir fp => (dir ++ "/" ++ fp)%string |}.

Definition mail : EmailConfig (L := lib) :=
  @Build_EmailConfig lib "mail.example.org:25" "alerts@example.org" tt.

(** A Hipchat configuration without URL, with a token. *)
Definition chat : HipchatConfig (L := lib) :=
  @Build_HipchatConfig lib "" "secret" tt.

(** A PagerDuty configuration without URL. *)
Definition pager : PagerdutyConfig (L := lib) :=
  @Build_PagerdutyConfig lib "" tt.

Definition receiver (name : string) : Receiver (L := lib) :=
  @Build_Receiver lib name [Some mail] [Some pager] [Some chat] [] [] [] [].

Definition route : Route (L := lib) :=
  @Build_Route lib "team-a" ["alertname"; "cluster"]%string
    [("severity", "page")]%string [] false [] None None None [].

(** A file with two receivers, a route and three templates, without a
    global section, as [unmarshal] leaves it. *)
Definition parsed : Config (L := lib) :=
  @Build_Config lib None (Some route) []
    [Some (receiver "team-a"); Some (receiver "team-b")]
    ["templates/a.tmpl"; "/etc/am/b.tmpl"; ""]%string [] "".

Definition unmarshal : Config (L := lib) -> Config (L := lib) * option string :=
  fun _ => (parsed, None).

Definition yaml_Unmarshal (s : string)
  : Config (L := lib) -> Config (L := lib) * option string :=
  fun _ => (parsed, None).

(** A global section with settings of its own. *)
Definition global : GlobalConfig :=
  {| ResolveTimeout := 60 * 1000000000;
     SMTPFrom := "global@example.org";
     SMTPSmarthost := "smtp.example.org:25";
     SlackAPIURL := "https://slack.example.org/hook";
     PagerdutyURL := "https://pager.example.org/";
     HipchatURL := "https://chat.example.org/";
     HipchatAuthToken := "global-secret";
     OpsGenieAPIHost := "https://genie.example.org/" |}.

(** A receiver with every setting of its own. *)
Definition complete (name : string) : Receiver (L := lib) :=
  @Build_Receiver lib name [Some mail]
    [Some (@Build_PagerdutyConfig lib "https://events.example.org/" tt)]
    [Some (@Build_HipchatConfig lib "https://hipchat.example.org/" "secret" tt)]
    [] [] [] [].

(** A file with a global section and two complete receivers. *)
Definition complete_file : Config (L := lib) :=
  @Build_Config lib (Some global) (Some route) []
    [Some (complete "team-a"); Some (complete "team-b")] [] [] "".

(** The same file with a third, empty entry in its list of receivers. *)
Definition file_with_nil : Config (L := lib) :=
  @Build_Config lib (Some global) (Some route) []
    [Some (complete "team-a"); Some (complete "team-b"); None;
     Some (receiver "team-c")] [] [] "".

Definition content : string := "route: {receiver: team-a}".

End ConfigSample.

(** * Properties of rounding and of the virtual clock *)

Module ClockProps.
Import F64 GoTime Clock.
Local Open Scope Q_scope.

Lemma pow2_pos e : 0 < 2 ^ e.
Proof. by apply Qpower_0_lt. Qed.

Lemma pow2_plus a b : 2 ^ (a + b) == 2 ^ a * 2 ^ b.
Proof. by apply Qpower_plus. Qed.

Lemma pow2_succ a : 2 ^ (a + 1) == 2 * 2 ^ a.
Proof. rewrite pow2_plus. change (2 ^ 1) with 2. ring. Qed.

Lemma pow2_pred a : 2 ^ (a - 1) == (1 # 2) * 2 ^ a.
Proof.
  assert (2 ^ a == 2 ^ ((a - 1) + 1)) as H by (by replace (a - 1 + 1)%Z with a by lia).
  rewrite H, pow2_succ. field.
Qed.

Lemma pow2_le a b : (a <= b)%Z -> 2 ^ a <= 2 ^ b.
Proof. intros H. by apply Qpower_le_compat_l. Qed.

Lemma pow2_lt_inv a b : 2 ^ a < 2 ^ b -> (a < b)%Z.
Proof. intros H. by apply (Qpower_lt_compat_l_inv 2). Qed.

Lemma pow2_inject (n : Z) : (0 <= n)%Z -> inject_Z (2 ^ n) == 2 ^ n.
Proof. intros H. by rewrite Zpower_Qpower. Qed.

(** [ilog2] is the exponent of the binade. *)
Lemma ilog2_spec q : 0 < q -> 2 ^ ilog2 q <= q /\ q < 2 ^ (ilog2 q + 1).
Proof.
  intros Hq. destruct q as [n d]. unfold ilog2. simpl Qnum. simpl Qden.
  assert (0 < n)%Z as Hn by (unfold Qlt in Hq; simpl in Hq; lia).
  destruct (Z.log2_spec n Hn) as [Ha1 Ha2].
  destruct (Z.log2_spec (Zpos d) ltac:(lia)) as [Hb1 Hb2].
  pose proof (Z.log2_nonneg n) as Ha0.
  pose proof (Z.log2_nonneg (Zpos d)) as Hb0.
  set (a := Z.log2 n) in *. set (b := Z.log2 (Zpos d)) in *.
  assert (n # d == inject_Z n / inject_Z (Zpos d)) as Hnd by apply Qmake_Qdiv.
  assert (0 < inject_Z (Zpos d)) as Hd by (unfold Qlt; simpl; lia).
  assert (2 ^ a <= inject_Z n) as HA1.
  { rewrite <- pow2_inject by done. by rewrite <- Zle_Qle. }
  assert (inject_Z n < 2 * 2 ^ a) as HA2.
  { rewrite <- pow2_succ, <- pow2_inject by lia. rewrite <- Zlt_Qlt.
    by replace (a + 1)%Z with (Z.succ a) by lia. }
  assert (2 ^ b <= inject_Z (Zpos d)) as HB1.
  { rewrite <- pow2_inject by done. by rewrite <- Zle_Qle. }
  assert (inject_Z (Zpos d) < 2 * 2 ^ b) as HB2.
  { rewrite <- pow2_succ, <- pow2_inject by lia. rewrite <- Zlt_Qlt.
    by replace (b + 1)%Z with (Z.succ b) by lia. }
  pose proof (pow2_pos a) as HA0. pose proof (pow2_pos b) as HB0.
  assert (2 ^ (a - b) * 2 ^ b == 2 ^ a) as Hk.
  { rewrite <- pow2_plus. by replace (a - b + b)%Z with a by lia. }
  pose proof (pow2_pos (a - b)) as HX0.
  destruct (Qle_bool (2 ^ (a - b)) (n # d)) eqn:E.
  - apply Qle_bool_iff in E. split; [exact E|].
    rewrite pow2_succ, Hnd.
    apply Qlt_shift_div_r; [exact Hd|].
    generalize dependent (2 ^ (a - b)). generalize dependent (2 ^ a).
    generalize dependent (2 ^ b). intros. nra.
  - assert (n # d < 2 ^ (a - b)) as E'.
    { apply Qnot_le_lt. intros H%Qle_bool_iff. congruence. }
    replace (a - b - 1 + 1)%Z with (a - b)%Z by lia. split; [|exact E'].
    rewrite pow2_pred, Hnd.
    apply Qle_shift_div_l; [exact Hd|].
    pose proof (Qmult_le_0_compat (2 ^ (a - b)) (2 * 2 ^ b - inject_Z (Zpos d))
                  ltac:(lra) ltac:(lra)) as Hprod.
    generalize dependent (2 ^ (a - b)). generalize dependent (2 ^ a).
    generalize dependent (2 ^ b). intros. lra.
Qed.

Lemma ilog2_upper q k : 0 < q -> q < 2 ^ (k + 1) -> (ilog2 q <= k)%Z.
Proof.
  intros Hq Hk. destruct (ilog2_spec q Hq) as [H1 _].
  assert (2 ^ ilog2 q < 2 ^ (k + 1)) as H by lra.
  apply pow2_lt_inv in H. lia.
Qed.

Lemma ilog2_lower q k : 0 < q -> 2 ^ k <= q -> (k <= ilog2 q)%Z.
Proof.
  intros Hq Hk. destruct (ilog2_spec q Hq) as [_ H2].
  assert (2 ^ k < 2 ^ (ilog2 q + 1)) as H by lra.
  apply pow2_lt_inv in H. lia.
Qed.

(** The nearest integer is at most one half away. *)
Lemma rne_error y : Qabs (inject_Z (rne y) - y) <= 1 # 2.
Proof.
  unfold rne. pose proof (Qfloor_le y) as H1. pose proof (Qlt_floor y) as H2.
  rewrite inject_Z_plus in H2. change (inject_Z 1) with 1 in H2.
  apply Qabs_Qle_condition.
  destruct (y - inject_Z (Qfloor y) ?= (1 # 2)) eqn:E.
  - apply Qeq_alt in E. destruct (Z.even (Qfloor y)).
    + generalize dependent (inject_Z (Qfloor y)). intros. lra.
    + rewrite inject_Z_plus. change (inject_Z 1) with 1.
      generalize dependent (inject_Z (Qfloor y)). intros. lra.
  - apply Qlt_alt in E. generalize dependent (inject_Z (Qfloor y)). intros. lra.
  - apply Qgt_alt in E. rewrite inject_Z_plus. change (inject_Z 1) with 1.
    generalize dependent (inject_Z (Qfloor y)). intros. lra.
Qed.

Lemma rne_integer n : rne (inject_Z n) = n.
Proof.
  unfold rne. rewrite Qfloor_Z.
  assert ((inject_Z n - inject_Z n ?= (1 # 2)) = Lt) as ->; [|done].
  apply -> Qlt_alt. generalize (inject_Z n). intros. lra.
Qed.

Lemma rne_eq y n : y == inject_Z n -> rne y = n.
Proof.
  intros H. unfold rne.
  assert (Qfloor y = n) as -> by (rewrite H; apply Qfloor_Z).
  assert ((y - inject_Z n ?= (1 # 2)) = Lt) as ->; [|done].
  apply -> Qlt_alt. generalize dependent (inject_Z n). intros. lra.
Qed.

(** Rounding moves a number by at most half a unit in the last place. *)
Lemma round_q_error y :
  Qabs (round_q y - y) <= (1 # 2) * 2 ^ ulp_exp y.
Proof.
  unfold round_q. set (e := ulp_exp y). pose proof (pow2_pos e) as He.
  pose proof (rne_error (y / 2 ^ e)) as H.
  apply Qabs_Qle_condition in H. apply Qabs_Qle_condition.
  assert ((y / 2 ^ e) * 2 ^ e == y) as Hy by (field; lra).
  generalize dependent (inject_Z (rne (y / 2 ^ e))).
  generalize dependent (y / 2 ^ e). generalize dependent (2 ^ e).
  intros p Hp z Hz n [H1 H2].
  pose proof (Qmult_le_0_compat _ _ (proj1 (Qle_minus_iff _ _) H1) (Qlt_le_weak _ _ Hp)).
  pose proof (Qmult_le_0_compat _ _ (proj1 (Qle_minus_iff _ _) H2) (Qlt_le_weak _ _ Hp)).
  lra.
Qed.

Lemma ulp_exp_upper y k :
  ~ y == 0 -> Qabs y < 2 ^ (k + 1) -> (-1074 <= k - 52)%Z -> (ulp_exp y <= k - 52)%Z.
Proof.
  intros Hy Hk Hmin. unfold ulp_exp.
  assert (0 < Qabs y) as Hpos.
  { pose proof (Qabs_nonneg y). destruct (Qeq_dec (Qabs y) 0) as [E|E]; [|lra].
    exfalso. apply Hy. revert E. apply Qabs_case; intros; lra. }
  pose proof (ilog2_upper _ _ Hpos Hk). lia.
Qed.

Lemma ulp_exp_lower y k : 2 ^ k <= Qabs y -> (k - 52 <= ulp_exp y)%Z.
Proof.
  intros Hk. unfold ulp_exp. pose proof (pow2_pos k).
  pose proof (ilog2_lower (Qabs y) k ltac:(lra) Hk). lia.
Qed.

Lemma ulp_exp_min y : (-1074 <= ulp_exp y)%Z.
Proof. unfold ulp_exp. lia. Qed.

Lemma Qabs_pos_nonzero y : ~ y == 0 -> 0 < Qabs y.
Proof.
  intros Hy. pose proof (Qabs_nonneg y).
  destruct (Qeq_dec (Qabs y) 0) as [E|E]; [|lra].
  exfalso. apply Hy. revert E. apply Qabs_case; intros; lra.
Qed.

Lemma inject_Z_abs n : inject_Z (Z.abs n) == Qabs (inject_Z n).
Proof. unfold inject_Z. by rewrite Zabs_Qabs. Qed.

(** The rounded number is a mantissa of at most 53 bits times the unit. *)
Lemma round_q_mantissa y :
  ~ y == 0 -> (Z.abs (rne (y / 2 ^ ulp_exp y)) <= 2 ^ 53)%Z.
Proof.
  intros Hy. pose proof (Qabs_pos_nonzero y Hy) as Hpos.
  destruct (ilog2_spec _ Hpos) as [_ Hup].
  set (e := ulp_exp y). pose proof (pow2_pos e) as He.
  assert (ilog2 (Qabs y) + 1 <= e + 53)%Z as Hle by (unfold e, ulp_exp; lia).
  apply pow2_le in Hle. rewrite (pow2_plus e 53) in Hle.
  assert (Qabs (y / 2 ^ e) < 2 ^ 53) as Hz.
  { unfold Qdiv. rewrite Qabs_Qmult, Qabs_Qinv, (Qabs_pos (2 ^ e)) by lra.
    apply Qlt_shift_div_r; [exact He|]. lra. }
  pose proof (rne_error (y / 2 ^ e)) as Hr.
  set (N := rne (y / 2 ^ e)) in *.
  assert (Qabs (inject_Z N) < 2 ^ 53 + 1) as HN.
  { pose proof (Qabs_triangle (inject_Z N - y / 2 ^ e) (y / 2 ^ e)) as Ht.
    assert (inject_Z N - y / 2 ^ e + y / 2 ^ e == inject_Z N) as E by ring.
    rewrite E in Ht. lra. }
  rewrite <- inject_Z_abs in HN.
  assert (2 ^ 53 + 1 == inject_Z (2 ^ 53 + 1)) as E by reflexivity.
  rewrite E, <- Zlt_Qlt in HN. lia.
Qed.

Lemma round_q_zero y : y == 0 -> round_q y == 0.
Proof.
  intros Hy. unfold round_q.
  rewrite (rne_eq _ 0%Z).
  - change (inject_Z 0) with 0. ring.
  - change (inject_Z 0) with 0. unfold Qdiv.
    generalize (/ 2 ^ ulp_exp y). intros r. rewrite Hy. ring.
Qed.

(** A mantissa of at most 53 bits times a power of two that is not below
    the smallest unit is a value of the type: rounding keeps it. *)
Lemma round_q_representable y N e :
  y == inject_Z N * 2 ^ e ->
  (Z.abs N <= 2 ^ 53)%Z -> (-1074 <= e)%Z ->
  round_q y == y.
Proof.
  intros Hy HN He.
  pose proof (pow2_pos e) as Hpe.
  destruct (Z.eq_dec N 0%Z) as [->|HN0].
  { assert (y == 0) as Hy0 by (rewrite Hy; change (inject_Z 0) with 0; ring).
    rewrite Hy0 at 2. by apply round_q_zero. }
  assert (Qabs y == inject_Z (Z.abs N) * 2 ^ e) as Habs.
  { rewrite Hy, Qabs_Qmult, (Qabs_pos (2 ^ e)) by lra.
    by rewrite inject_Z_abs. }
  assert (1 <= inject_Z (Z.abs N)) as HN1.
  { change 1 with (inject_Z 1). rewrite <- Zle_Qle. lia. }
  assert (inject_Z (Z.abs N) <= 2 ^ 53) as HN2.
  { rewrite <- pow2_inject by lia. rewrite <- Zle_Qle. exact HN. }
  assert (0 < Qabs y) as Hpos.
  { rewrite Habs. apply Qmult_lt_0_compat; lra. }
  pose proof (pow2_pos (ulp_exp y)) as Hpu.
  assert (exists M, y / 2 ^ ulp_exp y == inject_Z M) as [M HM].
  { destruct (Z_le_gt_dec (ulp_exp y) e) as [Hle|Hgt].
    - exists (N * 2 ^ (e - ulp_exp y))%Z.
      rewrite inject_Z_mult, pow2_inject by lia.
      unfold Z.sub. rewrite pow2_plus, Qpower_opp.
      generalize dependent (2 ^ ulp_exp y). intros p Hp.
      unfold Qdiv. rewrite Hy. field. lra.
    - assert (ulp_exp y = ilog2 (Qabs y) - 52)%Z as Hu by (unfold ulp_exp in *; lia).
      destruct (ilog2_spec _ Hpos) as [Hlo _].
      assert (2 ^ (e + 53) <= Qabs y) as Hbig.
      { eapply Qle_trans; [|exact Hlo]. apply pow2_le. lia. }
      rewrite Habs, pow2_plus in Hbig.
      assert (2 ^ 53 <= inject_Z (Z.abs N)) as HN3.
      { apply (Qmult_le_r _ _ (2 ^ e)); [exact Hpe|].
        rewrite (Qmult_comm (2 ^ 53)). exact Hbig. }
      assert (inject_Z (Z.abs N) == 2 ^ 53) as HNeq by lra.
      assert (ilog2 (Qabs y) <= e + 53)%Z as Hup.
      { apply ilog2_upper; [exact Hpos|].
        rewrite Habs, HNeq, (pow2_plus (e + 53) 1), (pow2_plus e 53).
        change (2 ^ 1) with 2. pose proof (pow2_pos 53).
        generalize dependent (2 ^ e). generalize dependent (2 ^ 53). intros. nra. }
      assert (ulp_exp y = e + 1)%Z as Hue by lia.
      rewrite Hue in *.
      assert (Z.abs N = 2 ^ 53)%Z as HNz.
      { apply inject_Z_injective. rewrite HNeq. by rewrite pow2_inject. }
      destruct (Z.abs_eq_or_opp N) as [EN|EN].
      + exists (2 ^ 52)%Z. unfold Qdiv. rewrite pow2_succ, Hy, <- EN, HNz.
        rewrite !pow2_inject by lia.
        assert (2 ^ 53 == 2 * 2 ^ 52) as -> by reflexivity.
        generalize (2 ^ 52). generalize dependent (2 ^ e). intros. field. lra.
      + exists (- 2 ^ 52)%Z. unfold Qdiv. rewrite pow2_succ, Hy.
        assert (N = - 2 ^ 53)%Z as -> by lia.
        rewrite !inject_Z_opp, !pow2_inject by lia.
        assert (2 ^ 53 == 2 * 2 ^ 52) as -> by reflexivity.
        generalize (2 ^ 52). generalize dependent (2 ^ e). intros. field. lra. }
  unfold round_q. rewrite (rne_eq _ M HM), <- HM. field. lra.
Qed.

(** ** [round] on numbers of moderate size *)

Lemma round_of_zero y : y == 0 -> round y = Fin 0.
Proof. intros H. unfold round. apply Qeq_bool_iff in H. by rewrite H. Qed.

Lemma round_of_nonzero y :
  ~ y == 0 -> Qabs (round_q y) < 2 ^ 1024 ->
  round y = Fin (Qred (round_q y)).
Proof.
  intros Hy Hr. unfold round.
  destruct (Qeq_bool y 0) eqn:E; [apply Qeq_bool_iff in E; contradiction|].
  destruct (Qle_bool (2 ^ 1024) (Qabs (round_q y))) eqn:E'; [|done].
  apply Qle_bool_iff in E'. lra.
Qed.

(** Rounding a number below [2^(k+1)]: the result is finite, a mantissa
    of at most 53 bits times a unit [2^e], and at most half that unit
    away; the unit is that of the binade of the number. *)
Lemma round_bound y k :
  Qabs y < 2 ^ (k + 1) -> (-1074 <= k - 52)%Z -> (k <= 1000)%Z ->
  exists r N e,
    round y = Fin r /\ r == inject_Z N * 2 ^ e /\
    (Z.abs N <= 2 ^ 53)%Z /\ (-1074 <= e)%Z /\
    Qabs (r - y) <= (1 # 2) * 2 ^ e /\
    (forall k', Qabs y < 2 ^ (k' + 1) -> (-1074 <= k' - 52)%Z -> (e <= k' - 52)%Z) /\
    (forall k', 2 ^ k' <= Qabs y -> (k' - 52 <= e)%Z).
Proof.
  intros Hk Hmin Hmax.
  destruct (Qeq_dec y 0) as [Hy|Hy].
  - exists 0, 0%Z, (-1074)%Z. rewrite (round_of_zero _ Hy).
    split_and!; try done; try lia.
    + rewrite Hy. change (Qabs (0 - 0)) with 0. pose proof (pow2_pos (-1074)). lra.
    + intros k' Hk'. pose proof (pow2_pos k'). rewrite Hy in Hk'.
      change (Qabs 0) with 0 in Hk'. lra.
  - pose proof (ulp_exp_upper y k Hy Hk Hmin) as He.
    pose proof (ulp_exp_min y) as He'.
    pose proof (round_q_error y) as Herr.
    pose proof (pow2_le _ _ He) as Hle.
    assert (2 ^ (k + 1) <= 2 ^ 1001) as Hk1 by (apply pow2_le; lia).
    assert (2 ^ (k - 52) <= 2 ^ 1001) as Hk2 by (apply pow2_le; lia).
    assert (2 ^ 1001 + 2 ^ 1001 < 2 ^ 1024) as Hbig by reflexivity.
    pose proof (pow2_pos 1001) as Hpos.
    exists (Qred (round_q y)), (rne (y / 2 ^ ulp_exp y)), (ulp_exp y).
    split_and!; try done; try lia.
    + apply round_of_nonzero; [exact Hy|].
      pose proof (Qabs_triangle (round_q y - y) y) as Ht.
      assert (round_q y - y + y == round_q y) as E by ring.
      rewrite E in Ht.
      generalize dependent (2 ^ 1024). generalize dependent (2 ^ 1001).
      generalize dependent (2 ^ (k - 52)). generalize dependent (2 ^ (k + 1)).
      generalize dependent (2 ^ ulp_exp y). intros. lra.
    + apply Qred_correct.
    + by apply round_q_mantissa.
    + by rewrite Qred_correct.
    + intros k' Hk' Hmin'. by apply ulp_exp_upper.
    + intros k' Hk'. by apply ulp_exp_lower.
Qed.

(** A value of the type of moderate size is kept by rounding. *)
Lemma round_exact y N e :
  y == inject_Z N * 2 ^ e ->
  (Z.abs N <= 2 ^ 53)%Z -> (-1074 <= e)%Z -> Qabs y < 2 ^ 1024 ->
  exists r, round y = Fin r /\ r == y.
Proof.
  intros Hy HN He Hb. destruct (Qeq_dec y 0) as [H0|H0].
  - exists 0. split; [by apply round_of_zero|by symmetry].
  - pose proof (round_q_representable y N e Hy HN He) as Hr.
    exists (Qred (round_q y)). split; [|by rewrite Qred_correct].
    apply round_of_nonzero; [exact H0|]. by rewrite Hr.
Qed.

(** ** Truncation *)

Lemma Qtrunc_spec y :
  Qabs (inject_Z (Qtrunc y) - y) < 1 /\ Qabs (inject_Z (Qtrunc y)) <= Qabs y.
Proof.
  unfold Qtrunc. destruct (Qle_bool 0 y) eqn:E.
  - apply Qle_bool_iff in E.
    pose proof (Qfloor_le y) as H1. pose proof (Qlt_floor y) as H2.
    rewrite inject_Z_plus in H2. change (inject_Z 1) with 1 in H2.
    pose proof (Qfloor_resp_le _ _ E) as H0. change (Qfloor 0) with 0%Z in H0.
    rewrite Zle_Qle in H0. change (inject_Z 0) with 0 in H0.
    generalize dependent (inject_Z (Qfloor y)). intros f H1 H2 H0.
    split.
    + apply Qabs_Qlt_condition. lra.
    + rewrite !Qabs_pos by lra. lra.
  - assert (y < 0) as E'.
    { apply Qnot_le_lt. intros H%Qle_bool_iff. congruence. }
    pose proof (Qle_ceiling y) as H1. pose proof (Qceiling_lt y) as H2.
    unfold Z.sub in H2. rewrite inject_Z_plus, inject_Z_opp in H2.
    change (inject_Z 1) with 1 in H2.
    pose proof (Qceiling_resp_le y 0 ltac:(lra)) as H0.
    change (Qceiling 0) with 0%Z in H0.
    rewrite Zle_Qle in H0. change (inject_Z 0) with 0 in H0.
    generalize dependent (inject_Z (Qceiling y)). intros c H1 H2 H0.
    split.
    + apply Qabs_Qlt_condition. lra.
    + rewrite !Qabs_neg by lra. lra.
Qed.

Lemma Qtrunc_integer y n : y == inject_Z n -> Qtrunc y = n.
Proof.
  intros H. unfold Qtrunc. destruct (Qle_bool 0 y).
  - rewrite H. apply Qfloor_Z.
  - rewrite H. apply Qceiling_Z.
Qed.

Lemma Qtrunc_comp y y' : y == y' -> Qtrunc y = Qtrunc y'.
Proof.
  intros H. unfold Qtrunc.
  assert (Qle_bool 0 y = Qle_bool 0 y') as ->.
  { apply eq_true_iff_eq. rewrite !Qle_bool_iff. by rewrite H. }
  destruct (Qle_bool 0 y'); by rewrite H.
Qed.

(** ** The round trip of the clock *)

Lemma of_int64_Second : of_int64 Second = Fin 1000000000.
Proof. vm_compute. reflexivity. Qed.

Lemma Qabs_inject_lt n k :
  (0 <= k)%Z -> Qabs (inject_Z n) < 2 ^ k -> (- 2 ^ k < n < 2 ^ k)%Z.
Proof.
  intros Hk H. rewrite <- inject_Z_abs, <- pow2_inject, <- Zlt_Qlt in H by done. lia.
Qed.

(** The nanoseconds [int64(rel * float64(time.Second))] of a relative
    time of at most 9223372036 seconds: an [int64] that [float64] holds
    exactly, at most half a unit of the product and the fraction away
    from the exact product. *)
Lemma nanoseconds_spec (indef : float64 -> Z) q :
  Qabs q <= 9223372036 ->
  exists p N e d,
    mul (Fin q) (of_int64 Second) = Fin p /\
    p == inject_Z N * 2 ^ e /\ (-1074 <= e)%Z /\
    Qabs (p - q * 1000000000) <= (1 # 2) * 2 ^ e /\
    (forall k', Qabs (q * 1000000000) < 2 ^ (k' + 1) -> (-1074 <= k' - 52)%Z ->
                (e <= k' - 52)%Z) /\
    (forall k', 2 ^ k' <= Qabs (q * 1000000000) -> (k' - 52 <= e)%Z) /\
    to_int64 indef (Fin p) = d /\
    (- 2 ^ 63 < d < 2 ^ 63)%Z /\
    Qabs (inject_Z d - p) < 1 /\
    (0 <= e -> inject_Z d == p)%Z /\
    (exists r, of_int64 d = Fin r /\ r == inject_Z d).
Proof.
  intros Hq. rewrite of_int64_Second. simpl mul.
  assert (Qabs (q * 1000000000) < 2 ^ (62 + 1)) as HP.
  { rewrite Qabs_Qmult. change (Qabs 1000000000) with 1000000000.
    change (2 ^ (62 + 1)) with 9223372036854775808. lra. }
  destruct (round_bound _ 62 HP ltac:(lia) ltac:(lia))
    as (p & N & e & Hround & Hform & HN & He & Herr & Hup & Hlo).
  pose proof (Hup 62%Z HP ltac:(lia)) as He10.
  assert (2 ^ e <= 1024) as Hpe.
  { change 1024 with (2 ^ 10). apply pow2_le. lia. }
  pose proof (pow2_pos e) as Hpe0.
  assert (Qabs p < 2 ^ 63) as Hp.
  { pose proof (Qabs_triangle (p - q * 1000000000) (q * 1000000000)) as Ht.
    assert (p - q * 1000000000 + q * 1000000000 == p) as E by ring.
    rewrite E in Ht. rewrite Qabs_Qmult in *.
    change (Qabs 1000000000) with 1000000000 in *.
    change (2 ^ 63) with 9223372036854775808.
    generalize dependent (2 ^ e). intros. lra. }
  destruct (Qtrunc_spec p) as [Ht1 Ht2].
  set (d := Qtrunc p) in *.
  assert (- 2 ^ 63 < d < 2 ^ 63)%Z as Hd.
  { apply Qabs_inject_lt; [lia|]. lra. }
  assert (to_int64 indef (Fin p) = d) as Hconv.
  { unfold to_int64. fold d.
    assert (in_int64 d = true) as ->; [|done].
    unfold in_int64, int64_min, int64_max.
    apply andb_true_iff. split; apply Z.leb_le; lia. }
  assert ((0 <= e)%Z -> inject_Z d == p) as Hint.
  { intros He0. unfold d.
    rewrite (Qtrunc_integer p (N * 2 ^ e)%Z);
      rewrite inject_Z_mult, pow2_inject by done; by rewrite Hform. }
  assert (exists N' e', inject_Z d == inject_Z N' * 2 ^ e' /\
                        (Z.abs N' <= 2 ^ 53)%Z /\ (-1074 <= e')%Z) as (N' & e' & Hd' & HN' & He').
  { destruct (Z_le_gt_dec 0 e) as [He0|He0].
    - exists N, e. split_and!; try done. by rewrite Hint, Hform.
    - exists d, 0%Z. split_and!; try done; [change (2 ^ 0) with 1; ring|].
      assert (Qabs p <= 2 ^ 52) as Hp52.
      { rewrite Hform, Qabs_Qmult, (Qabs_pos (2 ^ e)), <- inject_Z_abs by lra.
        assert (inject_Z (Z.abs N) <= 2 ^ 53) as HNq.
        { rewrite <- pow2_inject by lia. by rewrite <- Zle_Qle. }
        assert (2 ^ e <= 1 # 2) as Hhalf.
        { change (1 # 2) with (2 ^ (-1)). apply pow2_le. lia. }
        assert (0 <= inject_Z (Z.abs N)) as HN0.
        { change 0 with (inject_Z 0). rewrite <- Zle_Qle. lia. }
        change (2 ^ 53) with 9007199254740992 in HNq.
        change (2 ^ 52) with 4503599627370496.
        generalize dependent (inject_Z (Z.abs N)). generalize dependent (2 ^ e).
        intros. nra. }
      assert (Qabs (inject_Z d) < 2 ^ 53) as Hd53.
      { change (2 ^ 53) with 9007199254740992.
        change (2 ^ 52) with 4503599627370496 in Hp52. lra. }
      apply Qabs_inject_lt in Hd53; lia. }
  exists p, N, e, d. split_and!; try done; try lia.
  apply (round_exact _ N' e' Hd' HN' He').
  assert (Qabs (inject_Z d) < 2 ^ 63) as Hd63 by lra.
  assert (2 ^ 63 < 2 ^ 1024) by reflexivity. lra.
Qed.

(** C3, within the range of [int64] nanoseconds: for a relative time
    that is a finite value of [float64] of at most 9223372036 seconds in
    magnitude, [relativeTime (expandTime x)] is finite and less than a
    microsecond away from [x], whatever the base time and the platform. *)
Theorem C3_round_trip_within_int64_range (indef : float64 -> Z)
    (opts : AcceptanceOpts) q :
  is_binary64 q ->
  Qabs q <= 9223372036 ->
  within (1 # 1000000) (relativeTime opts (expandTime indef opts (Fin q))) (Fin q).
Proof.
  intros Hbin Hq.
  destruct (nanoseconds_spec indef q Hq)
    as (p & N & e & d & Hmul & Hform & He & Herr & Hup & Hlo & Hconv & Hd & Htr
        & Hint & (f & Hof & Hf)).
  unfold expandTime, relativeTime. rewrite Hmul, Hconv.
  assert (Sub (Add (baseTime opts) d) (baseTime opts) = d) as ->.
  { unfold Sub, Add, minDuration, maxDuration, int64_min, int64_max. lia. }
  rewrite Hof, of_int64_Second.
  change (div (Fin f) (Fin 1000000000)) with (round (f / 1000000000)).
  set (v := f / 1000000000).
  assert (v * 1000000000 == inject_Z d) as Hv by (unfold v; rewrite <- Hf; field).
  assert (-9223372036854775808 < inject_Z d < 9223372036854775808) as HdQ.
  { change (-9223372036854775808) with (inject_Z (- 2 ^ 63)).
    change 9223372036854775808 with (inject_Z (2 ^ 63)).
    rewrite <- !Zlt_Qlt. lia. }
  assert (Qabs v < 2 ^ (33 + 1)) as Hv34.
  { change (2 ^ (33 + 1)) with 17179869184. apply Qabs_Qlt_condition.
    generalize dependent (inject_Z d). intros. lra. }
  destruct (round_bound v 33 Hv34 ltac:(lia) ltac:(lia))
    as (r & N3 & e3 & Hr & Hform3 & HN3 & He3 & Herr3 & Hup3 & Hlo3).
  rewrite Hr. change (Qabs (r - q) < 1 # 1000000).
  pose proof (Hup 62%Z) as He10. pose proof (Hup3 33%Z Hv34 ltac:(lia)) as He19.
  pose proof (pow2_pos e) as Hpe. pose proof (pow2_pos e3) as Hpe3.
  apply Qabs_Qle_condition in Herr, Herr3, Hq.
  apply Qabs_Qlt_condition in Htr.
  destruct (Qlt_le_dec 4294967296 (Qabs q)) as [Hbig|Hsmall].
  - (* more than 2^32 seconds: the product is an integer *)
    assert (4294967296 <= Qabs q) as Hbig' by lra.
    assert (9 <= e)%Z as He9.
    { apply (Hlo 61%Z). rewrite Qabs_Qmult.
      change (Qabs 1000000000) with 1000000000.
      change (2 ^ 61) with 2305843009213693952. lra. }
    assert (e <= 10)%Z as He10'.
    { apply He10; [|lia]. change (2 ^ (62 + 1)) with 9223372036854775808.
      apply Qabs_Qlt_condition. lra. }
    assert (2 ^ e <= 1024) as Hpe10 by (change 1024 with (2 ^ 10); by apply pow2_le).
    specialize (Hint ltac:(lia)).
    destruct (Z_le_gt_dec e3 (-20)) as [He20|He20].
    + assert (2 ^ e3 <= 1 # 1048576) as Hpe20
        by (change (1 # 1048576) with (2 ^ (-20)); by apply pow2_le).
      apply Qabs_Qlt_condition.
      generalize dependent (inject_Z d). generalize dependent (2 ^ e).
      generalize dependent (2 ^ e3). intros. lra.
    + assert (e3 = -19)%Z as -> by lia.
      change (2 ^ (-19)) with (1 # 524288) in *.
      (* [q] and the result are on the grid of [2^-20] *)
      destruct Hbin as (q' & Hrq & Hq').
      assert (Qabs q < 2 ^ (33 + 1)) as Hq34.
      { change (2 ^ (33 + 1)) with 17179869184. apply Qabs_Qlt_condition. lra. }
      destruct (round_bound q 33 Hq34 ltac:(lia) ltac:(lia))
        as (r0 & N0 & e0 & Hr0 & Hform0 & _ & _ & _ & _ & Hlo0).
      rewrite Hrq in Hr0. injection Hr0 as <-.
      assert (-20 <= e0)%Z as He0.
      { apply (Hlo0 32%Z). change (2 ^ 32) with 4294967296. exact Hbig'. }
      set (K := (2 * N3 - N0 * 2 ^ (e0 + 20))%Z).
      assert ((r - q) * 1048576 == inject_Z K) as HK.
      { unfold K, Z.sub. rewrite inject_Z_plus, inject_Z_opp, !inject_Z_mult.
        rewrite pow2_inject, pow2_plus by lia.
        change (2 ^ 20) with 1048576. change (inject_Z 2) with 2.
        rewrite Hform3, <- Hq', Hform0. ring. }
      assert (-2 < inject_Z K < 2) as HK2.
      { rewrite <- HK.
        generalize dependent (inject_Z d). generalize dependent (2 ^ e).
        intros. lra. }
      assert (-1 <= K <= 1)%Z as HK1.
      { change (-2) with (inject_Z (-2)) in HK2. change 2 with (inject_Z 2) in HK2.
        rewrite <- !Zlt_Qlt in HK2. lia. }
      assert (-1 <= inject_Z K <= 1) as HKQ.
      { change (-1) with (inject_Z (-1)). change 1 with (inject_Z 1).
        rewrite <- !Zle_Qle. lia. }
      apply Qabs_Qlt_condition. rewrite <- HK in HKQ. lra.
  - (* at most 2^32 seconds *)
    apply Qabs_Qle_condition in Hsmall.
    assert (e <= 9)%Z as He9.
    { apply (Hup 61%Z); [|lia]. change (2 ^ (61 + 1)) with 4611686018427387904.
      apply Qabs_Qlt_condition. lra. }
    assert (2 ^ e <= 512) as Hpe9 by (change 512 with (2 ^ 9); by apply pow2_le).
    assert (e3 <= -20)%Z as He20.
    { apply (Hup3 32%Z); [|lia]. change (2 ^ (32 + 1)) with 8589934592.
      apply Qabs_Qlt_condition.
      generalize dependent (inject_Z d). generalize dependent (2 ^ e). intros. lra. }
    assert (2 ^ e3 <= 1 # 1048576) as Hpe20
      by (change (1 # 1048576) with (2 ^ (-20)); by apply pow2_le).
    apply Qabs_Qlt_condition.
    generalize dependent (inject_Z d). generalize dependent (2 ^ e).
    generalize dependent (2 ^ e3). intros. lra.
Qed.

(** ** Beyond the range of [int64] nanoseconds *)

(** Whatever the platform answers for the conversion of ten billion
    seconds to nanoseconds, which [int64] cannot hold, the way back does
    not give ten billion seconds: an [int64] of nanoseconds is less than
    9.3 billion seconds. *)
Lemma ten_billion_never_round_trips (indef : float64 -> Z) (opts : AcceptanceOpts) :
  ~ within (1 # 1000000)
      (relativeTime opts (expandTime indef opts (Fin 10000000000)))
      (Fin 10000000000).
Proof.
  unfold expandTime, relativeTime. rewrite of_int64_Second.
  change (mul (Fin 10000000000) (Fin 1000000000)) with (Fin 10000000000000000000).
  change (to_int64 indef (Fin 10000000000000000000))
    with (int64_wrap (indef (Fin 10000000000000000000))).
  set (d := int64_wrap (indef (Fin 10000000000000000000))).
  assert (- 2 ^ 63 <= d < 2 ^ 63)%Z as Hd.
  { unfold d, int64_wrap.
    pose proof (Z.mod_pos_bound (indef (Fin 10000000000000000000) + 2 ^ 63)
                  (2 ^ 64) ltac:(lia)). lia. }
  assert (Sub (Add (baseTime opts) d) (baseTime opts) = d) as ->.
  { unfold Sub, Add, minDuration, maxDuration, int64_min, int64_max. lia. }
  assert (-9223372036854775808 <= inject_Z d < 9223372036854775808) as HdQ.
  { change (-9223372036854775808) with (inject_Z (- 2 ^ 63)).
    change 9223372036854775808 with (inject_Z (2 ^ 63)).
    rewrite <- Zlt_Qlt, <- Zle_Qle. lia. }
  assert (Qabs (inject_Z d) < 2 ^ (63 + 1)) as Hd64.
  { change (2 ^ (63 + 1)) with 18446744073709551616. apply Qabs_Qlt_condition.
    generalize dependent (inject_Z d). intros. lra. }
  destruct (round_bound _ 63 Hd64 ltac:(lia) ltac:(lia))
    as (f & N & e & Hf & _ & _ & _ & Herr & Hup & _).
  unfold of_int64 at 1. rewrite Hf.
  change (div (Fin f) (Fin 1000000000)) with (round (f / 1000000000)).
  pose proof (Hup 63%Z Hd64 ltac:(lia)) as He.
  assert (2 ^ e <= 2048) as Hpe by (change 2048 with (2 ^ 11); by apply pow2_le).
  apply Qabs_Qle_condition in Herr.
  set (v := f / 1000000000).
  assert (v * 1000000000 == f) as Hv by (unfold v; field).
  assert (Qabs v < 2 ^ (33 + 1)) as Hv34.
  { change (2 ^ (33 + 1)) with 17179869184. apply Qabs_Qlt_condition.
    pose proof (pow2_pos e).
    generalize dependent (inject_Z d). generalize dependent (2 ^ e). intros. lra. }
  destruct (round_bound v 33 Hv34 ltac:(lia) ltac:(lia))
    as (r & N3 & e3 & Hr & _ & _ & _ & Herr3 & Hup3 & _).
  rewrite Hr. change (~ Qabs (r - 10000000000) < 1 # 1000000).
  pose proof (Hup3 33%Z Hv34 ltac:(lia)) as He3.
  assert (2 ^ e3 <= 1) as Hpe3 by (change 1 with (2 ^ 0); apply pow2_le; lia).
  apply Qabs_Qle_condition in Herr3.
  intros H. apply Qabs_Qlt_condition in H.
  pose proof (pow2_pos e). pose proof (pow2_pos e3).
  generalize dependent (inject_Z d). generalize dependent (2 ^ e).
  generalize dependent (2 ^ e3). intros. lra.
Qed.

End ClockProps.

(** * Properties of the managed instance *)

Module InstanceProps.
Import F64 GoTime Clock GoRt Harness.

Section props.
Context {D : Decls}.
Variable env : Env D.

Local Abbreviation World := (World D).

Ltac go_unfold :=
  unfold UpdateConfig, freeAddress, File_WriteString, load_am, store_am,
    load_silence, load_alert, log_call, syscall_Kill, os_RemoveAll,
    t_Fatal, t_Error, t_Log, time_Now, time_Sleep,
    bind, deref, ret, panic, goexit, get, modify in *.

Lemma signal_with_process am sig (w : World) p :
  process_of am w = Some p ->
  (let* a := load_am am in
   let* c := deref (cmd a) in
   let* p := deref (Process c) in
   syscall_Kill (Pid p) sig)%go w
  = (Ret tt, set_signals (signals w ++ [(Pid p, sig)]) w).
Proof.
  unfold process_of. go_unfold.
  destruct (am_heap w !! am) as [a|]; simpl; [|discriminate].
  destruct (cmd a) as [c|]; simpl; [|discriminate].
  destruct (Process c) as [p'|]; simpl; [|discriminate].
  intros [= ->]. reflexivity.
Qed.

Lemma signal_without_process am sig (w : World) :
  process_of am w = None ->
  (let* a := load_am am in
   let* c := deref (cmd a) in
   let* p := deref (Process c) in
   syscall_Kill (Pid p) sig)%go w
  = (Panic, w).
Proof.
  unfold process_of. go_unfold.
  destruct (am_heap w !! am) as [a|]; simpl; [|reflexivity].
  destruct (cmd a) as [c|]; simpl; [|reflexivity].
  destruct (Process c) as [p'|]; simpl; [discriminate|reflexivity].
Qed.

(** What [Start] does to the store of instances: nothing when it does not
    return, and it sets the process handle of [am] when it does. *)
Lemma Start_heap am (w w' : World) o :
  Start env am w = (o, w') ->
  (o <> Ret tt /\ am_heap w' = am_heap w) \/
  (exists a c pid,
     o = Ret tt /\ am_heap w !! am = Some a /\ cmd a = Some c /\
     Process c = None /\
     am_heap w' =
       <[am := with_cmd (Some (with_Process (Some {| Pid := pid |}) c)) a]>
         (am_heap w)).
Proof.
  unfold Start, Cmd_Start. go_unfold.
  destruct (am_heap w !! am) as [a|] eqn:Ha; simpl;
    [|intros [= <- <-]; left; split; [discriminate|reflexivity]].
  destruct (cmd a) as [c|] eqn:Hc; simpl;
    [|intros [= <- <-]; left; split; [discriminate|reflexivity]].
  destruct (Process c) as [p'|] eqn:Hp; simpl;
    [intros [= <- <-]; left; split; [discriminate|reflexivity]|].
  destruct (exec_Start env w c) as [pid|e]; simpl;
    [|intros [= <- <-]; left; split; [discriminate|reflexivity]].
  intros [= <- <-]. right. exists a, c, pid. simpl. auto.
Qed.

Lemma Start_sets_process am (w w' : World) :
  Start env am w = (Ret tt, w') -> is_Some (process_of am w').
Proof.
  intros H. apply Start_heap in H as [[H _]|(a & c & pid & _ & Ha & _ & _ & Hh)];
    [congruence|].
  unfold process_of. rewrite Hh.
  rewrite list_lookup_insert_eq by (eapply lookup_lt_Some; eauto).
  simpl. eauto.
Qed.

(** A new instance has its command and its configuration file, and no
    process yet. *)
Lemma NewAlertmanager_fresh t conf (w w' : World) t' am :
  NewAlertmanager env t conf w = (Ret (t', am), w') ->
  exists a c f,
    am_heap w' !! am = Some a /\ cmd a = Some c /\ Process c = None /\
    confFile a = Some f /\ ams t' = ams t ++ [am].
Proof.
  unfold NewAlertmanager. go_unfold. simpl.
  destruct (ioutil_TempFile env _) as [name|e]; simpl; [|discriminate].
  rewrite list_lookup_middle by reflexivity. simpl.
  rewrite list_lookup_insert_eq by (rewrite length_app; simpl; lia). simpl.
  destruct (file_write env _ _ _) as [e|]; simpl.
  all: repeat first
    [ rewrite list_lookup_insert_eq by (rewrite ?length_insert, length_app; simpl; lia)
    | rewrite list_insert_insert_eq
    | progress simpl
    | match goal with
      | |- context [match file_sync ?e ?w ?f with _ => _ end] =>
          destruct (file_sync e w f)
      | |- context [match net_Listen ?e ?w with _ => _ end] =>
          destruct (net_Listen e w)
      | |- context [match alertmanager_New ?e ?w ?u with _ => _ end] =>
          destruct (alertmanager_New e w u)
      end ].
  all: try discriminate.
  all: intros [= <- <- <-]; simpl.
  all: rewrite list_lookup_insert_eq by (rewrite ?length_insert, length_app; simpl; lia).
  all: eexists _, _, _; simpl; repeat split; reflexivity.
Qed.

(** C10: [Terminate] and [Reload] read [am.cmd.Process.Pid] without a
    test.  With a process handle they send their signal and return;
    without one they panic and change nothing.  The handle is there once
    [Start] has returned; it is absent on a new instance, and a [Start]
    that does not return leaves it absent. *)
Theorem C10_signals_need_a_started_process t conf am (w : World) :
  (forall p, process_of am w = Some p ->
     Terminate am w = (Ret tt, set_signals (signals w ++ [(Pid p, SIGTERM)]) w) /\
     Reload am w = (Ret tt, set_signals (signals w ++ [(Pid p, SIGHUP)]) w)) /\
  (process_of am w = None ->
     Terminate am w = (Panic, w) /\ Reload am w = (Panic, w)) /\
  (forall w', Start env am w = (Ret tt, w') -> is_Some (process_of am w')) /\
  (forall o w', process_of am w = None -> Start env am w = (o, w') ->
     o <> Ret tt -> process_of am w' = None) /\
  (forall t' w', NewAlertmanager env t conf w = (Ret (t', am), w') ->
     process_of am w' = None).
Proof.
  repeat split.
  - by apply signal_with_process.
  - by apply signal_with_process.
  - by apply signal_without_process.
  - by apply signal_without_process.
  - apply Start_sets_process.
  - intros o w' Hnone HS Ho.
    apply Start_heap in HS as [[_ Hh]|(a & c & pid & -> & _)]; [|congruence].
    unfold process_of in *. by rewrite Hh.
  - intros t' w' HN.
    apply NewAlertmanager_fresh in HN as (a & c & f & Ha & Hc & Hp & _).
    unfold process_of. by rewrite Ha, Hc.
Qed.

(** What a call of [UpdateConfig] that meets no error leaves behind: the
    document is written at the offset of the descriptor, which moves past
    it; no signal is sent and no request is made. *)
Lemma UpdateConfig_writes_at_offset am conf (w : World) a f c :
  am_heap w !! am = Some a ->
  confFile a = Some f ->
  files w !! Name f = Some c ->
  file_write env w f conf = None ->
  exists w',
    UpdateConfig env am conf w = (Ret tt, w') /\
    files w' !! Name f = Some (write_at (offset f) conf c) /\
    (exists a', am_heap w' !! am = Some a' /\
       confFile a' = Some {| Name := Name f; offset := offset f + String.length conf |}) /\
    signals w' = signals w /\ api_calls w' = api_calls w.
Proof.
  intros Ha Hf Hc Hw. go_unfold. rewrite Ha. simpl. rewrite Hf. simpl.
  rewrite Hw, Hc. simpl.
  match goal with |- context [file_sync env ?x ?y] => destruct (file_sync env x y) end;
    simpl; eexists; (split; [reflexivity|]); simpl;
    rewrite lookup_insert_eq;
    rewrite list_lookup_insert_eq by (eapply lookup_lt_Some; eauto);
    (split; [reflexivity|]); (split; [|done]); eexists; split; reflexivity.
Qed.

(** C6: the function that [SetSilence] registers.  When the request
    succeeds the identifier is stored in the silence the caller holds and
    nothing is reported; when it fails the error is reported to the test,
    which is marked as failed, and the silence is left alone. *)
Theorem C6_SetSilence_assigns_on_success_only t am at_ sil (w0 w : World) a to s :
  am_heap w0 !! am = Some a ->
  client a = Some to ->
  silence_heap w !! sil = Some s ->
  let fire := set_silence_action env (opts t) (client a) sil in
  let native := nativeSilence D (opts t) (ID s) (body s) in
  SetSilence env t am at_ sil w0 = (Ret (Do t at_ fire), w0) /\
  (forall sid, api_Set env w to native = Ok sid ->
     exists w',
       fire w = (Ret tt, w') /\
       silence_heap w' !! sil = Some (with_ID sid s) /\
       silence_heap w' = alter (with_ID sid) sil (silence_heap w) /\
       failed w' = failed w /\ output w' = output w) /\
  (forall e, api_Set env w to native = Err e ->
     exists w',
       fire w = (Ret tt, w') /\
       silence_heap w' = silence_heap w /\
       failed w' = true /\ output w' = output w ++ [e]).
Proof.
  intros Ha Hc Hs fire native. subst fire native. repeat split.
  - unfold SetSilence. go_unfold. by rewrite Ha.
  - intros sid Hok. unfold set_silence_action. go_unfold.
    rewrite Hs, Hc. simpl. rewrite Hok. simpl.
    eexists; split; [reflexivity|]. simpl.
    rewrite list_lookup_alter_eq, Hs. done.
  - intros e Herr. unfold set_silence_action. go_unfold.
    rewrite Hs, Hc. simpl. rewrite Herr. simpl.
    eexists; split; [reflexivity|]. done.
Qed.

(** The native alerts of the test alerts behind the pointers [alerts]. *)
Lemma native_alerts_of_store o am alerts (w : World) a tas :
  am_heap w !! am = Some a ->
  Forall2 (fun p ta => alert_heap w !! p = Some ta) alerts tas ->
  map_each alerts (fun p =>
      let* _ := load_am am in
      let* ta := load_alert p in
      ret (nativeAlert D o ta))%go w
  = (Ret (map (nativeAlert D o) tas), w).
Proof.
  intros Ha H. induction H as [|p ta alerts tas Hp _ IH]; [reflexivity|].
  simpl. go_unfold. rewrite Ha. simpl. rewrite Hp. simpl.
  unfold load_am, load_alert, bind, deref, ret in IH. rewrite IH. reflexivity.
Qed.

(** C8: [Push] converts the test alerts when it is called and registers a
    function that holds the converted alerts.  Whatever the store of test
    alerts holds when the function fires, the request carries the alerts
    as they were converted at registration. *)
Theorem C8_Push_submits_what_it_converted t am at_ alerts (w : World) a to tas :
  am_heap w !! am = Some a ->
  client a = Some to ->
  Forall2 (fun p ta => alert_heap w !! p = Some ta) alerts tas ->
  let nas := map (nativeAlert D (opts t)) tas in
  let fire := push_action env (client a) nas in
  Push env t am at_ alerts w = (Ret (Do t at_ fire), w) /\
  (forall (later : World) (mutated : list (TestAlert D)),
     exists w',
       fire (set_alert_heap mutated later) = (Ret tt, w') /\
       api_calls w' = api_calls later ++ [PushCall to nas]).
Proof.
  intros Ha Hc Hal nas fire. subst nas fire. split.
  - unfold Push. unfold bind at 1.
    rewrite (native_alerts_of_store _ _ _ _ _ _ Ha Hal).
    go_unfold. by rewrite Ha.
  - intros later mutated. unfold push_action. go_unfold. rewrite Hc. simpl.
    match goal with |- context [api_Push env ?x ?y ?z] =>
      destruct (api_Push env x y z) end; simpl; eexists; split; reflexivity.
Qed.

End props.
End InstanceProps.

(** * Properties of the action registry *)

Module RegistryProps.
Import F64 GoTime Clock GoRt Harness.

Lemma eqb_sym x y : eqb x y = eqb y x.
Proof.
  destruct x as [a|s|], y as [b|s'|]; simpl; try reflexivity.
  - apply eq_true_iff_eq. rewrite !Qeq_bool_iff. split; intros H; by symmetry.
  - by destruct s, s'.
Qed.

Lemma eqb_same_time x y k : eqb x y = true -> same_time x k = same_time y k.
Proof.
  destruct x as [a|s|], y as [b|s'|]; simpl; try discriminate.
  - intros H%Qeq_bool_iff. destruct k as [c|?|]; simpl; try reflexivity.
    apply eq_true_iff_eq. rewrite !Qeq_bool_iff. by rewrite H.
  - intros H%Bool.eqb_prop. by subst.
Qed.

Lemma same_time_eqb x k : k <> NaN -> same_time x k = eqb x k.
Proof. destruct x, k; simpl; congruence. Qed.

Section registry.
Context {V : Type}.
Implicit Types (m : list (float64 * list V)) (k : float64) (f : V).

Lemma stored_at_cons m k k' v :
  stored_at ((k', v) :: m) k = (if same_time k' k then v else []) ++ stored_at m k.
Proof.
  unfold stored_at. rewrite filter_cons. simpl.
  destruct (same_time k' k); reflexivity.
Qed.

Lemma stored_at_absent m k k' :
  Forall (fun e => eqb k' (fst e) = false) m -> same_time k' k = true ->
  k' <> NaN -> stored_at m k = [].
Proof.
  intros Hall Hk Hn. induction Hall as [|[k1 v1] m H1 _ IH]; [reflexivity|].
  rewrite stored_at_cons, IH, app_nil_r. simpl in H1.
  destruct (same_time k1 k) eqn:E; [|reflexivity].
  exfalso. destruct k' as [a|s|], k1 as [b|s1|], k as [c|s2|];
    simpl in *; try congruence.
  - apply Qeq_bool_iff in Hk, E. apply Qeq_bool_neq in H1. apply H1.
    by rewrite Hk, E.
  - apply Bool.eqb_prop in Hk, E. subst. by rewrite Bool.eqb_reflx in H1.
Qed.

Lemma map_get_absent m k :
  map_get m k = None -> Forall (fun e => eqb (fst e) k = false) m.
Proof.
  induction m as [|[k' v] m IH]; simpl; [constructor|].
  destruct (eqb k' k) eqn:E; [discriminate|]. constructor; auto.
Qed.

Lemma map_set_keys m k v :
  Forall (fun e => eqb (fst e) k = false) m ->
  map_set m k v = m ++ [(k, v)].
Proof.
  induction 1 as [|[k' v'] m H _ IH]; simpl; [reflexivity|].
  simpl in H. by rewrite H, IH.
Qed.

(** One assignment of the form [m[k] = append(m[k], f)]. *)
Lemma append_at_spec m at_ f k :
  distinct_keys m ->
  let m' := map_set m at_ (default [] (map_get m at_) ++ [f]) in
  distinct_keys m' /\
  stored_at m' k = stored_at m k ++ (if same_time at_ k then [f] else []).
Proof.
  induction m as [|[k' v] m IH]; intros Hd; simpl.
  - split; [by split|]. rewrite stored_at_cons. unfold stored_at. simpl.
    by rewrite app_nil_r.
  - destruct Hd as [Hk' Hd]. destruct (eqb k' at_) eqn:E; simpl.
    + split; [by split|]. rewrite !stored_at_cons.
      rewrite <- (eqb_same_time _ _ k E).
      destruct (same_time k' k) eqn:Ek; [|by rewrite app_nil_r].
      rewrite (stored_at_absent m k k' Hk' Ek) by (destruct k'; simpl in E; congruence).
      by rewrite !app_nil_r.
    + destruct (IH Hd) as [Hd' Hs]. split.
      * split; [|exact Hd'].
        destruct (map_get m at_) as [v0|] eqn:Hg; simpl in *.
        -- clear -Hk' E. induction m as [|[k1 v1] m IHm]; simpl.
           ++ constructor; [simpl; exact E|constructor].
           ++ inversion Hk'; subst. destruct (eqb k1 at_); constructor; auto.
        -- rewrite map_set_keys by (by apply map_get_absent).
           apply Forall_app. split; [exact Hk'|]. constructor; [exact E|constructor].
      * rewrite !stored_at_cons, Hs. by rewrite app_assoc.
Qed.

(** Under distinct keys the lookup [m[k]] of a time that is not NaN gives
    all that is stored for it. *)
Lemma map_get_stored_at m k :
  distinct_keys m -> k <> NaN -> default [] (map_get m k) = stored_at m k.
Proof.
  intros Hd Hk. induction m as [|[k' v] m IH]; simpl; [reflexivity|].
  destruct Hd as [Hk' Hd]. rewrite stored_at_cons, same_time_eqb by done.
  destruct (eqb k' k) eqn:E; simpl; [|by apply IH].
  rewrite (stored_at_absent m k k' Hk'), app_nil_r; [done| |].
  - by rewrite same_time_eqb.
  - destruct k'; simpl in E; congruence.
Qed.

End registry.

Section props.
Context {D : Decls}.

Lemma schedule_spec (calls : list (float64 * Action D)) (t : AcceptanceTest D) k :
  distinct_keys (actions t) ->
  distinct_keys (actions (schedule t calls)) /\
  stored_at (actions (schedule t calls)) k
  = stored_at (actions t) k ++ scheduled_at calls k.
Proof.
  revert t. induction calls as [|[at_ f] calls IH]; intros t Hd; simpl.
  - split; [done|]. by rewrite app_nil_r.
  - destruct (append_at_spec (actions t) at_ f k Hd) as [Hd' Hs].
    destruct (IH (Do t at_ f) Hd') as [Hd'' Hs'].
    split; [exact Hd''|]. rewrite Hs'. unfold Do at 1. simpl. rewrite Hs.
    rewrite <- app_assoc. f_equal. unfold scheduled_at. rewrite filter_cons. simpl.
    destruct (same_time at_ k); reflexivity.
Qed.

(** C5: [Do] appends.  After any sequence of calls, what the registry
    holds for a time is what it held before followed by the functions that
    the calls scheduled for that time, in the order of the calls: nothing
    is dropped or replaced.  For a time that is not NaN this is what the
    lookup [t.actions[k]] gives. *)
Theorem C5_Do_accumulates (t : AcceptanceTest D)
    (calls : list (float64 * Action D)) k :
  distinct_keys (actions t) ->
  stored_at (actions (schedule t calls)) k
  = stored_at (actions t) k ++ scheduled_at calls k /\
  (k <> NaN ->
   default [] (map_get (actions (schedule t calls)) k)
   = default [] (map_get (actions t) k) ++ scheduled_at calls k).
Proof.
  intros Hd. destruct (schedule_spec calls t k Hd) as [Hd' Hs].
  split; [exact Hs|]. intros Hk.
  by rewrite !map_get_stored_at.
Qed.

End props.
End RegistryProps.

(** * Properties of [Run] *)

Module RunProps.
Import F64 GoTime Clock GoRt Harness InstanceProps.

Section props.
Context {D : Decls}.
Variable indef : float64 -> Z.
Variable env : Env D.

Local Abbreviation World := (World D).
Local Abbreviation AcceptanceTest := (AcceptanceTest D).

Ltac go_unfold :=
  unfold load_am, store_am, syscall_Kill, os_RemoveAll,
    t_Fatal, t_Error, t_Log, time_Now, time_Sleep,
    bind, deref, ret, panic, goexit, get, modify in *.

(** ** Waiting for the deadline *)

Lemma set_now_same (w : World) : set_now (now w + 0)%Z w = w.
Proof. destruct w; unfold set_now; simpl. f_equal. lia. Qed.

Lemma Sleep_until_past (deadline : Time) (w : World) :
  (deadline <= now w)%Z ->
  (let* n := time_Now in time_Sleep (Sub deadline n))%go w = (Ret tt, w).
Proof.
  intros H. go_unfold. simpl.
  replace (Z.max 0 (Sub deadline (now w))) with 0%Z.
  - by rewrite set_now_same.
  - unfold Sub, minDuration, maxDuration, int64_min, int64_max. lia.
Qed.

Lemma check_loop (cs : list (Collector D)) (w : World) :
  exists w',
    for_each cs (fun coll => let* w := get in t_Log (Collector_check env coll w))%go w
    = (Ret tt, w') /\
    now w' = now w /\ failed w' = failed w /\ am_heap w' = am_heap w /\
    files w' = files w /\ signals w' = signals w /\
    length (output w') = length (output w) + length cs.
Proof.
  revert w. induction cs as [|c cs IH]; intros w; simpl.
  - exists w. repeat split; lia.
  - go_unfold. simpl.
    match goal with |- context [for_each cs ?b ?x] =>
      destruct (IH x) as (w' & HR & Hn & Hf & Ha & Hfs & Hs & Ho) end.
    unfold get, t_Log, bind, modify in HR. rewrite HR.
    exists w'. simpl in *. rewrite length_app in Ho. simpl in Ho.
    repeat split; try assumption; lia.
Qed.

(** ** The largest [latest()] *)

Lemma Qle_bool_false a b : Qle_bool a b = false <-> (b < a)%Q.
Proof.
  rewrite <- not_true_iff_false, Qle_bool_iff. split; intros H.
  - by apply Qnot_le_lt.
  - by apply Qlt_not_le.
Qed.

(** [x > y] is false: when neither is NaN, [x <= y]. *)
Lemma ngt_trans a b c :
  b <> NaN -> gtb a b = false -> gtb b c = false -> gtb a c = false.
Proof.
  destruct a as [x|s|], b as [y|s'|], c as [z|s''|]; simpl; try congruence;
    intros _;
    try (by destruct s); try (by destruct s'); try (by destruct s'');
    try (by destruct s, s'); try (by destruct s, s''); try (by destruct s', s'');
    try (by destruct s, s', s'').
  rewrite !negb_false_iff, !Qle_bool_iff. intros H1 H2. lra.
Qed.

Lemma gtb_asym l acc : gtb l acc = true -> gtb acc l = false.
Proof.
  destruct l as [b|s'|], acc as [c|s''|]; simpl; try congruence;
    try (by destruct s'); try (by destruct s''); try (by destruct s', s'').
  rewrite negb_true_iff, negb_false_iff, Qle_bool_false, Qle_bool_iff. lra.
Qed.

Lemma gtb_irrefl x : gtb x x = false.
Proof.
  destruct x as [a|s|]; simpl; [|by destruct s|done].
  rewrite negb_false_iff, Qle_bool_iff. lra.
Qed.

Lemma gtb_not_NaN l acc : gtb l acc = true -> l <> NaN.
Proof. by destruct l. Qed.

Lemma max_loop_spec (cs : list (Collector D)) (acc : float64) :
  acc <> NaN ->
  let r := fold_left (fun latest coll =>
                        let l := Collector_latest D coll in
                        if gtb l latest then l else latest) cs acc in
  r <> NaN /\ gtb acc r = false /\
  (forall c, c ∈ cs -> gtb (Collector_latest D c) r = false) /\
  (r = acc \/ exists c, c ∈ cs /\ r = Collector_latest D c).
Proof.
  revert acc. induction cs as [|c cs IH]; intros acc Hacc; simpl.
  - split; [exact Hacc|]. split; [apply gtb_irrefl|]. split; [|by left].
    intros c Hc. by apply not_elem_of_nil in Hc.
  - destruct (gtb (Collector_latest D c) acc) eqn:E.
    + destruct (IH _ (gtb_not_NaN _ _ E)) as (Hr & Hle & Hall & Hin).
      split; [exact Hr|]. split; [|split].
      * eapply ngt_trans; [eapply gtb_not_NaN; exact E|by apply gtb_asym|exact Hle].
      * intros c' [->|Hc']%elem_of_cons; [exact Hle|by apply Hall].
      * right. destruct Hin as [Hin|(c' & Hc' & Hin)].
        -- exists c. split; [by left|exact Hin].
        -- exists c'. split; [by right|exact Hin].
    + destruct (IH _ Hacc) as (Hr & Hle & Hall & Hin).
      split; [exact Hr|]. split; [exact Hle|]. split.
      * intros c' [->|Hc']%elem_of_cons; [|by apply Hall].
        eapply ngt_trans; [exact Hacc|exact E|exact Hle].
      * destruct Hin as [Hin|(c' & Hc' & Hin)]; [by left|].
        right. exists c'. split; [by right|exact Hin].
Qed.

(** The value the loop of [Run] leaves in [latest]: not below zero, not
    below the [latest()] of any collector, and zero or one of these. *)
Lemma latest_of_is_greatest (cs : list (Collector D)) :
  gtb zero (latest_of cs) = false /\
  (forall c, c ∈ cs -> gtb (Collector_latest D c) (latest_of cs) = false) /\
  (latest_of cs = zero \/ exists c, c ∈ cs /\ latest_of cs = Collector_latest D c).
Proof.
  destruct (max_loop_spec cs zero) as (_ & H); [discriminate|]. exact H.
Qed.

Lemma to_int64_zero : to_int64 indef (mul zero (of_int64 Second)) = 0%Z.
Proof. reflexivity. Qed.

Lemma set_output_same (w : World) : set_output (output w) w = w.
Proof. by destruct w. Qed.

(** The loop over [coll.check()] logs one report per collector, in the
    order of [t.collectors]; each report is made in the world that holds
    the reports before it, and nothing but the log changes. *)
Lemma check_reports (cs : list (Collector D)) (w : World) :
  exists reports,
    for_each cs (fun coll => let* w := get in t_Log (Collector_check env coll w))%go w
    = (Ret tt, set_output (output w ++ reports) w) /\
    length reports = length cs /\
    forall i c, cs !! i = Some c ->
      reports !! i
      = Some (Collector_check env c (set_output (output w ++ take i reports) w)).
Proof.
  revert w. induction cs as [|c cs IH]; intros w.
  - exists []. simpl. rewrite app_nil_r, set_output_same.
    split_and!; try done.
  - destruct (IH (set_output (output w ++ [Collector_check env c w]) w))
      as (rs & HR & Hl & Hi).
    exists (Collector_check env c w :: rs). split_and!.
    + change (for_each (c :: cs) ?b w) with (for_each cs b
        (set_output (output w ++ [Collector_check env c w]) w)).
      rewrite HR. simpl. by rewrite <- app_assoc.
    + simpl. by rewrite Hl.
    + intros [|i] c' Hc; simpl in *.
      * injection Hc as <-. by rewrite app_nil_r, set_output_same.
      * rewrite (Hi i c' Hc). simpl. by rewrite <- app_assoc.
Qed.

(** The last loop of [Run] returns, or panics on a nil pointer. *)
Lemma log_outputs_outcome (t : AcceptanceTest) (w : World) :
  fst (log_outputs t w) = Ret tt \/ fst (log_outputs t w) = Panic.
Proof.
  unfold log_outputs.
  set (body := fun am : nat => _).
  assert (forall am w', (exists w'', body am w' = (Ret tt, w'')) \/
                        (exists w'', body am w' = (Panic, w''))) as Hbody.
  { intros am w'. unfold body. go_unfold.
    destruct (am_heap w' !! am) as [a|]; simpl; [|right; by eexists].
    destruct (cmd a) as [c|]; simpl; [|right; by eexists].
    left. by eexists. }
  clearbody body. revert w.
  induction (ams t) as [|am l IH]; intros w; simpl; [by left|].
  unfold bind.
  destruct (Hbody am w) as [[w'' ->]|[w'' ->]]; [apply IH|by right].
Qed.

(** C9: when the deadline has passed at the end of [runActions], [Run]
    goes on to the checks at once.  The deadline is the absolute time of
    the value that the loop over [coll.latest()] leaves in [latest]: the
    maximum of zero and the [latest()] of the collectors, which is zero,
    and the deadline the base time, when there is no collector.  When the
    instances were started, [runActions] has returned and the clock is
    at or after the deadline, the pause of [Run] returns without a change
    of the clock or of anything else (a pause that starts before the
    deadline does move the clock, and only the clock); the loop over the
    collectors then returns too, and adds to the log, in the order of
    [t.collectors], the report of [coll.check()] of each collector, made
    when the reports before it are logged; nothing but the log differs,
    so the test is not marked as failed and the clock stands where
    [runActions] left it.  [Run] then is what its last loop and the
    deferred calls make of that world. *)
Theorem C9_past_deadline_is_not_waited_for (t : AcceptanceTest)
    (w0 ws w1 : World) (deferred : list nat) :
  start_all env (ams t) [] w0 = (Ret tt, deferred, ws) ->
  runActions indef t ws = (Ret tt, w1) ->
  (expandTime indef (opts t) (latest_of (collectors t)) <= now w1)%Z ->
  (latest_of (collectors t) <> NaN /\
   gtb zero (latest_of (collectors t)) = false /\
   (forall c, c ∈ collectors t ->
      gtb (Collector_latest D c) (latest_of (collectors t)) = false) /\
   (latest_of (collectors t) = zero \/
    exists c, c ∈ collectors t /\ latest_of (collectors t) = Collector_latest D c) /\
   (collectors t = [] ->
    expandTime indef (opts t) (latest_of (collectors t)) = baseTime (opts t))) /\
  await_deadline indef t w1 = (Ret tt, w1) /\
  (forall w : World,
     (now w < expandTime indef (opts t) (latest_of (collectors t)))%Z ->
     exists n, await_deadline indef t w = (Ret tt, set_now n w) /\ (now w < n)%Z) /\
  exists reports : list string,
    check_collectors env t w1 = (Ret tt, set_output (output w1 ++ reports) w1) /\
    length reports = length (collectors t) /\
    (forall i c, collectors t !! i = Some c ->
       reports !! i
       = Some (Collector_check env c
                 (set_output (output w1 ++ take i reports) w1))) /\
    Run_body indef env t ws
    = log_outputs t (set_output (output w1 ++ reports) w1) /\
    Run indef env t w0
    = run_deferred deferred
        (fst (log_outputs t (set_output (output w1 ++ reports) w1)))
        (snd (log_outputs t (set_output (output w1 ++ reports) w1))).
Proof.
  intros Hstart Hact Hpast.
  assert (await_deadline indef t w1 = (Ret tt, w1)) as Hd.
  { unfold await_deadline. by apply Sleep_until_past. }
  split; [|split; [exact Hd|split]].
  - destruct (max_loop_spec (collectors t) zero) as (Hn & Hz & Hall & Hin);
      [discriminate|].
    split_and!; try done.
    intros ->. change (latest_of (D := D) []) with zero.
    unfold expandTime. rewrite to_int64_zero. unfold Add. lia.
  - intros w Hw. unfold await_deadline. go_unfold. simpl.
    eexists. split; [reflexivity|].
    unfold Sub, minDuration, maxDuration, int64_min, int64_max. lia.
  - destruct (check_reports (collectors t) w1) as (reports & HR & Hl & Hi).
    fold (check_collectors env t) in HR.
    exists reports.
    assert (Run_body indef env t ws
            = log_outputs t (set_output (output w1 ++ reports) w1)) as Hb.
    { unfold Run_body. unfold bind at 1. rewrite Hact.
      unfold bind at 1. rewrite Hd. unfold bind at 1. by rewrite HR. }
    split_and!; try done.
    unfold Run. rewrite Hstart, Hb.
    destruct (log_outputs_outcome t (set_output (output w1 ++ reports) w1)) as [H|H];
      destruct (log_outputs t (set_output (output w1 ++ reports) w1)) as [o w3];
      simpl in *; by subst o.
Qed.

(** ** Starting and tearing down *)

Lemma running_heap am (w w' : World) :
  am_heap w' = am_heap w -> running am w -> running am w'.
Proof. unfold running. by intros ->. Qed.

Lemma Start_step am (w w' : World) o :
  Start env am w = (o, w') ->
  (forall x, built x w -> built x w') /\
  (forall x, running x w -> running x w') /\
  (o = Ret tt -> built am w -> running am w').
Proof.
  intros H. apply Start_heap in H as [[Ho Hh]|(a & c & pid & -> & Ha & Hc & Hp & Hh)].
  - unfold built, running. rewrite Hh. repeat split; try done.
  - assert (am < length (am_heap w)) as Hlt by (eapply lookup_lt_Some; eauto).
    split; [|split].
    + intros x (a0 & f & Hx & Hf). unfold built. rewrite Hh.
      destruct (decide (x = am)) as [->|Hne].
      * rewrite list_lookup_insert_eq by done. rewrite Ha in Hx.
        injection Hx as <-. by eexists _, f.
      * rewrite list_lookup_insert_ne by done. by exists a0, f.
    + intros x (a0 & c0 & p0 & f & Hx & Hc0 & Hp0 & Hf). unfold running. rewrite Hh.
      destruct (decide (x = am)) as [->|Hne].
      * rewrite Ha in Hx. injection Hx as <-. congruence.
      * rewrite list_lookup_insert_ne by done. by exists a0, c0, p0, f.
    + intros _ (a0 & f & Hx & Hf). unfold running. rewrite Hh.
      rewrite list_lookup_insert_eq by done. rewrite Ha in Hx. injection Hx as <-.
      by eexists _, _, _, f.
Qed.

(** The first loop of [Run]: the deferred teardowns are those of the
    instances whose [Start] returned, and these are running. *)
Lemma start_all_spec (l deferred : list nat) (w w1 : World) o deferred' :
  start_all env l deferred w = (o, deferred', w1) ->
  (forall am, am ∈ l -> built am w) ->
  (forall am, am ∈ deferred -> running am w) ->
  (forall am, am ∈ deferred' -> running am w1) /\
  (exists l1 l2, l = l1 ++ l2 /\ deferred' = reverse l1 ++ deferred /\
                 (o = Ret tt -> l2 = [])).
Proof.
  revert deferred w. induction l as [|am l IH]; intros deferred w; simpl.
  - intros [= <- <- <-] _ Hd. split; [exact Hd|]. by exists [], [].
  - destruct (Start env am w) as [o' w'] eqn:HS.
    destruct (Start_step _ _ _ _ HS) as (Hb & Hr & Hnew).
    intros H Hl Hd.
    assert ((o' = Ret tt /\ start_all env l (am :: deferred) w' = (o, deferred', w1)) \/
            (o' <> Ret tt /\ o = o' /\ deferred' = deferred /\ w1 = w')) as [[-> H']|(Ho & -> & -> & ->)].
    { destruct o' as [[]| | | |]; [left; done|right..]; by inversion H. }
    + apply IH in H' as (Hrun & l1 & l2 & -> & -> & Hret).
      * split; [exact Hrun|]. exists (am :: l1), l2.
        rewrite reverse_cons, <- app_assoc. by repeat split.
      * intros x Hx. apply Hb, Hl. by right.
      * intros x [->|Hx]%elem_of_cons; [apply Hnew; [done|apply Hl; by left]|by apply Hr, Hd].
    + split; [intros x Hx; by apply Hr, Hd|].
      exists [], (am :: l). by repeat split.
Qed.

Lemma teardown_running am (w : World) :
  running am w ->
  exists w' p f a c,
    teardown am w = (Ret tt, w') /\
    am_heap w !! am = Some a /\ cmd a = Some c /\ Process c = Some p /\
    confFile a = Some f /\
    am_heap w' = am_heap w /\
    signals w' = signals w ++ [(Pid p, SIGTERM)] /\
    files w' = delete (Name f) (files w).
Proof.
  intros (a & c & p & f & Ha & Hc & Hp & Hf).
  unfold teardown, Terminate, cleanup. go_unfold. simpl.
  rewrite Ha. simpl. rewrite Hc. simpl. rewrite Hp. simpl. rewrite Ha. simpl.
  rewrite Hf. simpl. eexists _, p, f, a, c. by repeat split.
Qed.

(** The deferred calls of running instances all return; each of them
    leaves its instance torn down, and nothing later undoes that. *)
Lemma run_deferred_spec (deferred : list nat) o (w : World) :
  (forall am, am ∈ deferred -> running am w) ->
  exists w',
    run_deferred deferred o w = (o, w') /\
    am_heap w' = am_heap w /\
    (forall x, x ∈ signals w -> x ∈ signals w') /\
    (forall n, files w !! n = None -> files w' !! n = None) /\
    (forall am, am ∈ deferred -> torn_down am w').
Proof.
  revert w. induction deferred as [|am rest IH]; intros w Hrun; simpl.
  - exists w. repeat split; try done. intros am H. by apply not_elem_of_nil in H.
  - destruct (teardown_running am w) as (w1 & p & f & a & c & HT & Ha & Hc & Hp & Hf & Hh & Hs & Hfs);
      [apply Hrun; by left|].
    rewrite HT.
    destruct (IH w1) as (w' & HR & Hh' & Hs' & Hfs' & Htd).
    { intros x Hx. eapply running_heap; [exact Hh|]. apply Hrun. by right. }
    exists w'. split; [exact HR|]. split; [congruence|]. split; [|split].
    + intros x Hx. apply Hs'. rewrite Hs. apply elem_of_app. by left.
    + intros n Hn. apply Hfs'. rewrite Hfs. apply lookup_delete_None. by right.
    + intros x [->|Hx]%elem_of_cons; [|by apply Htd].
      exists a, c, p, f. rewrite Hh', Hh. repeat split; try done.
      * apply Hs'. rewrite Hs. apply elem_of_app. right. by left.
      * apply Hfs'. rewrite Hfs. apply lookup_delete_eq.
Qed.

(** ** The body of [Run] leaves the instances alone *)

Lemma insert_by_time_elem (g x : Time * Action D) l :
  x ∈ insert_by_time g l -> x = g \/ x ∈ l.
Proof.
  induction l as [|g' l IH]; simpl.
  - intros ->%list_elem_of_singleton. by left.
  - destruct (fst g <? fst g')%Z.
    + intros [->|H]%elem_of_cons; [by left|by right].
    + intros [->|H]%elem_of_cons; [right; by left|].
      destruct (IH H) as [->|H']; [by left|right; by right].
Qed.

Lemma by_time_elem (x : Time * Action D) l : x ∈ by_time l -> x ∈ l.
Proof.
  unfold by_time. intros H. apply elem_of_reverse. revert H.
  induction (reverse l) as [|g l' IH]; simpl; [done|].
  intros [->|H]%insert_by_time_elem; [by left|right; by apply IH].
Qed.

Lemma goroutines_elem (t : AcceptanceTest) (x : Time * Action D) :
  x ∈ goroutines indef t ->
  exists k fs, (k, fs) ∈ actions t /\ snd x ∈ fs.
Proof.
  unfold goroutines. intros H. apply list_elem_of_In in H.
  apply in_flat_map in H as ([k fs] & Hin & Hx).
  apply in_map_iff in Hx as (f & <- & Hf).
  exists k, fs. split; by apply list_elem_of_In.
Qed.


Lemma for_each_heap {A} (l : list A) (body : A -> M World unit) :
  (forall x u, am_heap (snd (body x u)) = am_heap u) ->
  forall w, am_heap (snd (for_each l body w)) = am_heap w.
Proof.
  intros Hbody. induction l as [|x l IH]; intros w; simpl; [done|].
  unfold bind. specialize (Hbody x w).
  destruct (body x w) as [o w1]. simpl in Hbody.
  destruct o; simpl; rewrite ?IH; exact Hbody.
Qed.

Lemma log_outputs_heap (t : AcceptanceTest) (w : World) :
  am_heap (snd (log_outputs t w)) = am_heap w.
Proof.
  unfold log_outputs. apply for_each_heap. intros am u. go_unfold.
  destruct (am_heap u !! am) as [a|]; simpl; [|done].
  destruct (cmd a) as [c|]; simpl; done.
Qed.






End props.
End RunProps.

(** * Properties of the collector *)

Module CollectorProps.
Import CollectorModel.

Section props.
Context {A : Type} `{EqDecision A}.
Implicit Types (e : Expectation (A := A)) (o : Observation (A := A)).
Implicit Types (es l : list (Expectation (A := A))).
Implicit Types (pool obs : list (Observation (A := A))).






End props.

End CollectorProps.

(** * Properties of the goroutines of [runActions] *)

Module ConcurrentProps.
Import F64 GoTime Clock Concurrent.

Section props.
Context {F : Type}.
Variable indef : float64 -> Z.
Variable opts : AcceptanceOpts.

Local Abbreviation state := (state (F := F)).
Local Abbreviation goroutine := (goroutine (F := F)).
Local Abbreviation step := (step (F := F) indef opts).
Local Abbreviation quiet_step := (quiet_step (F := F) indef opts).
Local Abbreviation reachable := (reachable (F := F) indef opts).
Local Abbreviation good := (good (F := F) indef opts).
Local Abbreviation invariant := (invariant (F := F) indef opts).

Implicit Types (g : goroutine) (l : list goroutine) (s : state).
Implicit Types (registry : list (float64 * list F)).

(** ** Counting the goroutines *)

Lemma live_app l g : live (l ++ [g]) = (live l + weight g)%Z.
Proof. induction l as [|g' l IH]; simpl; unfold weight; [lia|]. rewrite IH. unfold weight. lia. Qed.

Lemma live_insert l i g g' :
  l !! i = Some g -> live (<[i := g']> l) = (live l - weight g + weight g')%Z.
Proof.
  revert i. induction l as [|g0 l IH]; intros i; [done|].
  destruct i as [|i]; simpl.
  - intros [= ->]. unfold weight. lia.
  - intros H. rewrite (IH i H). lia.
Qed.

Lemma live_nonneg l : (0 <= live l)%Z.
Proof. induction l as [|g l IH]; simpl; [lia|]. destruct (is_done g); lia. Qed.

Lemma live_zero l : live l = 0%Z -> Forall (fun g => g_pc g = GDone) l.
Proof.
  induction l as [|g l IH]; simpl; [constructor|].
  pose proof (live_nonneg l). unfold is_done.
  destruct (g_pc g) eqn:E; intros H'; try lia.
  constructor; [done|]. apply IH. lia.
Qed.

Lemma keys_insert (l : list goroutine) i g g' :
  l !! i = Some g -> g_at g' = g_at g -> g_f g' = g_f g ->
  map (fun g => (g_at g, g_f g)) (<[i := g']> l) = map (fun g => (g_at g, g_f g)) l.
Proof.
  revert i. induction l as [|g0 l IH]; intros i; [done|].
  destruct i as [|i]; simpl.
  - intros [= ->] -> ->. done.
  - intros H H1 H2. by rewrite (IH i H).
Qed.

Lemma good_later n n' g : (n <= n')%Z -> good n g -> good n' g.
Proof.
  intros Hn [Hts H]. split; [exact Hts|].
  destruct (g_pc g); try exact H.
  - destruct H as (? & ? & ?). repeat split; try done; lia.
  - destruct H as (? & ? & ?). repeat split; try done; lia.
  - destruct H as ((ti & ? & ?) & ?). split; [|done]. exists ti. split; [done|lia].
  - destruct H as (? & tc & ? & ?). split; [done|]. exists tc. split; [done|lia].
  - destruct H as (? & tc & ? & ?). split; [done|]. exists tc. split; [done|lia].
Qed.

(** ** The range of the conversion *)

Lemma to_int64_range x : (int64_min <= to_int64 indef x <= int64_max)%Z.
Proof.
  assert (forall z, int64_min <= int64_wrap z <= int64_max)%Z as Hw.
  { intros z. unfold int64_wrap, int64_min, int64_max.
    pose proof (Z.mod_pos_bound (z + 2 ^ 63) (2 ^ 64) ltac:(lia)). lia. }
  unfold to_int64. destruct x as [q| |]; try apply Hw.
  destruct (in_int64 (Qtrunc q)) eqn:E; [|apply Hw].
  unfold in_int64 in E. apply andb_true_iff in E as [H1 H2].
  apply Z.leb_le in H1, H2. lia.
Qed.

(** A pause computed from a reading [n] of the clock that is not before
    the base time ends no earlier than [ts]. *)
Lemma pause_reaches_ts at_ n now_ :
  (baseTime opts <= n <= now_)%Z ->
  (expandTime indef opts at_
   <= now_ + Z.max 0 (Sub (expandTime indef opts at_) n))%Z.
Proof.
  intros Hn. unfold expandTime, Add, Sub, minDuration, maxDuration.
  pose proof (to_int64_range (mul at_ (of_int64 Second))). lia.
Qed.

(** ** The invariant holds in every state of a run *)

Lemma invariant_init registry n :
  (baseTime opts <= n)%Z -> invariant registry (init n registry).
Proof.
  intros H. split; simpl; done.
Qed.

(** A goroutine that has not called [wg.Done()] moves on. *)
Lemma invariant_update registry s i g g' wg' :
  invariant registry s ->
  gs s !! i = Some g ->
  g_pc g <> GDone ->
  g_at g' = g_at g -> g_f g' = g_f g ->
  good (clock s) g' ->
  wg' = (wg s - 1 + weight g')%Z ->
  invariant registry
    {| clock := clock s; wg := wg'; main := main s; gs := <[i := g']> (gs s) |}.
Proof.
  intros [Hb Hg Hw Ha Ht Hr] Hi Hpc Hat Hf Hgood ->.
  assert (weight g = 1%Z) as Hwg.
  { unfold weight, is_done. by destruct (g_pc g). }
  split; simpl.
  - exact Hb.
  - by apply Forall_insert.
  - rewrite (live_insert _ _ _ _ Hi), Hw, Hwg. lia.
  - by rewrite (keys_insert _ _ _ _ Hi Hat Hf).
  - exact Ht.
  - unfold returned_ok in *. simpl. destruct (main s); try done.
    destruct Hr as [_ Hall]. exfalso. apply Hpc.
    by destruct (proj1 (Forall_lookup _ _) Hall i g Hi).
Qed.

Lemma invariant_step registry s s' :
  invariant registry s -> step s s' -> invariant registry s'.
Proof.
  intros Hinv Hstep.
  destruct Hstep as
    [s d Hd | s at_ fs rest Hm | s at_ ts f fs rest Hm | s at_ ts rest Hm
    | s Hm | s Hm Hz
    | s i g Hi Hpc | s i g n Hi Hpc | s i g wake Hi Hpc Hwk
    | s i g Hi Hpc | s i g Hi Hpc | s i g Hi Hpc].
  - (* time passes *)
    destruct Hinv as [Hb Hg Hw Ha Ht Hr]. split; simpl; try done.
    + lia.
    + eapply Forall_impl; [exact Hg|]. intros g. apply good_later. lia.
    + unfold returned_ok in *. simpl. destruct (main s); try done.
      destruct Hr as [? ?]. split; [lia|done].
  - (* the next entry: [wg.Add(len(fs))] *)
    destruct Hinv as [Hb Hg Hw Ha Ht Hr]. split; simpl; try done.
    + rewrite Hw, Hm. simpl. lia.
    + rewrite Hm in Ha. exact Ha.
  - (* [go] *)
    destruct Hinv as [Hb Hg Hw Ha Ht Hr].
    unfold go_ts_ok in Ht. rewrite Hm in Ht.
    split; simpl; try done.
    + apply Forall_app. split; [exact Hg|]. constructor; [|constructor].
      split; simpl; done.
    + rewrite live_app, Hw, Hm. unfold weight. simpl. lia.
    + rewrite Hm in Ha. simpl in Ha. rewrite map_app. simpl.
      rewrite <- app_assoc. exact Ha.
  - (* the end of an entry *)
    destruct Hinv as [Hb Hg Hw Ha Ht Hr]. split; simpl; try done.
    + rewrite Hw, Hm. simpl. lia.
    + rewrite Hm in Ha. exact Ha.
  - (* [wg.Wait()] is called *)
    destruct Hinv as [Hb Hg Hw Ha Ht Hr]. split; simpl; try done.
    + rewrite Hw, Hm. simpl. lia.
    + rewrite Hm in Ha. exact Ha.
  - (* [wg.Wait()] returns *)
    destruct Hinv as [Hb Hg Hw Ha Ht Hr]. split; simpl; try done.
    + rewrite Hw, Hm. simpl. lia.
    + rewrite Hm in Ha. exact Ha.
    + unfold returned_ok. simpl. split; [lia|].
      rewrite Hw, Hm in Hz. simpl in Hz.
      assert (live (gs s) = 0%Z) as Hl by lia.
      apply live_zero in Hl.
      apply Forall_forall. intros g Hin.
      pose proof (proj1 (Forall_forall _ _) Hl g Hin) as Hd.
      pose proof (proj1 (Forall_forall _ _) Hg g Hin) as [_ Hgd].
      rewrite Hd in Hgd. destruct Hgd as [_ Hc]. by split.
  - (* [time.Now()] *)
    pose proof (proj1 (Forall_lookup _ _) (inv_good _ _ _ _ Hinv) i g Hi) as [Hts Hgd].
    rewrite Hpc in Hgd. destruct Hgd as [Hi0 Hc0].
    eapply invariant_update; eauto; [congruence| |unfold weight; simpl; lia].
    split; simpl; [done|]. pose proof (inv_base _ _ _ _ Hinv). repeat split; try done; lia.
  - (* [time.Sleep] is called *)
    pose proof (proj1 (Forall_lookup _ _) (inv_good _ _ _ _ Hinv) i g Hi) as [Hts Hgd].
    rewrite Hpc in Hgd. destruct Hgd as (Hn & Hi0 & Hc0).
    eapply invariant_update; eauto; [congruence| |unfold weight; simpl; lia].
    split; simpl; [done|]. repeat split; try done.
    rewrite Hts. by apply pause_reaches_ts.
  - (* [time.Sleep] returns *)
    pose proof (proj1 (Forall_lookup _ _) (inv_good _ _ _ _ Hinv) i g Hi) as [Hts Hgd].
    rewrite Hpc in Hgd. destruct Hgd as (Hn & Hi0 & Hc0).
    eapply invariant_update; eauto; [congruence| |unfold weight; simpl; lia].
    split; simpl; [done|]. repeat split; try done. lia.
  - (* [f()] is called *)
    pose proof (proj1 (Forall_lookup _ _) (inv_good _ _ _ _ Hinv) i g Hi) as [Hts Hgd].
    rewrite Hpc in Hgd. destruct Hgd as (Hn & Hi0 & Hc0).
    eapply invariant_update; eauto; [congruence| |unfold weight; simpl; lia].
    split; simpl; [done|]. split; [|done]. exists (clock s). split; [done|lia].
  - (* [f()] returns *)
    pose proof (proj1 (Forall_lookup _ _) (inv_good _ _ _ _ Hinv) i g Hi) as [Hts Hgd].
    rewrite Hpc in Hgd. destruct Hgd as ((ti & Hti & Hle) & Hc0).
    eapply invariant_update; eauto; [congruence| |unfold weight; simpl; lia].
    split; simpl; [done|]. split.
    + exists ti. split; [done|lia].
    + exists (clock s). split; [done|lia].
  - (* [wg.Done()] *)
    pose proof (proj1 (Forall_lookup _ _) (inv_good _ _ _ _ Hinv) i g Hi) as [Hts Hgd].
    rewrite Hpc in Hgd.
    eapply invariant_update; eauto; [congruence| |unfold weight; simpl; lia].
    split; simpl; done.
Qed.

Lemma invariant_reachable registry n s :
  (baseTime opts <= n)%Z -> reachable n registry s -> invariant registry s.
Proof.
  intros Hn Hr. unfold reachable in Hr.
  eapply (rtc_ind_r (fun s => invariant registry s)); [| |exact Hr].
  - by apply invariant_init.
  - intros y z _ Hstep IH. by eapply invariant_step.
Qed.

(** A goroutine whose time has come calls its function without waiting. *)
Lemma past_time_fires_at_once s i g :
  gs s !! i = Some g -> g_pc g = GStart -> (g_ts g <= clock s)%Z ->
  exists s',
    rtc quiet_step s s' /\ clock s' = clock s /\
    gs s' !! i = Some (call_at (clock s) g).
Proof.
  intros Hi Hpc Hts.
  assert (i < length (gs s)) as Hlt by (eapply lookup_lt_Some; eauto).
  set (g1 := set_pc (GGotNow (clock s)) g).
  set (s1 := with_g i g1 s).
  set (g2 := set_pc (GSleeping (clock s1 + Z.max 0 (Sub (g_ts g1) (clock s)))%Z) g1).
  set (s2 := with_g i g2 s1).
  set (g3 := set_pc GWoken g2).
  set (s3 := with_g i g3 s2).
  set (s4 := with_g i (call_at (clock s3) g3) s3).
  assert (gs s1 !! i = Some g1) as H1
    by (simpl; by rewrite list_lookup_insert_eq).
  assert (gs s2 !! i = Some g2) as H2
    by (simpl; rewrite list_lookup_insert_eq; [done|by rewrite length_insert]).
  assert (gs s3 !! i = Some g3) as H3
    by (simpl; rewrite list_lookup_insert_eq; [done|by rewrite !length_insert]).
  exists s4. split; [|split].
  - eapply rtc_l; [split; [exact (step_now indef opts s i g Hi Hpc)|done]|].
    eapply rtc_l; [split; [exact (step_sleep indef opts s1 i g1 (clock s) H1 eq_refl)|done]|].
    eapply rtc_l; [split; [apply (step_wake indef opts s2 i g2 _ H2 eq_refl)|done]|].
    { simpl. unfold Sub, minDuration, maxDuration, int64_min, int64_max. lia. }
    eapply rtc_l; [split; [exact (step_call indef opts s3 i g3 H3 eq_refl)|done]|].
    apply rtc_refl.
  - done.
  - simpl. rewrite list_lookup_insert_eq by (by rewrite !length_insert). done.
Qed.

(** C4: in every state of a run of [runActions] that starts at or after
    the base time, a function that was called was called at or after the
    absolute time [expandTime] gives for the time it was scheduled at;
    once [runActions] has returned, every function of the registry has a
    goroutine, was called, and returned no later than [runActions] did.
    A goroutine that finds its time already past calls its function
    without any time passing; nothing in the program is an error for
    being late. *)
Theorem C4_no_early_call_no_early_return registry n s :
  (baseTime opts <= n)%Z ->
  reachable n registry s ->
  (forall g ti, g ∈ gs s -> g_invoked g = Some ti ->
     (expandTime indef opts (g_at g) <= ti)%Z) /\
  (forall tr, main s = MReturned tr ->
     map (fun g => (g_at g, g_f g)) (gs s) = flatten registry /\
     forall g, g ∈ gs s ->
       exists ti tc, g_invoked g = Some ti /\ g_completed g = Some tc /\
                     (tc <= tr)%Z) /\
  (forall i g, gs s !! i = Some g -> g_pc g = GStart ->
     (expandTime indef opts (g_at g) <= clock s)%Z ->
     exists s', rtc quiet_step s s' /\ clock s' = clock s /\
                gs s' !! i = Some (call_at (clock s) g)).
Proof.
  intros Hn Hr. pose proof (invariant_reachable registry n s Hn Hr) as Hinv.
  destruct Hinv as [Hb Hg Hw Ha Ht Hret]. split; [|split].
  - intros g ti Hin Hinv.
    pose proof (proj1 (Forall_forall _ _) Hg g Hin) as [Hts Hgd].
    rewrite <- Hts. destruct (g_pc g).
    1-4: intuition congruence.
    + destruct Hgd as ((ti' & Hi' & Hle) & _). rewrite Hinv in Hi'.
      injection Hi' as <-. lia.
    + destruct Hgd as ((ti' & Hi' & Hle) & _). rewrite Hinv in Hi'.
      injection Hi' as <-. lia.
    + destruct Hgd as ((ti' & Hi' & Hle) & _). rewrite Hinv in Hi'.
      injection Hi' as <-. lia.
  - intros tr Hm. unfold returned_ok in Hret. rewrite Hm in Hret, Ha.
    simpl in Ha. rewrite app_nil_r in Ha. split; [exact Ha|].
    destruct Hret as [_ Hall]. intros g Hin.
    pose proof (proj1 (Forall_forall _ _) Hall g Hin) as (Hd & tc & Hc & Hle).
    pose proof (proj1 (Forall_forall _ _) Hg g Hin) as [_ Hgd].
    rewrite Hd in Hgd. destruct Hgd as ((ti & Hti & _) & _).
    by exists ti, tc.
  - intros i g Hi Hpc Hts. apply past_time_fires_at_once; try done.
    pose proof (proj1 (Forall_lookup _ _) Hg i g Hi) as [Hts' _]. by rewrite Hts'.
Qed.

End props.

End ConcurrentProps.

(** * The virtual clock on concrete times *)

Module ClockRuns.
Import F64 GoTime Clock ClockProps ClockSample.
Local Open Scope Q_scope.

Example tenth_is_rounded : round (1 # 10) = Fin tenth.
Proof. vm_compute. reflexivity. Qed.

(** A tenth of a second comes back as it is. *)
Example tenth_round_trip :
  expandTime indef_amd64 opts2015 (Fin tenth) = 1446000000100000000%Z /\
  relativeTime opts2015 (expandTime indef_amd64 opts2015 (Fin tenth)) = Fin tenth.
Proof. vm_compute. split; reflexivity. Qed.

(** The nanoseconds below the last one are cut off: 1234567.891234567891
    seconds come back two units in the last place smaller. *)
Example cut_off_below_the_nanosecond :
  round (1234567891234567891 # 1000000000000) = Fin (2651214358772077 # 2147483648) /\
  relativeTime opts2015
    (expandTime indef_amd64 opts2015 (Fin (2651214358772077 # 2147483648)))
  = Fin (2651214358772075 # 2147483648).
Proof. vm_compute. split; reflexivity. Qed.

(** C3, as the claim has it, fails: ten billion seconds are a finite
    [float64], their nanoseconds do not fit [int64], and on amd64 the way
    back gives about minus 9.2 billion seconds.  No other platform can do
    better ([ten_billion_never_round_trips]). *)
Lemma C3_ten_billion_seconds_do_not_round_trip :
  is_binary64 10000000000 /\
  relativeTime opts2015 (expandTime indef_amd64 opts2015 (Fin 10000000000))
  = Fin (-4835703278458517 # 524288) /\
  ~ within (1 # 1000000)
      (relativeTime opts2015 (expandTime indef_amd64 opts2015 (Fin 10000000000)))
      (Fin 10000000000).
Proof.
  split; [|split].
  - exists 10000000000. split; [vm_compute; reflexivity|reflexivity].
  - vm_compute. reflexivity.
  - apply ten_billion_never_round_trips.
Qed.

Lemma C3_witness :
  within (1 # 1000000)
    (relativeTime opts2015 (expandTime indef_amd64 opts2015 (Fin tenth)))
    (Fin tenth).
Proof.
  apply (C3_round_trip_within_int64_range indef_amd64 opts2015 tenth).
  - exists tenth. split; [vm_compute; reflexivity|reflexivity].
  - vm_compute. discriminate.
Defined.

End ClockRuns.

(** * The rounding model against the binary64 of the kernel *)

Module F64Check.
Import F64 Floats Uint63 KernelFloat.
Local Open Scope Q_scope.

Example tenth_agrees : of_prim 0x1.999999999999ap-4 = F64.round (1 # 10).
Proof. vm_compute. reflexivity. Qed.

Example mul_agrees_tenth :
  of_prim (0x1.999999999999ap-4 * 1e9)
  = F64.mul (of_prim 0x1.999999999999ap-4) (of_prim 1e9).
Proof. vm_compute. reflexivity. Qed.

Example mul_agrees_inexact :
  of_prim (0x1.2d687e427f2dap+20 * 1e9)
  = F64.mul (of_prim 0x1.2d687e427f2dap+20) (of_prim 1e9).
Proof. vm_compute. reflexivity. Qed.

Example mul_agrees_large :
  of_prim (0x1.fffffffffffffp+33 * 1e9)
  = F64.mul (of_prim 0x1.fffffffffffffp+33) (of_prim 1e9).
Proof. vm_compute. reflexivity. Qed.

Example mul_agrees_overflow :
  of_prim (0x1.7e43c8800759cp+996 * 0x1.7e43c8800759cp+996)
  = F64.mul (of_prim 0x1.7e43c8800759cp+996) (of_prim 0x1.7e43c8800759cp+996).
Proof. vm_compute. reflexivity. Qed.

Example mul_agrees_subnormal :
  of_prim (0x1.56e1fc2f8f359p-997 * 0x1.3p-70)
  = F64.mul (of_prim 0x1.56e1fc2f8f359p-997) (of_prim 0x1.3p-70).
Proof. vm_compute. reflexivity. Qed.

Example mul_agrees_underflow :
  of_prim (0x1.56e1fc2f8f359p-997 * 0x1.3p-80)
  = F64.mul (of_prim 0x1.56e1fc2f8f359p-997) (of_prim 0x1.3p-80).
Proof. vm_compute. reflexivity. Qed.

Example div_agrees_exact :
  of_prim (100000000 / 1e9) = F64.div (of_prim 100000000) (of_prim 1e9).
Proof. vm_compute. reflexivity. Qed.

Example div_agrees_inexact :
  of_prim (1234567891234567 / 1e9)
  = F64.div (of_prim 1234567891234567) (of_prim 1e9).
Proof. vm_compute. reflexivity. Qed.

Example div_agrees_tie :
  of_prim (9223372036854775808 / 1e9)
  = F64.div (of_int64 9223372036854775807) (of_prim 1e9).
Proof. vm_compute. reflexivity. Qed.

Example of_int64_agrees :
  of_prim (PrimFloat.of_uint63 9223372036854775807%uint63)
  = of_int64 9223372036854775807.
Proof. vm_compute. reflexivity. Qed.

End F64Check.

(** * The instance operations on a concrete run *)

Module InstanceRuns.
Import F64 GoTime Clock GoRt Harness Sample InstanceProps.

(** C2 (the code against its comment): "UpdateConfig rewrites the
    configuration file".  An instance is made with the document "a", which
    its file then holds; [UpdateConfig("b")] returns without reporting an
    error, and the file holds "ab", not "b": the second document went
    behind the first one.  No signal was sent and no request was made. *)
Theorem C2_second_UpdateConfig_appends :
  let w := snd one_instance in
  let w' := snd (UpdateConfig env_ok 0 "b" w) in
  ams (fst one_instance) = [0] /\
  files w !! "/tmp/am_config1"%string = Some "a"%string /\
  fst (UpdateConfig env_ok 0 "b" w) = Ret tt /\
  files w' !! "/tmp/am_config1"%string = Some "ab"%string /\
  failed w' = false /\
  signals w' = [] /\ api_calls w' = [].
Proof. vm_compute. repeat split; reflexivity. Qed.

Lemma C6_witness :
  exists w',
    set_silence_action env_ok (opts (fst one_instance))
      (Some "http://[::]:40001"%string) 0 (snd one_instance) = (Ret tt, w') /\
    silence_heap w' !! 0 = Some (@Build_TestSilence decls "id-quiet" "quiet")%string.
Proof.
  pose proof (C6_SetSilence_assigns_on_success_only env_ok (fst one_instance)
                0 (Fin 1) 0 (snd one_instance) (snd one_instance)) as H.
  edestruct H as (_ & Hok & _);
    [vm_compute; reflexivity | vm_compute; reflexivity | vm_compute; reflexivity |].
  destruct (Hok "id-quiet"%string) as (w' & H1 & H2 & _); [vm_compute; reflexivity|].
  exists w'. split; [exact H1 | exact H2].
Defined.

Lemma C8_witness :
  exists w',
    push_action env_ok (Some "http://[::]:40001"%string)
      ["alert-a"; "alert-b"]%string
      (set_alert_heap (["changed"; "changed"]%string : list (TestAlert decls))
         (snd one_instance))
    = (Ret tt, w') /\
    api_calls w' =
      [PushCall "http://[::]:40001"%string
         (["alert-a"; "alert-b"]%string : list (Alert decls))].
Proof.
  pose proof (C8_Push_submits_what_it_converted env_ok (fst one_instance)
                0 (Fin 1) [0; 1] (snd one_instance)) as H.
  edestruct H as (_ & Hfire);
    [vm_compute; reflexivity | vm_compute; reflexivity
    | repeat constructor | ].
  destruct (Hfire (snd one_instance) ["changed"; "changed"]%string)
    as (w' & H1 & H2).
  exists w'. split; [exact H1 | exact H2].
Defined.

End InstanceRuns.

(** * [Run] and the registry on concrete tests *)

Module TestRuns.
Import F64 GoTime Clock GoRt Harness Sample RegistryProps RunProps.


(** With three instances of which the second fails to start, the first one
    is torn down; the files of the other two stay. *)
Lemma second_fails_run :
  let r := Run indef_amd64 env_second_fails (fst second_fails) (snd second_fails) in
  fst r = Goexit /\
  signals (snd r) = [(1000%Z, SIGTERM)] /\
  files (snd r) !! "/tmp/am_config1"%string = None /\
  files (snd r) !! "/tmp/am_config2"%string = Some "b"%string /\
  files (snd r) !! "/tmp/am_config3"%string = Some "c"%string.
Proof. vm_compute. repeat split; reflexivity. Qed.


Lemma C9_witness :
  (latest_of (collectors late_test) <> NaN /\
   gtb zero (latest_of (collectors late_test)) = false /\
   (forall c, c ∈ collectors late_test ->
      gtb (Collector_latest decls c) (latest_of (collectors late_test)) = false) /\
   (latest_of (collectors late_test) = zero \/
    exists c, c ∈ collectors late_test /\
              latest_of (collectors late_test) = Collector_latest decls c) /\
   (collectors late_test = [] ->
    expandTime indef_amd64 (opts late_test) (latest_of (collectors late_test))
    = baseTime (opts late_test))) /\
  await_deadline indef_amd64 late_test late_started = (Ret tt, late_started) /\
  (forall w : World decls,
     (now w < expandTime indef_amd64 (opts late_test)
                (latest_of (collectors late_test)))%Z ->
     exists n, await_deadline indef_amd64 late_test w = (Ret tt, set_now n w) /\
               (now w < n)%Z) /\
  exists reports : list string,
    check_collectors env_ok late_test late_started
    = (Ret tt, set_output (output late_started ++ reports) late_started) /\
    length reports = length (collectors late_test) /\
    (forall i c, collectors late_test !! i = Some c ->
       reports !! i
       = Some (Collector_check env_ok c
                 (set_output (output late_started ++ take i reports) late_started))) /\
    Run_body indef_amd64 env_ok late_test late_started
    = log_outputs late_test (set_output (output late_started ++ reports) late_started) /\
    Run indef_amd64 env_ok late_test late_world
    = run_deferred [0]
        (fst (log_outputs late_test
                (set_output (output late_started ++ reports) late_started)))
        (snd (log_outputs late_test
                (set_output (output late_started ++ reports) late_started))).
Proof.
  apply (C9_past_deadline_is_not_waited_for indef_amd64 env_ok late_test
           late_world late_started late_started [0]).
  - vm_compute. reflexivity.
  - vm_compute. reflexivity.
  - apply Z.leb_le. vm_compute. reflexivity.
Defined.

(** The run of [late_test]: after the line of the constructor the log
    has the two reports; [Run] ends one second and a tenth after the base
    time, the time at which the instance was started, and the instance
    is sent SIGTERM. *)
Example the_late_test_is_checked_at_once :
  let r := Run indef_amd64 env_ok late_test late_world in
  fst r = Ret tt /\
  now (snd r) = (now world0 + Second + 100 * Millisecond)%Z /\
  failed (snd r) = false /\
  take 3 (output (snd r)) = ["AM on [::]:40001"; "ok"; "ok"]%string /\
  signals (snd r) = [(1000%Z, SIGTERM)].
Proof. vm_compute. repeat split. Qed.

Lemma C5_witness :
  stored_at (actions (schedule blank_test five_calls)) (Fin 1) = [ret tt; goexit] /\
  stored_at (actions (schedule blank_test five_calls)) NaN = [panic; ret tt].
Proof.
  split.
  - exact (proj1 (C5_Do_accumulates blank_test five_calls (Fin 1) I)).
  - exact (proj1 (C5_Do_accumulates blank_test five_calls NaN I)).
Defined.

End TestRuns.

(** * A run of the goroutines *)

Module ConcurrentRun.
Import F64 GoTime Clock Concurrent ConcurrentProps ConcurrentSample.

(** [runActions] is entered at the base time; the goroutine is spawned,
    reads the clock and sleeps; after a second it wakes up and calls the
    function, which takes five nanoseconds; then [wg.Wait()] returns. *)
Lemma reachable_returned :
  reachable indef_amd64 opts0 0%Z registry1 returned_state.
Proof.
  unfold reachable.
  eapply rtc_l; [eapply step_range; reflexivity|]. simpl.
  eapply rtc_l; [eapply step_go; reflexivity|]. simpl.
  eapply rtc_l; [eapply step_next; reflexivity|]. cbn.
  eapply rtc_l; [eapply step_wait; reflexivity|]. cbn.
  eapply rtc_l; [eapply (step_now _ _ _ 0); reflexivity|]. cbn.
  eapply rtc_l; [eapply (step_sleep _ _ _ 0); reflexivity|]. cbn.
  eapply rtc_l; [eapply (step_tick _ _ _ 1000000000%Z); lia|]. cbn.
  eapply rtc_l; [eapply (step_wake _ _ _ 0); [reflexivity|reflexivity|]|].
  { vm_compute. discriminate. }
  cbn.
  eapply rtc_l; [eapply (step_call _ _ _ 0); reflexivity|]. cbn.
  eapply rtc_l; [eapply (step_tick _ _ _ 5%Z); lia|]. cbn.
  eapply rtc_l; [eapply (step_finish _ _ _ 0); reflexivity|]. cbn.
  eapply rtc_l; [eapply (step_done _ _ _ 0); reflexivity|]. cbn.
  eapply rtc_l; [eapply step_return; reflexivity|]. cbn.
  apply rtc_refl.
Qed.

Lemma C4_witness :
  map (fun g => (g_at g, g_f g)) (gs returned_state) = [(Fin 1, "push"%string)] /\
  forall g, g ∈ gs returned_state ->
    exists ti tc, g_invoked g = Some ti /\ g_completed g = Some tc /\
                  (tc <= 1000000005)%Z.
Proof.
  exact (proj1 (proj2
           (C4_no_early_call_no_early_return indef_amd64 opts0 registry1 0%Z
              returned_state (Z.le_refl 0) reachable_returned))
           1000000005%Z eq_refl).
Defined.

End ConcurrentRun.

(** * The collector on the cases of the specification *)

Module CollectorRuns.
Import CollectorModel CollectorSample.
Local Open Scope Q_scope.

(** "Given one expectation (interval=[5,10], batch=B) and a single
    observation (observedAt=7, batch=B), reconciliation reports the
    expectation satisfied." *)
Example observed_in_time :
  reconcile 0 [five_to_ten] [seen 7]
  = {| satisfied := [five_to_ten]; unsatisfied := []; extras := [] |}.
Proof. vm_compute. reflexivity. Qed.

(** "Given the same expectation and an observation (observedAt=15,
    batch=B) with tolerance 0, reconciliation reports it unsatisfied; with
    tolerance >= 5, satisfied." *)
Example observed_late :
  reconcile 0 [five_to_ten] [seen 15]
  = {| satisfied := []; unsatisfied := [five_to_ten]; extras := [seen 15] |} /\
  reconcile 5 [five_to_ten] [seen 15]
  = {| satisfied := [five_to_ten]; unsatisfied := []; extras := [] |}.
Proof. vm_compute. split; reflexivity. Qed.

(** Two expectations of the same batch at intervals that do not overlap,
    the later one declared first, and one observation that is a candidate
    of both under a wide tolerance: the earlier expectation takes it. *)
Example one_observation_for_two :
  reconcile 20 [twenty_to_thirty; five_to_ten] [seen 15]
  = {| satisfied := [five_to_ten]; unsatisfied := [twenty_to_thirty]; extras := [] |}.
Proof. vm_compute. reflexivity. Qed.

End CollectorRuns.

(** * The order of times, and the way from absolute times and back *)

Module ClockOrder.
Import F64 GoTime Clock ClockProps.
Local Open Scope Q_scope.

(** ** Rounding keeps the order *)

Lemma rne_bounds y : (Qfloor y <= rne y <= Qfloor y + 1)%Z.
Proof.
  unfold rne. destruct (y - inject_Z (Qfloor y) ?= 1 # 2); [|lia..].
  destruct (Z.even (Qfloor y)); lia.
Qed.

Lemma rne_mono a b : a <= b -> (rne a <= rne b)%Z.
Proof.
  intros Hab. pose proof (Qfloor_resp_le _ _ Hab) as Hf.
  destruct (Z.eq_dec (Qfloor a) (Qfloor b)) as [E|E].
  - unfold rne. rewrite <- E.
    destruct (a - inject_Z (Qfloor a) ?= 1 # 2) eqn:Ea;
      destruct (b - inject_Z (Qfloor a) ?= 1 # 2) eqn:Eb;
      try (destruct (Z.even (Qfloor a))); try lia; exfalso.
    all: repeat match goal with
         | H : (_ ?= _) = Eq |- _ => apply Qeq_alt in H
         | H : (_ ?= _) = Lt |- _ => apply Qlt_alt in H
         | H : (_ ?= _) = Gt |- _ => apply Qgt_alt in H
         end.
    all: generalize dependent (inject_Z (Qfloor a)); intros; lra.
  - pose proof (rne_bounds a). pose proof (rne_bounds b). lia.
Qed.

Lemma rne_le a n : a <= inject_Z n -> (rne a <= n)%Z.
Proof. intros H%rne_mono. by rewrite rne_integer in H. Qed.

Lemma rne_ge a n : inject_Z n <= a -> (n <= rne a)%Z.
Proof. intros H%rne_mono. by rewrite rne_integer in H. Qed.

Lemma ulp_top q : 0 < Qabs q -> Qabs q < 2 ^ (ulp_exp q + 53).
Proof.
  intros Hq. destruct (ilog2_spec _ Hq) as [_ H].
  eapply Qlt_le_trans; [exact H|]. apply pow2_le. unfold ulp_exp. lia.
Qed.

Lemma ulp_bottom q :
  0 < Qabs q -> (-1074 < ulp_exp q)%Z -> 2 ^ (ulp_exp q + 52) <= Qabs q.
Proof.
  intros Hq He. destruct (ilog2_spec _ Hq) as [H _].
  replace (ulp_exp q + 52)%Z with (ilog2 (Qabs q)); [exact H|].
  unfold ulp_exp in *. lia.
Qed.

Lemma ulp_exp_mono x y : 0 < Qabs x -> Qabs x <= Qabs y -> (ulp_exp x <= ulp_exp y)%Z.
Proof.
  intros Hx Hxy. destruct (ilog2_spec _ Hx) as [H _].
  assert (ilog2 (Qabs x) <= ilog2 (Qabs y))%Z.
  { apply ilog2_lower; lra. }
  unfold ulp_exp. lia.
Qed.

Lemma scale_le a b p : 0 < p -> a <= b -> a / p <= b / p.
Proof.
  intros Hp Hab. unfold Qdiv. apply Qmult_le_compat_r; [exact Hab|].
  apply Qlt_le_weak. by apply Qinv_lt_0_compat.
Qed.

Lemma scaled_pow k e : (e <= k)%Z -> 2 ^ k / 2 ^ e == inject_Z (2 ^ (k - e)).
Proof.
  intros H. rewrite pow2_inject by lia. unfold Z.sub.
  rewrite pow2_plus, Qpower_opp. pose proof (pow2_pos e).
  field. lra.
Qed.

(** What rounding gives, from what the mantissa is. *)
Lemma round_q_le y n : y / 2 ^ ulp_exp y <= inject_Z n ->
  round_q y <= inject_Z n * 2 ^ ulp_exp y.
Proof.
  intros H%rne_le. unfold round_q. apply Qmult_le_compat_r.
  - by rewrite <- Zle_Qle.
  - apply Qlt_le_weak, pow2_pos.
Qed.

Lemma round_q_ge y n : inject_Z n <= y / 2 ^ ulp_exp y ->
  inject_Z n * 2 ^ ulp_exp y <= round_q y.
Proof.
  intros H%rne_ge. unfold round_q. apply Qmult_le_compat_r.
  - by rewrite <- Zle_Qle.
  - apply Qlt_le_weak, pow2_pos.
Qed.

(** A power of two between two numbers is between their roundings. *)
Lemma round_q_below y k :
  (ulp_exp y <= k)%Z -> y <= 2 ^ k -> round_q y <= 2 ^ k.
Proof.
  intros He Hy. pose proof (pow2_pos (ulp_exp y)) as Hp.
  assert (y / 2 ^ ulp_exp y <= inject_Z (2 ^ (k - ulp_exp y))) as H.
  { rewrite <- scaled_pow by done. by apply scale_le. }
  apply round_q_le in H. rewrite <- scaled_pow in H by done.
  eapply Qle_trans; [exact H|]. apply Qle_lteq. right. field. lra.
Qed.

Lemma round_q_above y k :
  (ulp_exp y <= k)%Z -> 2 ^ k <= y -> 2 ^ k <= round_q y.
Proof.
  intros He Hy. pose proof (pow2_pos (ulp_exp y)) as Hp.
  assert (inject_Z (2 ^ (k - ulp_exp y)) <= y / 2 ^ ulp_exp y) as H.
  { rewrite <- scaled_pow by done. by apply scale_le. }
  apply round_q_ge in H. rewrite <- scaled_pow in H by done.
  eapply Qle_trans; [|exact H]. apply Qle_lteq. right. field. lra.
Qed.

Lemma round_q_below_neg y k :
  (ulp_exp y <= k)%Z -> y <= - 2 ^ k -> round_q y <= - 2 ^ k.
Proof.
  intros He Hy. pose proof (pow2_pos (ulp_exp y)) as Hp.
  assert (y / 2 ^ ulp_exp y <= inject_Z (- 2 ^ (k - ulp_exp y))) as H.
  { rewrite inject_Z_opp, <- scaled_pow by done.
    assert (- (2 ^ k / 2 ^ ulp_exp y) == (- 2 ^ k) / 2 ^ ulp_exp y) as -> by (field; lra).
    by apply scale_le. }
  apply round_q_le in H. rewrite inject_Z_opp, <- scaled_pow in H by done.
  eapply Qle_trans; [exact H|]. apply Qle_lteq. right. field. lra.
Qed.

Lemma round_q_above_neg y k :
  (ulp_exp y <= k)%Z -> - 2 ^ k <= y -> - 2 ^ k <= round_q y.
Proof.
  intros He Hy. pose proof (pow2_pos (ulp_exp y)) as Hp.
  assert (inject_Z (- 2 ^ (k - ulp_exp y)) <= y / 2 ^ ulp_exp y) as H.
  { rewrite inject_Z_opp, <- scaled_pow by done.
    assert (- (2 ^ k / 2 ^ ulp_exp y) == (- 2 ^ k) / 2 ^ ulp_exp y) as -> by (field; lra).
    by apply scale_le. }
  apply round_q_ge in H. rewrite inject_Z_opp, <- scaled_pow in H by done.
  eapply Qle_trans; [|exact H]. apply Qle_lteq. right. field. lra.
Qed.

Lemma round_q_sign_le y : y <= 0 -> round_q y <= 0.
Proof.
  intros Hy. pose proof (pow2_pos (ulp_exp y)) as Hp.
  assert (y / 2 ^ ulp_exp y <= inject_Z 0) as H.
  { change (inject_Z 0) with 0. assert (0 == 0 / 2 ^ ulp_exp y) as -> by (field; lra).
    by apply scale_le. }
  apply round_q_le in H. change (inject_Z 0) with 0 in H. lra.
Qed.

Lemma round_q_sign_ge y : 0 <= y -> 0 <= round_q y.
Proof.
  intros Hy. pose proof (pow2_pos (ulp_exp y)) as Hp.
  assert (inject_Z 0 <= y / 2 ^ ulp_exp y) as H.
  { change (inject_Z 0) with 0. assert (0 == 0 / 2 ^ ulp_exp y) as -> by (field; lra).
    by apply scale_le. }
  apply round_q_ge in H. change (inject_Z 0) with 0 in H. lra.
Qed.

Lemma round_q_same_unit x y :
  ulp_exp x = ulp_exp y -> x <= y -> round_q x <= round_q y.
Proof.
  intros He Hxy. unfold round_q. rewrite He.
  pose proof (pow2_pos (ulp_exp y)) as Hp.
  apply Qmult_le_compat_r; [|lra].
  rewrite <- Zle_Qle. apply rne_mono. by apply scale_le.
Qed.

(** Rounding to nearest is monotone. *)
Lemma round_q_mono x y : x <= y -> round_q x <= round_q y.
Proof.
  intros Hxy.
  destruct (Qlt_le_dec 0 x) as [Hx|Hx]; [|destruct (Qlt_le_dec y 0) as [Hy|Hy]].
  - (* both positive *)
    assert (0 < Qabs x) as Hax by (rewrite Qabs_pos; lra).
    assert (Qabs x <= Qabs y) as Hle by (rewrite !Qabs_pos; lra).
    pose proof (ulp_exp_mono x y Hax Hle) as He.
    destruct (Z.eq_dec (ulp_exp x) (ulp_exp y)) as [E|E];
      [by apply round_q_same_unit|].
    pose proof (ulp_exp_min x) as Hmin.
    pose proof (ulp_top x Hax) as Htop.
    pose proof (ulp_bottom y ltac:(lra) ltac:(lia)) as Hbot.
    rewrite Qabs_pos in Htop, Hbot by lra.
    assert (2 ^ (ulp_exp x + 53) <= 2 ^ (ulp_exp y + 52)) as Hpow
      by (apply pow2_le; lia).
    apply Qle_trans with (2 ^ (ulp_exp y + 52)).
    + apply round_q_below; [lia|lra].
    + apply round_q_above; [lia|lra].
  - (* both negative *)
    assert (0 < Qabs y) as Hay by (rewrite Qabs_neg; lra).
    assert (Qabs y <= Qabs x) as Hle by (rewrite !Qabs_neg; lra).
    pose proof (ulp_exp_mono y x Hay Hle) as He.
    destruct (Z.eq_dec (ulp_exp x) (ulp_exp y)) as [E|E];
      [by apply round_q_same_unit|].
    pose proof (ulp_exp_min y) as Hmin.
    pose proof (ulp_top y Hay) as Htop.
    pose proof (ulp_bottom x ltac:(lra) ltac:(lia)) as Hbot.
    rewrite Qabs_neg in Htop, Hbot by lra.
    assert (2 ^ (ulp_exp y + 53) <= 2 ^ (ulp_exp x + 52)) as Hpow
      by (apply pow2_le; lia).
    apply Qle_trans with (- 2 ^ (ulp_exp x + 52)).
    + apply round_q_below_neg; [lia|lra].
    + apply round_q_above_neg; [lia|lra].
  - apply Qle_trans with 0; [by apply round_q_sign_le|by apply round_q_sign_ge].
Qed.

(** The value of a rounding that is finite. *)
Lemma round_fin y r : round y = Fin r -> r == round_q y.
Proof.
  unfold round. destruct (Qeq_bool y 0) eqn:E.
  - intros [= <-]. apply Qeq_bool_iff in E. symmetry. by apply round_q_zero.
  - destruct (Qle_bool _ _); [discriminate|]. intros [= <-]. apply Qred_correct.
Qed.

Lemma round_mono x y rx ry :
  round x = Fin rx -> round y = Fin ry -> x <= y -> rx <= ry.
Proof.
  intros Hx%round_fin Hy%round_fin Hxy. rewrite Hx, Hy. by apply round_q_mono.
Qed.

Lemma Qtrunc_mono x y : x <= y -> (Qtrunc x <= Qtrunc y)%Z.
Proof.
  intros Hxy. unfold Qtrunc.
  destruct (Qle_bool 0 x) eqn:Ex, (Qle_bool 0 y) eqn:Ey.
  - by apply Qfloor_resp_le.
  - apply Qle_bool_iff in Ex. apply RunProps.Qle_bool_false in Ey. lra.
  - apply RunProps.Qle_bool_false in Ex. apply Qle_bool_iff in Ey.
    pose proof (Qceiling_resp_le x 0 ltac:(lra)) as H1.
    pose proof (Qfloor_resp_le 0 y Ey) as H2.
    change (Qceiling 0) with 0%Z in H1. change (Qfloor 0) with 0%Z in H2. lia.
  - by apply Qceiling_resp_le.
Qed.

(** ** Rounding does not look at the fraction a number is written as *)

Lemma ilog2_comp x y : 0 < x -> x == y -> ilog2 x = ilog2 y.
Proof.
  intros Hx Hxy. assert (0 < y) as Hy by lra.
  destruct (ilog2_spec x Hx) as [H1 H2]. destruct (ilog2_spec y Hy) as [H3 H4].
  assert (2 ^ ilog2 x < 2 ^ (ilog2 y + 1)) as Ha by lra.
  assert (2 ^ ilog2 y < 2 ^ (ilog2 x + 1)) as Hb by lra.
  apply pow2_lt_inv in Ha, Hb. lia.
Qed.

Lemma ulp_exp_comp x y : ~ x == 0 -> x == y -> ulp_exp x = ulp_exp y.
Proof.
  intros Hx Hxy. unfold ulp_exp.
  rewrite (ilog2_comp (Qabs x) (Qabs y)); [done|by apply Qabs_pos_nonzero|by rewrite Hxy].
Qed.

Lemma rne_comp a b : a == b -> rne a = rne b.
Proof.
  intros H. unfold rne. rewrite (Qfloor_comp _ _ H).
  assert ((a - inject_Z (Qfloor b) ?= 1 # 2) = (b - inject_Z (Qfloor b) ?= 1 # 2)) as ->;
    [|done].
  by rewrite H.
Qed.

Lemma round_q_comp x y : ~ x == 0 -> x == y -> round_q x = round_q y.
Proof.
  intros Hx Hxy. unfold round_q. rewrite (ulp_exp_comp x y Hx Hxy).
  rewrite (rne_comp (x / 2 ^ ulp_exp y) (y / 2 ^ ulp_exp y)); [done|by rewrite Hxy].
Qed.

Lemma round_comp x y : x == y -> round x = round y.
Proof.
  intros Hxy. unfold round.
  assert (Qeq_bool x 0 = Qeq_bool y 0) as E.
  { apply eq_true_iff_eq. rewrite !Qeq_bool_iff. by rewrite Hxy. }
  rewrite <- E. destruct (Qeq_bool x 0) eqn:E0; [done|].
  apply Qeq_bool_neq in E0. rewrite (round_q_comp x y E0 Hxy).
  assert (Qle_bool 0 x = Qle_bool 0 y) as ->; [|done].
  apply eq_true_iff_eq. rewrite !Qle_bool_iff. by rewrite Hxy.
Qed.

(** ** The nanoseconds of a relative time *)

(** The conversion of a relative time of at most 9223372036 seconds: the
    product is rounded, and its fraction is cut off. *)
Lemma nanoseconds_trunc (indef : float64 -> Z) q :
  Qabs q <= 9223372036 ->
  exists p,
    mul (Fin q) (of_int64 Second) = Fin p /\
    p == round_q (q * 1000000000) /\
    to_int64 indef (Fin p) = Qtrunc p.
Proof.
  intros Hq.
  destruct (nanoseconds_spec indef q Hq)
    as (p & N & e & d & Hmul & _ & _ & Herr & Hup & _).
  exists p. split; [exact Hmul|]. split.
  - rewrite of_int64_Second in Hmul. by apply round_fin in Hmul.
  - assert (Qabs (q * 1000000000) < 2 ^ (62 + 1)) as HP.
    { rewrite Qabs_Qmult. change (Qabs 1000000000) with 1000000000.
      change (2 ^ (62 + 1)) with 9223372036854775808. lra. }
    pose proof (Hup 62%Z HP ltac:(lia)) as He.
    assert (2 ^ e <= 1024) as Hpe by (change 1024 with (2 ^ 10); by apply pow2_le).
    assert (Qabs p < 2 ^ 63) as Hp.
    { pose proof (Qabs_triangle (p - q * 1000000000) (q * 1000000000)) as Ht.
      assert (p - q * 1000000000 + q * 1000000000 == p) as E by ring.
      rewrite E in Ht. rewrite Qabs_Qmult in *.
      change (Qabs 1000000000) with 1000000000 in *.
      change (2 ^ 63) with 9223372036854775808.
      generalize dependent (2 ^ e). intros. lra. }
    destruct (Qtrunc_spec p) as [_ Ht].
    assert (- 2 ^ 63 < Qtrunc p < 2 ^ 63)%Z as Hd.
    { apply Qabs_inject_lt; [lia|]. lra. }
    unfold to_int64.
    assert (in_int64 (Qtrunc p) = true) as ->; [|done].
    unfold in_int64, int64_min, int64_max.
    apply andb_true_iff. split; apply Z.leb_le; lia.
Qed.

(** [expandTime] keeps the order of the relative times it can hold. *)
Lemma expandTime_mono (indef : float64 -> Z) (opts : AcceptanceOpts) a b :
  Qabs a <= 9223372036 -> Qabs b <= 9223372036 -> a <= b ->
  (expandTime indef opts (Fin a) <= expandTime indef opts (Fin b))%Z.
Proof.
  intros Ha Hb Hab.
  destruct (nanoseconds_trunc indef a Ha) as (pa & Hma & Hpa & Hta).
  destruct (nanoseconds_trunc indef b Hb) as (pb & Hmb & Hpb & Htb).
  unfold expandTime, Add. rewrite Hma, Hmb, Hta, Htb.
  assert (pa <= pb) as Hp.
  { rewrite Hpa, Hpb. apply round_q_mono. lra. }
  pose proof (Qtrunc_mono _ _ Hp). lia.
Qed.

(** X1: a later relative time never expands to an earlier absolute time.
    For relative times of at most 9223372036 seconds in magnitude, the
    ones whose nanoseconds [int64] can hold, [expandTime] is monotone,
    whatever the base time and the platform; relative times that are two
    microseconds apart or more expand to different absolute times. *)
Theorem X1_expandTime_keeps_the_order (indef : float64 -> Z) (opts : AcceptanceOpts) a b :
  Qabs a <= 9223372036 -> Qabs b <= 9223372036 -> a <= b ->
  (expandTime indef opts (Fin a) <= expandTime indef opts (Fin b))%Z /\
  (a + (2 # 1000000) <= b ->
   (expandTime indef opts (Fin a) < expandTime indef opts (Fin b))%Z).
Proof.
  intros Ha Hb Hab. split; [by apply expandTime_mono|]. intros Hfar.
  destruct (nanoseconds_spec indef a Ha)
    as (pa & Na & ea & da & Hma & _ & _ & Herra & Hupa & _ & Hca & _ & Htra & _).
  destruct (nanoseconds_spec indef b Hb)
    as (pb & Nb & eb & db & Hmb & _ & _ & Herrb & Hupb & _ & Hcb & _ & Htrb & _).
  unfold expandTime, Add. rewrite Hma, Hmb, Hca, Hcb.
  assert (forall q, Qabs q <= 9223372036 -> Qabs (q * 1000000000) < 2 ^ (62 + 1)) as HP.
  { intros q Hq. rewrite Qabs_Qmult. change (Qabs 1000000000) with 1000000000.
    change (2 ^ (62 + 1)) with 9223372036854775808. lra. }
  pose proof (Hupa 62%Z (HP a Ha) ltac:(lia)) as Hea.
  pose proof (Hupb 62%Z (HP b Hb) ltac:(lia)) as Heb.
  assert (2 ^ ea <= 1024) as Hpa by (change 1024 with (2 ^ 10); by apply pow2_le).
  assert (2 ^ eb <= 1024) as Hpb by (change 1024 with (2 ^ 10); by apply pow2_le).
  apply Qabs_Qle_condition in Herra, Herrb.
  apply Qabs_Qlt_condition in Htra, Htrb.
  assert (inject_Z da < inject_Z db) as Hlt.
  { generalize dependent (inject_Z da). generalize dependent (inject_Z db).
    generalize dependent (2 ^ ea). generalize dependent (2 ^ eb). intros. lra. }
  rewrite <- Zlt_Qlt in Hlt. lia.
Qed.

(** The relative time of an absolute time: the difference to the base
    time saturates, and both conversions and the division are finite. *)
Lemma relativeTime_fin (opts : AcceptanceOpts) act :
  exists f r,
    of_int64 (Sub act (baseTime opts)) = Fin f /\
    relativeTime opts act = Fin r /\
    round (f / 1000000000) = Fin r.
Proof.
  unfold relativeTime. set (d := Sub act (baseTime opts)).
  assert (- 2 ^ 63 <= d < 2 ^ 63)%Z as Hd.
  { unfold d, Sub, minDuration, maxDuration, int64_min, int64_max. lia. }
  assert (-9223372036854775808 <= inject_Z d < 9223372036854775808) as HdQ.
  { change (-9223372036854775808) with (inject_Z (- 2 ^ 63)).
    change 9223372036854775808 with (inject_Z (2 ^ 63)).
    rewrite <- Zlt_Qlt, <- Zle_Qle. lia. }
  assert (Qabs (inject_Z d) < 2 ^ (63 + 1)) as Hd64.
  { change (2 ^ (63 + 1)) with 18446744073709551616. apply Qabs_Qlt_condition.
    generalize dependent (inject_Z d). intros. lra. }
  destruct (round_bound _ 63 Hd64 ltac:(lia) ltac:(lia))
    as (f & N & e & Hf & _ & _ & _ & Herr & Hup & _).
  rewrite of_int64_Second. unfold of_int64. rewrite Hf.
  change (div (Fin f) (Fin 1000000000)) with (round (f / 1000000000)).
  pose proof (Hup 63%Z Hd64 ltac:(lia)) as He.
  assert (2 ^ e <= 2048) as Hpe by (change 2048 with (2 ^ 11); by apply pow2_le).
  apply Qabs_Qle_condition in Herr.
  set (v := f / 1000000000).
  assert (v * 1000000000 == f) as Hv by (unfold v; field).
  assert (Qabs v < 2 ^ (33 + 1)) as Hv34.
  { change (2 ^ (33 + 1)) with 17179869184. apply Qabs_Qlt_condition.
    pose proof (pow2_pos e).
    generalize dependent (inject_Z d). generalize dependent (2 ^ e). intros. lra. }
  destruct (round_bound v 33 Hv34 ltac:(lia) ltac:(lia)) as (r & _ & _ & Hr & _).
  by exists f, r.
Qed.

(** X2: [relativeTime] is finite and keeps the order, for all absolute
    times and base times: a later absolute time never gets an earlier
    relative time. *)
Theorem X2_relativeTime_keeps_the_order (opts : AcceptanceOpts) act act' :
  (act <= act')%Z ->
  exists r r',
    relativeTime opts act = Fin r /\ relativeTime opts act' = Fin r' /\ r <= r'.
Proof.
  intros Hle.
  destruct (relativeTime_fin opts act) as (f & r & Hf & Hr & Hdiv).
  destruct (relativeTime_fin opts act') as (f' & r' & Hf' & Hr' & Hdiv').
  exists r, r'. split; [exact Hr|]. split; [exact Hr'|].
  assert (f <= f') as Hff.
  { apply (round_mono _ _ _ _ Hf Hf'). rewrite <- Zle_Qle.
    unfold Sub, minDuration, maxDuration, int64_min, int64_max. lia. }
  apply (round_mono _ _ _ _ Hdiv Hdiv'). apply scale_le; [reflexivity|exact Hff].
Qed.

(** X3: times of whole nanoseconds make the round trip exactly.  When
    the nanoseconds of a relative time [q], a value of [float64], are a
    whole number [n] of at most [2^53] in magnitude (104 days),
    [expandTime] gives the base time plus [n] nanoseconds, and
    [relativeTime] gives [q] back. *)
Theorem X3_whole_nanoseconds_round_trip (indef : float64 -> Z) (opts : AcceptanceOpts)
    q n :
  is_binary64 q ->
  q * 1000000000 == inject_Z n ->
  (Z.abs n <= 2 ^ 53)%Z ->
  expandTime indef opts (Fin q) = (baseTime opts + n)%Z /\
  exists q', relativeTime opts (expandTime indef opts (Fin q)) = Fin q' /\ q' == q.
Proof.
  intros (q' & Hq' & Hqq) Hn Hb.
  assert (Qabs (inject_Z n) < 2 ^ 1024) as Hbig.
  { rewrite <- inject_Z_abs. apply Qle_lt_trans with (inject_Z (2 ^ 53)).
    - by rewrite <- Zle_Qle.
    - reflexivity. }
  assert (expandTime indef opts (Fin q) = (baseTime opts + n)%Z) as Hexp.
  { unfold expandTime, Add. rewrite of_int64_Second.
    change (mul (Fin q) (Fin 1000000000)) with (round (q * 1000000000)).
    destruct (round_exact (q * 1000000000) n 0) as (r & Hr & Hrn); try lia.
    - rewrite Hn. change (2 ^ 0) with 1. ring.
    - by rewrite Hn.
    - rewrite Hr. unfold to_int64.
      rewrite (Qtrunc_integer r n) by (by rewrite Hrn, Hn).
      assert (in_int64 n = true) as ->; [|done].
      unfold in_int64, int64_min, int64_max.
      apply andb_true_iff. split; apply Z.leb_le; lia. }
  split; [exact Hexp|]. rewrite Hexp. exists q'. split; [|exact Hqq].
  unfold relativeTime.
  assert (Sub (baseTime opts + n)%Z (baseTime opts) = n) as ->.
  { unfold Sub, minDuration, maxDuration, int64_min, int64_max. lia. }
  unfold of_int64 at 1.
  destruct (round_exact (inject_Z n) n 0) as (f & Hf & Hfn); try lia.
  - change (2 ^ 0) with 1. ring.
  - exact Hbig.
  - rewrite Hf, of_int64_Second.
    change (div (Fin f) (Fin 1000000000)) with (round (f / 1000000000)).
    rewrite <- Hq'. apply round_comp. rewrite Hfn, <- Hn. field.
Qed.

(** X4: from an absolute time to its relative time and back, at most one
    nanosecond is lost.  For an absolute time of at most [2^51]
    nanoseconds (26 days) from the base time, [expandTime] of its
    [relativeTime] is that time or the nanosecond next to it on the side
    of the base time. *)
Theorem X4_relative_then_expand_loses_a_nanosecond (indef : float64 -> Z)
    (opts : AcceptanceOpts) act :
  (Z.abs (act - baseTime opts) <= 2 ^ 51)%Z ->
  let act' := expandTime indef opts (relativeTime opts act) in
  (baseTime opts <= act -> act - 1 <= act' <= act)%Z /\
  (act <= baseTime opts -> act <= act' <= act + 1)%Z.
Proof.
  intros Hd act'.
  set (d := (act - baseTime opts)%Z) in *.
  assert (Sub act (baseTime opts) = d) as HSub.
  { unfold Sub, minDuration, maxDuration, int64_min, int64_max. fold d. lia. }
  assert (-2251799813685248 <= inject_Z d <= 2251799813685248) as HdQ.
  { change (-2251799813685248) with (inject_Z (- 2 ^ 51)).
    change 2251799813685248 with (inject_Z (2 ^ 51)).
    rewrite <- !Zle_Qle. lia. }
  destruct (relativeTime_fin opts act) as (f & r & Hf & Hr & Hdiv).
  rewrite HSub in Hf.
  assert (f == inject_Z d) as Hfd.
  { destruct (round_exact (inject_Z d) d 0) as (f0 & Hf0 & Hfd); try lia.
    - change (2 ^ 0) with 1. ring.
    - apply Qabs_Qlt_condition.
      assert (2251799813685248 < 2 ^ 1024) by reflexivity.
      generalize dependent (2 ^ 1024). intros. lra.
    - unfold of_int64 in Hf. rewrite Hf0 in Hf. by injection Hf as <-. }
  set (v := f / 1000000000) in *.
  assert (v * 1000000000 == inject_Z d) as Hv by (unfold v; rewrite <- Hfd; field).
  assert (Qabs v < 2 ^ (21 + 1)) as Hv22.
  { change (2 ^ (21 + 1)) with 4194304. apply Qabs_Qlt_condition.
    generalize dependent (inject_Z d). intros. lra. }
  destruct (round_bound v 21 Hv22 ltac:(lia) ltac:(lia))
    as (r0 & N3 & e3 & Hr0 & _ & _ & _ & Herr3 & Hup3 & _).
  rewrite Hdiv in Hr0. injection Hr0 as <-.
  pose proof (Hup3 21%Z Hv22 ltac:(lia)) as He3.
  assert (2 ^ e3 <= 1 # 2147483648) as Hpe3
    by (change (1 # 2147483648) with (2 ^ (-31)); by apply pow2_le).
  pose proof (pow2_pos e3) as Hpe3'.
  apply Qabs_Qle_condition in Herr3.
  assert (Qabs r <= 9223372036) as Hr9.
  { apply Qabs_Qle_condition. apply Qabs_Qlt_condition in Hv22.
    change (2 ^ (21 + 1)) with 4194304 in Hv22.
    generalize dependent (2 ^ e3). intros. lra. }
  destruct (nanoseconds_spec indef r Hr9)
    as (p & N & e & d' & Hmul & _ & _ & Herr & Hup & _).
  destruct (nanoseconds_trunc indef r Hr9) as (p0 & Hmul0 & _ & Htr).
  rewrite Hmul in Hmul0. injection Hmul0 as <-.
  assert (Qabs (r * 1000000000) < 2 ^ (51 + 1)) as HP.
  { change (2 ^ (51 + 1)) with 4503599627370496. apply Qabs_Qlt_condition.
    generalize dependent (inject_Z d). generalize dependent (2 ^ e3). intros. lra. }
  pose proof (Hup 51%Z HP ltac:(lia)) as He.
  assert (2 ^ e <= 1 # 2) as Hpe
    by (change (1 # 2) with (2 ^ (-1)); by apply pow2_le).
  pose proof (pow2_pos e) as Hpe'.
  apply Qabs_Qle_condition in Herr.
  assert (inject_Z d - (1 # 2) < p < inject_Z d + (1 # 2)) as Hp.
  { generalize dependent (inject_Z d). generalize dependent (2 ^ e3).
    generalize dependent (2 ^ e). intros. lra. }
  assert (act' = (baseTime opts + Qtrunc p)%Z) as ->.
  { unfold act', expandTime, Add. by rewrite Hr, Hmul, Htr. }
  assert (forall z : Z, inject_Z d - 2 < inject_Z z -> inject_Z z < inject_Z d + 1 ->
            (d - 1 <= z <= d)%Z) as Hint.
  { intros z H1 H2.
    assert (inject_Z (d - 2) < inject_Z z) as H1'.
    { unfold Z.sub. rewrite inject_Z_plus. change (inject_Z (- (2))) with (-2). lra. }
    assert (inject_Z z < inject_Z (d + 1)) as H2'.
    { rewrite inject_Z_plus. change (inject_Z 1) with 1. lra. }
    rewrite <- Zlt_Qlt in H1', H2'. lia. }
  assert (forall z : Z, inject_Z d - 1 < inject_Z z -> inject_Z z < inject_Z d + 2 ->
            (d <= z <= d + 1)%Z) as Hint'.
  { intros z H1 H2.
    assert (inject_Z (d - 1) < inject_Z z) as H1'.
    { unfold Z.sub. rewrite inject_Z_plus. change (inject_Z (- (1))) with (-1). lra. }
    assert (inject_Z z < inject_Z (d + 2)) as H2'.
    { rewrite inject_Z_plus. change (inject_Z 2) with 2. lra. }
    rewrite <- Zlt_Qlt in H1', H2'. lia. }
  pose proof (Qfloor_le p) as Hf1. pose proof (Qlt_floor p) as Hf2.
  rewrite inject_Z_plus in Hf2. change (inject_Z 1) with 1 in Hf2.
  pose proof (Qle_ceiling p) as Hc1. pose proof (Qceiling_lt p) as Hc2.
  unfold Z.sub in Hc2. rewrite inject_Z_plus, inject_Z_opp in Hc2.
  change (inject_Z 1) with 1 in Hc2.
  unfold Qtrunc. split; intros Hside.
  - assert (0 <= d)%Z as Hd0 by (unfold d; lia).
    assert (0 <= inject_Z d) as Hd0' by (change 0 with (inject_Z 0); by rewrite <- Zle_Qle).
    destruct (Qle_bool 0 p) eqn:E.
    + specialize (Hint (Qfloor p) ltac:(lra) ltac:(lra)). unfold d in *. lia.
    + apply RunProps.Qle_bool_false in E.
      assert (inject_Z d < 1 # 2) as Hsmall by lra.
      assert (d = 0)%Z as Hz.
      { assert (inject_Z d < inject_Z 1) as H1 by (change (inject_Z 1) with 1; lra).
        rewrite <- Zlt_Qlt in H1. lia. }
      rewrite Hz in Hp. change (inject_Z 0) with 0 in Hp.
      assert (inject_Z (-1) < inject_Z (Qceiling p) /\ inject_Z (Qceiling p) < inject_Z 1)
        as [H1 H2].
      { change (inject_Z (-1)) with (-1). change (inject_Z 1) with 1. lra. }
      rewrite <- Zlt_Qlt in H1, H2. unfold d in *. lia.
  - assert (d <= 0)%Z as Hd0 by (unfold d; lia).
    assert (inject_Z d <= 0) as Hd0' by (change 0 with (inject_Z 0); by rewrite <- Zle_Qle).
    destruct (Qle_bool 0 p) eqn:E.
    + apply Qle_bool_iff in E.
      assert (- (1 # 2) < inject_Z d) as Hsmall by lra.
      assert (d = 0)%Z as Hz.
      { assert (inject_Z (-1) < inject_Z d) as H1 by (change (inject_Z (-1)) with (-1); lra).
        rewrite <- Zlt_Qlt in H1. lia. }
      rewrite Hz in Hp. change (inject_Z 0) with 0 in Hp.
      assert (inject_Z (-1) < inject_Z (Qfloor p) /\ inject_Z (Qfloor p) < inject_Z 1)
        as [H1 H2].
      { change (inject_Z (-1)) with (-1). change (inject_Z 1) with 1. lra. }
      rewrite <- Zlt_Qlt in H1, H2. unfold d in *. lia.
    + specialize (Hint' (Qceiling p) ltac:(lra) ltac:(lra)). unfold d in *. lia.
Qed.

End ClockOrder.

(** * The life of a managed instance *)

Module InstanceLife.
Import F64 GoTime Clock GoRt Harness HarnessSpec InstanceProps.
Local Open Scope go_scope.

Lemma append_cons a (s u : string) : (String a s ++ u)%string = String a (s ++ u).
Proof. reflexivity. Qed.

Lemma append_nil_l (u : string) : ("" ++ u)%string = u.
Proof. reflexivity. Qed.

Lemma substring_all s : String.substring 0 (String.length s) s = s.
Proof. induction s as [|a s IH]; simpl; [done|]. by rewrite IH. Qed.

Lemma substring_none n s : String.substring n 0 s = EmptyString.
Proof.
  revert n. induction s as [|a s IH]; intros [|n]; simpl; auto.
Qed.

Lemma string_app_nil s : (s ++ "")%string = s.
Proof. induction s as [|a s IH]; [done|]. rewrite append_cons. by f_equal. Qed.

Lemma length_string_app s u :
  String.length (s ++ u)%string = String.length s + String.length u.
Proof. induction s as [|a s IH]; [done|]. rewrite append_cons. simpl. by f_equal. Qed.

(** A write at the end of a file appends. *)
Lemma write_at_end s c : write_at (String.length c) s c = (c ++ s)%string.
Proof.
  unfold write_at. rewrite substring_all, Nat.sub_diag. simpl.
  replace (String.length c - (String.length c + String.length s)) with 0 by lia.
  by rewrite substring_none, append_nil_l, string_app_nil.
Qed.

Section props.
Context {D : Decls}.
Variable env : Env D.

Local Abbreviation World := (World D).

Ltac go_unfold :=
  unfold UpdateConfig, freeAddress, File_WriteString, load_am, store_am,
    load_silence, load_alert, log_call, syscall_Kill, os_RemoveAll,
    t_Fatal, t_Error, t_Log, time_Now, time_Sleep,
    bind, deref, ret, panic, goexit, get, modify in *.

(** One call of [UpdateConfig] on a file whose descriptor stands at the
    end. *)
Lemma UpdateConfig_appends am conf doc (w : World) :
  holds_document am doc w ->
  (forall u f s, file_write env u f s = None) ->
  exists w',
    UpdateConfig env am conf w = (Ret tt, w') /\
    holds_document am (doc ++ conf) w' /\
    signals w' = signals w /\ api_calls w' = api_calls w.
Proof.
  intros (a & f & Ha & Hf & Hc & Ho) Hw.
  destruct (UpdateConfig_writes_at_offset env am conf w a f doc Ha Hf Hc (Hw _ _ _))
    as (w' & HU & Hfile & (a' & Ha' & Hf') & Hs & Hapi).
  exists w'. split; [exact HU|]. split; [|done].
  exists a', {| Name := Name f; offset := offset f + String.length conf |}.
  simpl. rewrite Hfile, Ho, write_at_end, length_string_app. rewrite Ho in Hf'.
  by split_and!.
Qed.

(** The file of a new instance holds the document it was made with. *)
Lemma NewAlertmanager_document t conf (w w' : World) t' am :
  (forall u f s, file_write env u f s = None) ->
  NewAlertmanager env t conf w = (Ret (t', am), w') ->
  holds_document am conf w'.
Proof.
  intros Hw. unfold NewAlertmanager. go_unfold. simpl.
  destruct (ioutil_TempFile env _) as [name|e]; simpl; [|discriminate].
  rewrite list_lookup_middle by reflexivity. simpl.
  rewrite list_lookup_insert_eq by (rewrite length_app; simpl; lia). simpl.
  rewrite Hw. simpl. rewrite lookup_insert_eq. simpl.
  repeat first
    [ rewrite list_lookup_insert_eq by (rewrite ?length_insert, length_app; simpl; lia)
    | rewrite list_insert_insert_eq
    | progress simpl
    | match goal with
      | |- context [match file_sync ?e ?w ?f with _ => _ end] =>
          destruct (file_sync e w f)
      | |- context [match net_Listen ?e ?w with _ => _ end] =>
          destruct (net_Listen e w)
      | |- context [match alertmanager_New ?e ?w ?u with _ => _ end] =>
          destruct (alertmanager_New e w u)
      end ].
  all: try discriminate.
  all: intros [= <- <- <-]; unfold holds_document; simpl.
  all: rewrite list_lookup_insert_eq by (rewrite ?length_insert, length_app; simpl; lia).
  all: eexists _, _; simpl; split_and!; try reflexivity.
  all: rewrite lookup_insert_eq; f_equal; apply (write_at_end conf "").
Qed.

(** X5: the configuration file accumulates.  After [t.Alertmanager(conf)]
    and any sequence of calls of [UpdateConfig] on the new instance, none
    of which meets a write error, the file holds [conf] followed by the
    documents of the calls in their order, and the descriptor stands at
    the end; the calls send no signal and no request. *)
Theorem X5_configuration_file_accumulates t conf confs (w w1 : World) t' am :
  (forall u f s, file_write env u f s = None) ->
  NewAlertmanager env t conf w = (Ret (t', am), w1) ->
  exists w2,
    for_each confs (UpdateConfig env am) w1 = (Ret tt, w2) /\
    holds_document am (documents conf confs) w2 /\
    signals w2 = signals w1 /\ api_calls w2 = api_calls w1.
Proof.
  intros Hw HN. apply NewAlertmanager_document in HN; [|exact Hw].
  clear w t t'. revert conf w1 HN.
  induction confs as [|c confs IH]; intros conf w1 Hdoc; simpl.
  - by exists w1.
  - destruct (UpdateConfig_appends am c conf w1 Hdoc Hw) as (w' & HU & Hdoc' & Hs & Hapi).
    destruct (IH _ _ Hdoc') as (w2 & HF & Hdoc2 & Hs2 & Hapi2).
    exists w2. unfold bind. rewrite HU. split; [exact HF|].
    split; [exact Hdoc2|]. split; congruence.
Qed.


(** X7: [Start] works once.  A call that returns has taken 100
    milliseconds and has set the process handle; a second call on the
    same instance finds the command started, fails the test and leaves
    the goroutine at once, and the process handle, the clock and the
    signals sent are as they were. *)
Theorem X7_Start_works_once am (w w1 : World) :
  Start env am w = (Ret tt, w1) ->
  now w1 = (now w + 100 * Millisecond)%Z /\
  is_Some (process_of am w1) /\
  exists w2,
    Start env am w1 = (Goexit, w2) /\
    failed w2 = true /\ process_of am w2 = process_of am w1 /\
    now w2 = now w1 /\ signals w2 = signals w1 /\ files w2 = files w1.
Proof.
  intros H. split; [|split; [by eapply Start_sets_process|]].
  - revert H. unfold Start, Cmd_Start. go_unfold.
    destruct (am_heap w !! am) as [a|]; simpl; [|discriminate].
    destruct (cmd a) as [c|]; simpl; [|discriminate].
    destruct (Process c); simpl; [discriminate|].
    destruct (exec_Start env w c); simpl; [|discriminate].
    intros [= <-]. simpl. unfold Millisecond. lia.
  - apply Start_heap in H as [[H _]|(a & c & pid & _ & Ha & Hc & Hp & Hh)];
      [congruence|].
    assert (am < length (am_heap w)) as Hlt by (eapply lookup_lt_Some; eauto).
    unfold Start, Cmd_Start. go_unfold. rewrite Hh.
    rewrite list_lookup_insert_eq by done. simpl.
    eexists. split; [reflexivity|]. simpl. split_and!; try reflexivity.
Qed.

(** X8: the identifier of a silence is read when a function fires.
    Once the function of [SetSilence] has had its request served with the
    identifier [sid], the silence holds [sid].  From then on the function
    of [DelSilence] for this silence asks for the deletion of [sid], and
    the function of a second [SetSilence] converts the silence as it is
    then: its request is [nativeSilence] of the identifier [sid] and the
    rest of the silence, where the first request was [nativeSilence] of
    the identifier the silence was declared with.  The deletion leaves
    the silence as it is. *)
Theorem X8_silence_ID_is_read_when_fired o to to' sil (w : World) s sid :
  silence_heap w !! sil = Some s ->
  api_Set env w to (nativeSilence D o (ID s) (body s)) = Ok sid ->
  exists w1,
    set_silence_action env o (Some to) sil w = (Ret tt, w1) /\
    api_calls w1 = api_calls w ++ [SetCall to (nativeSilence D o (ID s) (body s))] /\
    silence_heap w1 !! sil = Some {| ID := sid; body := body s |} /\
    forall w2 : World,
      silence_heap w2 = silence_heap w1 ->
      (exists w3,
         del_silence_action env (Some to') sil w2 = (Ret tt, w3) /\
         api_calls w3 = api_calls w2 ++ [DelCall to' sid] /\
         silence_heap w3 = silence_heap w2) /\
      (exists w3,
         set_silence_action env o (Some to') sil w2 = (Ret tt, w3) /\
         api_calls w3
         = api_calls w2 ++ [SetCall to' (nativeSilence D o sid (body s))]).
Proof.
  intros Hs Hok. unfold set_silence_action at 1. go_unfold.
  rewrite Hs. simpl. rewrite Hok. simpl.
  eexists. split; [reflexivity|]. simpl. split; [reflexivity|].
  assert (alter (with_ID sid) sil (silence_heap w) !! sil = Some (with_ID sid s))
    as Hs1.
  { rewrite list_lookup_alter_eq, Hs. done. }
  split; [exact Hs1|].
  intros w2 Hh. simpl in Hh.
  assert (silence_heap w2 !! sil = Some (with_ID sid s)) as Hs2.
  { by rewrite Hh. }
  split.
  - unfold del_silence_action. go_unfold. rewrite Hs2. simpl.
    match goal with |- context [api_Del env ?x ?y ?z] =>
      destruct (api_Del env x y z) end; simpl; eexists; split_and!; reflexivity.
  - unfold set_silence_action. go_unfold. rewrite Hs2. simpl.
    match goal with |- context [api_Set env ?x ?y ?z] =>
      destruct (api_Set env x y z) end; simpl; eexists; split_and!; reflexivity.
Qed.

End props.
End InstanceLife.

(** * How [Run] ends *)

Module RunOutcomes.
Import F64 GoTime Clock GoRt Harness HarnessSpec InstanceProps RunProps.
Local Open Scope go_scope.

Section props.
Context {D : Decls}.
Variable indef : float64 -> Z.
Variable env : Env D.

Local Abbreviation World := (World D).
Local Abbreviation AcceptanceTest := (AcceptanceTest D).
Local Abbreviation Action := (Action D).

Ltac go_unfold :=
  unfold load_am, store_am, load_silence, load_alert, log_call,
    syscall_Kill, os_RemoveAll,
    t_Fatal, t_Error, t_Log, time_Now, time_Sleep,
    bind, deref, ret, panic, goexit, get, modify in *.

(** ** Waiting for the deadline *)

(** X9: no collector is checked before its latest time.  When the clock
    is not before the base time and the [latest()] of every collector is
    a relative time of at most 9223372036 seconds, the pause of [Run]
    returns, and it ends at or after the absolute time of the [latest()]
    of every collector. *)
Theorem X9_collectors_are_checked_after_their_latest (t : AcceptanceTest) (w : World) :
  (baseTime (opts t) <= now w)%Z ->
  Forall (fun c => exists q, Collector_latest D c = Fin q /\ (Qabs q <= 9223372036)%Q)
         (collectors t) ->
  exists w',
    await_deadline indef t w = (Ret tt, w') /\
    (now w <= now w')%Z /\
    forall c, c ∈ collectors t ->
      (expandTime indef (opts t) (Collector_latest D c) <= now w')%Z.
Proof.
  intros Hbase Hall. unfold await_deadline. go_unfold. simpl.
  eexists. split; [reflexivity|]. simpl. split; [lia|].
  intros c Hc.
  pose proof (ConcurrentProps.pause_reaches_ts indef (opts t)
                (latest_of (collectors t)) (now w) (now w) ltac:(lia)) as Hd.
  eapply Z.le_trans; [|exact Hd].
  destruct (latest_of_is_greatest (collectors t)) as (_ & Hge & Hin).
  specialize (Hge c Hc).
  destruct (proj1 (Forall_forall _ _) Hall c Hc) as (q & Hq & Hqr).
  assert (exists l, latest_of (collectors t) = Fin l /\ (Qabs l <= 9223372036)%Q)
    as (l & Hl & Hlr).
  { destruct Hin as [->|(c' & Hc' & ->)].
    - exists 0%Q. split; [done|]. by vm_compute.
    - exact (proj1 (Forall_forall _ _) Hall c' Hc'). }
  rewrite Hq, Hl in *. apply ClockOrder.expandTime_mono; try done.
  simpl in Hge. apply negb_false_iff, Qle_bool_iff in Hge. exact Hge.
Qed.

(** ** What the parts of [Run] leave alone *)

Lemma apart_signals : apart (signals (D := D)).
Proof. by split_and!. Qed.

Lemma apart_files : apart (files (D := D)).
Proof. by split_and!. Qed.

Lemma apart_am_heap : apart (am_heap (D := D)).
Proof. by split_and!. Qed.

Lemma apart_api_calls : apart (api_calls (D := D)).
Proof. by split_and!. Qed.

Lemma apart_silence_heap : apart (silence_heap (D := D)).
Proof. by split_and!. Qed.

Lemma bind_keeps {X A B} (proj : World -> X) (m : M World A) (k : A -> M World B) :
  (forall u, proj (snd (m u)) = proj u) ->
  (forall a u, proj (snd (k a u)) = proj u) ->
  forall w, proj (snd (bind m k w)) = proj w.
Proof.
  intros Hm Hk w. unfold bind. specialize (Hm w).
  destruct (m w) as [o w1]. simpl in Hm.
  destruct o; simpl; rewrite ?Hk; exact Hm.
Qed.

Lemma for_each_keeps {X A} (proj : World -> X) (l : list A) (body : A -> M World unit) :
  (forall x u, proj (snd (body x u)) = proj u) ->
  forall w, proj (snd (for_each l body w)) = proj w.
Proof.
  intros Hbody. induction l as [|x l IH]; intros w; simpl; [done|].
  by apply bind_keeps.
Qed.

Lemma run_goroutines_keeps {X} (proj : World -> X) (l : list (Time * Action))
    done (w : World) :
  apart proj ->
  (forall g, g ∈ l -> forall u, proj (snd (snd g u)) = proj u) ->
  proj (snd (run_goroutines l done w)) = proj w.
Proof.
  intros (Hn & _ & _). revert done w.
  induction l as [|[ts f] l IH]; intros done w Hl; simpl.
  - by destruct done.
  - go_unfold. simpl.
    pose proof (Hl (ts, f) ltac:(by left)
                  (set_now (now w + Z.max 0 (Sub ts (now w)))%Z w)) as Hf.
    simpl in Hf. rewrite Hn in Hf.
    destruct (f _) as [o w'] eqn:E. simpl in Hf.
    assert (forall d, proj (snd (run_goroutines l d w')) = proj w) as Hrec.
    { intros d. rewrite IH; [exact Hf|]. intros g Hg. apply Hl. by right. }
    destruct o; simpl; auto.
Qed.

Lemma Run_body_keeps {X} (proj : World -> X) (t : AcceptanceTest) (w : World) :
  apart proj ->
  (forall k fs f, (k, fs) ∈ actions t -> f ∈ fs ->
     forall u, proj (snd (f u)) = proj u) ->
  proj (snd (Run_body indef env t w)) = proj w.
Proof.
  intros Hap Hact. pose proof Hap as (Hn & Ho & Hf). unfold Run_body. revert w.
  apply bind_keeps; [|intros _; apply bind_keeps; [|intros _; apply bind_keeps]].
  - intros u. unfold runActions. apply run_goroutines_keeps; [exact Hap|].
    intros g Hg%by_time_elem%(goroutines_elem indef).
    destruct Hg as (k & fs & Hin & Hg). by eapply Hact.
  - intros u. unfold await_deadline. go_unfold. simpl. apply Hn.
  - intros u. unfold check_collectors. apply for_each_keeps.
    intros c u'. go_unfold. simpl. apply Ho.
  - intros _ u. unfold log_outputs. apply for_each_keeps. intros am u'. go_unfold.
    destruct (am_heap u' !! am) as [a|]; simpl; [|done].
    destruct (cmd a) as [c|]; simpl; [|done]. by rewrite !Ho.
Qed.

Lemma Start_keeps am (w : World) :
  signals (snd (Start env am w)) = signals w /\
  files (snd (Start env am w)) = files w /\
  api_calls (snd (Start env am w)) = api_calls w /\
  silence_heap (snd (Start env am w)) = silence_heap w.
Proof.
  unfold Start, Cmd_Start. go_unfold.
  destruct (am_heap w !! am) as [a|]; simpl; [|done].
  destruct (cmd a) as [c|]; simpl; [|done].
  destruct (Process c); simpl; [done|].
  destruct (exec_Start env w c); simpl; done.
Qed.

Lemma start_all_keeps (l deferred : list nat) (w : World) :
  let r := start_all env l deferred w in
  signals (snd r) = signals w /\ files (snd r) = files w /\
  api_calls (snd r) = api_calls w /\ silence_heap (snd r) = silence_heap w.
Proof.
  revert deferred w. induction l as [|am l IH]; intros deferred w; simpl; [done|].
  destruct (Start_keeps am w) as (H1 & H2 & H3 & H4).
  destruct (Start env am w) as [o w'] eqn:HS. simpl in *.
  destruct o as [[]| | | |]; simpl; try done.
  destruct (IH (am :: deferred) w') as (H1' & H2' & H3' & H4').
  split_and!; congruence.
Qed.

(** ** The order of the teardowns *)

Lemma process_of_heap am (w w' : World) :
  am_heap w' = am_heap w -> process_of am w' = process_of am w.
Proof. unfold process_of. by intros ->. Qed.

Lemma term_signal_heap (w w' : World) am :
  am_heap w' = am_heap w -> term_signal w' am = term_signal w am.
Proof. unfold term_signal. intros H. by rewrite (process_of_heap _ _ _ H). Qed.

(** The deferred calls of running instances send their signals in the
    order they run in, and no other signal. *)
Lemma run_deferred_signals (deferred : list nat) o (w : World) :
  (forall am, am ∈ deferred -> running am w) ->
  exists w',
    run_deferred deferred o w = (o, w') /\
    am_heap w' = am_heap w /\
    api_calls w' = api_calls w /\
    signals w' = signals w ++ flat_map (term_signal w) deferred.
Proof.
  revert w. induction deferred as [|am rest IH]; intros w Hrun; simpl.
  - exists w. by rewrite app_nil_r.
  - destruct (teardown_running am w)
      as (w1 & p & f & a & c & HT & Ha & Hc & Hp & Hf & Hh & Hs & Hfs);
      [apply Hrun; by left|].
    rewrite HT.
    destruct (IH w1) as (w' & HR & Hh' & Hapi & Hs').
    { intros x Hx. eapply running_heap; [exact Hh|]. apply Hrun. by right. }
    exists w'. split; [exact HR|]. split; [congruence|]. split.
    + rewrite Hapi. revert HT. unfold teardown, Terminate, cleanup. go_unfold.
      rewrite Ha. simpl. rewrite Hc. simpl. rewrite Hp. simpl. rewrite Ha. simpl.
      rewrite Hf. simpl. by intros [= <-].
    + rewrite Hs', Hs, <- app_assoc. f_equal.
      unfold term_signal at 2. unfold process_of. rewrite Ha, Hc, Hp. simpl.
      f_equal. apply flat_map_ext. intros x. by apply term_signal_heap.
Qed.

(** X10: the teardowns run in the reverse order of the starts.  [Run]
    starts the instances in the order they were made in, up to the first
    one whose [Start] does not return.  When [Run] ends in its own
    goroutine and the scheduled functions neither touch the instances
    nor send signals, the signals sent during [Run] are the SIGTERM of
    each started instance, the last one started first, and nothing
    else; a [Run] that returns has started them all. *)
Theorem X10_teardowns_run_in_reverse (t : AcceptanceTest) (w w' : World) o :
  (forall am, am ∈ ams t -> built am w) ->
  (forall k fs f, (k, fs) ∈ actions t -> f ∈ fs ->
     forall u, am_heap (snd (f u)) = am_heap u /\ signals (snd (f u)) = signals u) ->
  Run indef env t w = (o, w') ->
  o <> Crashed -> o <> Blocked ->
  exists started rest,
    ams t = started ++ rest /\
    (o = Ret tt -> rest = []) /\
    Forall (fun am => is_Some (process_of am w')) started /\
    signals w' = signals w ++ flat_map (term_signal w') (reverse started).
Proof.
  intros Hb Hact HR Hc Hbl. unfold Run in HR.
  destruct (start_all env (ams t) [] w) as [[o1 deferred] w1] eqn:HS.
  destruct (start_all_spec _ _ _ _ _ _ _ HS Hb) as (Hrun & l1 & l2 & Hl & Hd & Hret).
  { intros am H. by apply not_elem_of_nil in H. }
  rewrite app_nil_r in Hd.
  pose proof (start_all_keeps (ams t) [] w) as (Hsig & _). rewrite HS in Hsig.
  simpl in Hsig.
  assert (forall o2 w2, am_heap w2 = am_heap w1 -> signals w2 = signals w1 ->
            run_deferred deferred o2 w2 = (o, w') ->
            o = o2 /\
            Forall (fun am => is_Some (process_of am w')) l1 /\
            signals w' = signals w ++ flat_map (term_signal w') (reverse l1)) as Hfin.
  { intros o2 w2 Hh Hs Hrd.
    destruct (run_deferred_signals deferred o2 w2) as (w'' & Hrd' & Hh' & _ & Hs').
    - intros am Ham. eapply running_heap; [exact Hh|]. by apply Hrun.
    - rewrite Hrd' in Hrd. injection Hrd as <- <-. split; [done|]. split.
      + apply Forall_forall. intros am Ham.
        assert (running am w1) as (a & c & p & f & Ha & Hc' & Hp & _).
        { apply Hrun. rewrite Hd. by apply elem_of_reverse. }
        unfold process_of. rewrite Hh', Hh, Ha, Hc', Hp. by eexists.
      + rewrite Hs', Hs, Hsig, <- Hd. f_equal. apply flat_map_ext. intros x.
        symmetry. by apply term_signal_heap. }
  exists l1, l2. split; [exact Hl|].
  destruct o1 as [[]| | | |].
  - pose proof (Run_body_keeps (X := list Alertmanager) am_heap t w1 apart_am_heap) as Hh.
    pose proof (Run_body_keeps (X := list (Z * Signal)) signals t w1 apart_signals) as Hs.
    destruct (Run_body indef env t w1) as [o2 w2]. simpl in Hh, Hs.
    assert (run_deferred deferred o2 w2 = (o, w')) as Hrd.
    { destruct o2; try done; injection HR as <- <-; congruence. }
    destruct (Hfin o2 w2) as (_ & H1 & H2); try done.
    + apply Hh. intros k fs f Hk Hf u. by apply (Hact k fs f).
    + apply Hs. intros k fs f Hk Hf u. by apply (Hact k fs f).
    + split; [intros _; by apply Hret|]. by split.
  - destruct (Hfin _ _ eq_refl eq_refl HR) as (-> & H1 & H2). by split_and!.
  - destruct (Hfin _ _ eq_refl eq_refl HR) as (-> & H1 & H2). by split_and!.
  - injection HR as <- <-. congruence.
  - injection HR as <- <-. congruence.
Qed.

(** ** Functions that do not return *)

Lemma insert_by_time_has (g x : Time * Action) l :
  x = g \/ x ∈ l -> x ∈ insert_by_time g l.
Proof.
  induction l as [|g' l IH]; simpl.
  - intros [->|H]; [by left|by apply not_elem_of_nil in H].
  - destruct (fst g <? fst g')%Z.
    + intros [->|H]; [by left|by right].
    + intros [->|[->|H]%elem_of_cons]; [right; apply IH; by left|by left|].
      right. apply IH. by right.
Qed.

Lemma by_time_has (x : Time * Action) l : x ∈ l -> x ∈ by_time l.
Proof.
  unfold by_time. intros H%elem_of_reverse. revert H.
  induction (reverse l) as [|g l' IH]; simpl; [done|].
  intros [->|H]%elem_of_cons; apply insert_by_time_has; [by left|right; by apply IH].
Qed.

Lemma goroutines_has (t : AcceptanceTest) k fs f :
  (k, fs) ∈ actions t -> f ∈ fs ->
  (expandTime indef (opts t) k, f) ∈ goroutines indef t.
Proof.
  intros Hk Hf. unfold goroutines. apply list_elem_of_In, in_flat_map.
  exists (k, fs). split; [by apply list_elem_of_In|].
  apply in_map_iff. exists f. split; [done|by apply list_elem_of_In].
Qed.

(** The goroutines end in a return of [wg.Wait()], in a crash or in a
    wait for ever; they return only when every function has. *)
Lemma run_goroutines_outcome (l : list (Time * Action)) done (w : World) :
  let r := run_goroutines l done w in
  (fst r = Ret tt \/ fst r = Crashed \/ fst r = Blocked) /\
  (fst r = Ret tt -> done = true /\ forall g, g ∈ l -> exists u, fst (snd g u) = Ret tt).
Proof.
  revert done w. induction l as [|[ts f] l IH]; intros done w; simpl.
  - destruct done; simpl; split; auto; try discriminate.
    intros _. split; [done|]. intros g Hg. by apply not_elem_of_nil in Hg.
  - go_unfold. simpl.
    set (u := set_now (now w + Z.max 0 (Sub ts (now w)))%Z w).
    destruct (f u) as [o w'] eqn:E.
    destruct o as [[]| | | |]; simpl; try (split; [auto|discriminate]).
    + destruct (IH done w') as [H1 H2]. split; [exact H1|].
      intros Hr. destruct (H2 Hr) as [Hd Hall]. split; [exact Hd|].
      intros g [->|Hg]%elem_of_cons; [|by apply Hall].
      exists u. simpl. by rewrite E.
    + destruct (IH false w') as [H1 H2]. split; [exact H1|].
      intros Hr. by destruct (H2 Hr).
    + destruct (IH false w') as [H1 H2]. split; [exact H1|].
      intros Hr. by destruct (H2 Hr).
Qed.

(** X11: a scheduled function that does not return keeps [Run] from
    tearing down.  When every instance was started and one of the
    scheduled functions never returns (it panics, leaves its goroutine or
    hangs), [Run] ends where [runActions] ends, by the crash of the
    process or by waiting for ever: it does not wait for the deadline,
    checks no collector and tears no instance down. *)
Theorem X11_a_function_that_does_not_return_stops_Run (t : AcceptanceTest)
    (w w1 : World) deferred k fs f :
  (k, fs) ∈ actions t -> f ∈ fs ->
  (forall u, fst (f u) <> Ret tt) ->
  start_all env (ams t) [] w = (Ret tt, deferred, w1) ->
  Run indef env t w = runActions indef t w1 /\
  (fst (Run indef env t w) = Crashed \/ fst (Run indef env t w) = Blocked).
Proof.
  intros Hk Hf Hnever HS.
  pose proof (run_goroutines_outcome (by_time (goroutines indef t)) true w1) as [H1 H2].
  assert (fst (runActions indef t w1) <> Ret tt) as Hne.
  { intros Hr. destruct (H2 Hr) as [_ Hall].
    destruct (Hall (expandTime indef (opts t) k, f)) as (u & Hu).
    - by apply by_time_has, goroutines_has with fs.
    - by apply (Hnever u). }
  assert (Run indef env t w = runActions indef t w1) as HR.
  { unfold Run. rewrite HS. unfold Run_body, bind.
    fold (runActions indef t w1) in H1.
    destruct (runActions indef t w1) as [o w2]. simpl in *.
    destruct H1 as [->|[->| ->]]; done. }
  split; [exact HR|]. rewrite HR.
  destruct H1 as [H1|H1]; [contradiction|exact H1].
Qed.

(** ** A test of requests only *)

(** A request reaches the server once and returns, whatever the server
    answers; it touches no instance, file or signal. *)
Lemma request_fires n (f : Action) (w : World) :
  request env n f -> length (silence_heap w) = n ->
  exists w',
    f w = (Ret tt, w') /\
    length (silence_heap w') = n /\
    length (api_calls w') = S (length (api_calls w)).
Proof.
  intros Hreq Hn. destruct Hreq as [to nas|o to sil Hsil|to sil Hsil].
  - unfold push_action. go_unfold. simpl.
    match goal with |- context [api_Push env ?x ?y ?z] =>
      destruct (api_Push env x y z) end; simpl;
      eexists; split_and!; try reflexivity; simpl; try done;
      rewrite length_app; simpl; lia.
  - destruct (lookup_lt_is_Some_2 (silence_heap w) sil ltac:(lia)) as [s Hs].
    unfold set_silence_action. go_unfold. rewrite Hs. simpl.
    match goal with |- context [api_Set env ?x ?y ?z] =>
      destruct (api_Set env x y z) end; simpl;
      eexists; split_and!; try reflexivity; simpl; try done;
      rewrite ?length_alter; try done;
      rewrite length_app; simpl; lia.
  - destruct (lookup_lt_is_Some_2 (silence_heap w) sil ltac:(lia)) as [s Hs].
    unfold del_silence_action. go_unfold. rewrite Hs. simpl.
    match goal with |- context [api_Del env ?x ?y ?z] =>
      destruct (api_Del env x y z) end; simpl;
      eexists; split_and!; try reflexivity; simpl; try done;
      rewrite length_app; simpl; lia.
Qed.

Lemma request_keeps n (f : Action) (u : World) :
  request env n f ->
  am_heap (snd (f u)) = am_heap u /\ signals (snd (f u)) = signals u /\
  files (snd (f u)) = files u.
Proof.
  intros Hreq. destruct Hreq as [to nas|o to sil Hsil|to sil Hsil].
  - unfold push_action. go_unfold. simpl.
    match goal with |- context [api_Push env ?x ?y ?z] =>
      destruct (api_Push env x y z) end; done.
  - unfold set_silence_action. go_unfold.
    destruct (silence_heap u !! sil) as [s|]; simpl; [|done].
    match goal with |- context [api_Set env ?x ?y ?z] =>
      destruct (api_Set env x y z) end; done.
  - unfold del_silence_action. go_unfold.
    destruct (silence_heap u !! sil) as [s|]; simpl; [|done].
    match goal with |- context [api_Del env ?x ?y ?z] =>
      destruct (api_Del env x y z) end; done.
Qed.

Lemma run_requests n (l : list (Time * Action)) (w : World) :
  (forall g, g ∈ l -> request env n (snd g)) ->
  length (silence_heap w) = n ->
  exists w',
    run_goroutines l true w = (Ret tt, w') /\
    length (silence_heap w') = n /\
    length (api_calls w') = length (api_calls w) + length l.
Proof.
  revert w. induction l as [|[ts f] l IH]; intros w Hl Hn; simpl.
  - exists w. split_and!; by rewrite ?Nat.add_0_r.
  - go_unfold. simpl.
    set (u := set_now (now w + Z.max 0 (Sub ts (now w)))%Z w).
    destruct (request_fires n f u) as (w1 & Hf & Hn1 & Hc1);
      [apply (Hl (ts, f)); by left|done|].
    rewrite Hf.
    destruct (IH w1) as (w' & HR & Hn' & Hc'); [intros g Hg; apply Hl; by right|done|].
    exists w'. split_and!; try done. rewrite Hc', Hc1. simpl. lia.
Qed.

Lemma length_insert_by_time (g : Time * Action) l :
  length (insert_by_time g l) = S (length l).
Proof.
  induction l as [|g' l IH]; simpl; [done|].
  destruct (fst g <? fst g')%Z; simpl; by rewrite ?IH.
Qed.

Lemma length_by_time (l : list (Time * Action)) : length (by_time l) = length l.
Proof.
  unfold by_time. rewrite <- (length_reverse l).
  induction (reverse l) as [|g l' IH]; simpl; [done|].
  by rewrite length_insert_by_time, IH.
Qed.

Lemma length_goroutines (t : AcceptanceTest) :
  length (goroutines indef t) = length (flat_map snd (actions t)).
Proof.
  unfold goroutines. induction (actions t) as [|[k fs] m IH]; simpl; [done|].
  by rewrite !length_app, length_map, IH.
Qed.

(** [runActions] on a registry of requests. *)
Lemma runActions_requests (t : AcceptanceTest) (w : World) :
  (forall k fs f, (k, fs) ∈ actions t -> f ∈ fs ->
     request env (length (silence_heap w)) f) ->
  exists w',
    runActions indef t w = (Ret tt, w') /\
    length (api_calls w') = length (api_calls w) + length (flat_map snd (actions t)) /\
    am_heap w' = am_heap w /\ signals w' = signals w /\ files w' = files w.
Proof.
  intros Hreq.
  assert (forall g, g ∈ by_time (goroutines indef t) ->
            request env (length (silence_heap w)) (snd g)) as Hl.
  { intros g Hg%by_time_elem%(goroutines_elem indef).
    destruct Hg as (k & fs & Hk & Hf). by eapply Hreq. }
  destruct (run_requests _ _ w Hl eq_refl) as (w' & HR & _ & Hc).
  exists w'. split; [exact HR|].
  rewrite length_by_time, length_goroutines in Hc. split; [exact Hc|].
  unfold runActions in *.
  pose proof (run_goroutines_keeps (X := list Alertmanager) am_heap
                (by_time (goroutines indef t)) true w apart_am_heap) as H1.
  pose proof (run_goroutines_keeps (X := list (Z * Signal)) signals
                (by_time (goroutines indef t)) true w apart_signals) as H2.
  pose proof (run_goroutines_keeps (X := gmap string string) files
                (by_time (goroutines indef t)) true w apart_files) as H3.
  rewrite HR in H1, H2, H3. simpl in *.
  split_and!; [apply H1|apply H2|apply H3]; intros g Hg u;
    by destruct (request_keeps _ (snd g) u (Hl g Hg)) as (? & ? & ?).
Qed.


(** X12: the requests of a test are all sent, once each.  When the
    registry holds only functions of [Push], [SetSilence] and
    [DelSilence] for instances that have their client and for silences
    that exist, [runActions] returns: whatever the server answers, no
    function panics or stops the others, there are as many requests as
    scheduled functions, and the functions leave the instances, the
    files and the signals alone. *)
Theorem X12_requests_are_all_sent (t : AcceptanceTest) (w : World) :
  (forall k fs f, (k, fs) ∈ actions t -> f ∈ fs ->
     request env (length (silence_heap w)) f) ->
  exists w',
    runActions indef t w = (Ret tt, w') /\
    length (api_calls w') = length (api_calls w) + length (flat_map snd (actions t)) /\
    am_heap w' = am_heap w /\ signals w' = signals w /\ files w' = files w.
Proof. apply runActions_requests. Qed.

(** ** A run from the start to the teardown *)

Lemma Start_unstarted am (w : World) :
  (forall u c, exists pid, exec_Start env u c = Ok pid) ->
  unstarted am w ->
  exists w',
    Start env am w = (Ret tt, w') /\
    running am w' /\
    (forall x, x <> am -> unstarted x w -> unstarted x w') /\
    (forall x, running x w -> running x w').
Proof.
  intros Hexec (a & c & f & Ha & Hc & Hp & Hf).
  destruct (Hexec w c) as [pid Hpid].
  assert (am < length (am_heap w)) as Hlt by (eapply lookup_lt_Some; eauto).
  assert (exists w', Start env am w = (Ret tt, w')) as [w' HS].
  { unfold Start, Cmd_Start. go_unfold. rewrite Ha. simpl. rewrite Hc. simpl.
    rewrite Hp, Hpid. simpl. by eexists. }
  exists w'. split; [exact HS|].
  destruct (Start_step env _ _ _ _ HS) as (_ & Hr & Hnew).
  split; [apply Hnew; [done|by exists a, f]|]. split; [|exact Hr].
  intros x Hx (a0 & c0 & f0 & Ha0 & Hc0 & Hp0 & Hf0).
  apply Start_heap in HS as [[H _]|(a1 & c1 & pid1 & _ & _ & _ & _ & Hh)]; [done|].
  exists a0, c0, f0. rewrite Hh, list_lookup_insert_ne by done. done.
Qed.

Lemma start_all_returns (l deferred : list nat) (w : World) :
  (forall u c, exists pid, exec_Start env u c = Ok pid) ->
  NoDup l ->
  (forall am, am ∈ l -> unstarted am w) ->
  (forall am, am ∈ deferred -> running am w) ->
  exists w1,
    start_all env l deferred w = (Ret tt, reverse l ++ deferred, w1) /\
    (forall am, am ∈ reverse l ++ deferred -> running am w1).
Proof.
  intros Hexec. revert deferred w.
  induction l as [|am l IH]; intros deferred w Hnd Hun Hrun; simpl.
  - exists w. split; [done|]. exact Hrun.
  - apply NoDup_cons in Hnd as [Hnotin Hnd].
    destruct (Start_unstarted am w Hexec) as (w' & HS & Hnew & Hother & Hkeep);
      [apply Hun; by left|].
    rewrite HS.
    destruct (IH (am :: deferred) w' Hnd) as (w1 & HA & Hall).
    + intros x Hx. apply Hother; [|apply Hun; by right].
      intros ->. contradiction.
    + intros x [->|Hx]%elem_of_cons; [exact Hnew|by apply Hkeep, Hrun].
    + exists w1. rewrite reverse_cons, <- app_assoc. by split.
Qed.

Lemma log_outputs_returns (t : AcceptanceTest) (w : World) :
  (forall am, am ∈ ams t -> running am w) ->
  exists w', log_outputs t w = (Ret tt, w').
Proof.
  unfold log_outputs. generalize (ams t) as l. intros l.
  match goal with |- context [for_each l ?b] => set (body := b) end.
  assert (forall am u, running am u ->
            exists u', body am u = (Ret tt, u') /\ am_heap u' = am_heap u) as Hbody.
  { intros am u (a & c & p & f & Ha & Hc & Hp & Hf). unfold body.
    unfold load_am, t_Log, bind, deref, ret, modify.
    rewrite Ha. simpl. rewrite Hc. simpl. by eexists. }
  clearbody body. revert w.
  induction l as [|am l IH]; intros w Hrun; simpl; [by eexists|].
  destruct (Hbody am w) as (u' & Hb & Hh); [apply Hrun; by left|].
  unfold bind. rewrite Hb. apply IH.
  intros x Hx. eapply running_heap; [exact Hh|]. apply Hrun. by right.
Qed.

(** X13: a test of requests runs from the start to the teardown.  When
    the instances of the test are distinct and not started, the system
    starts every command, and the registry holds only requests (for
    instances that have their client and silences that exist), [Run]
    returns; every instance is then torn down, and there were as many
    requests as scheduled functions. *)
Theorem X13_a_test_of_requests_runs_to_the_end (t : AcceptanceTest) (w : World) :
  (forall u c, exists pid, exec_Start env u c = Ok pid) ->
  NoDup (ams t) ->
  (forall am, am ∈ ams t -> unstarted am w) ->
  (forall k fs f, (k, fs) ∈ actions t -> f ∈ fs ->
     request env (length (silence_heap w)) f) ->
  exists w',
    Run indef env t w = (Ret tt, w') /\
    (forall am, am ∈ ams t -> torn_down am w') /\
    length (api_calls w') = length (api_calls w) + length (flat_map snd (actions t)).
Proof.
  intros Hexec Hnd Hun Hreq.
  destruct (start_all_returns (ams t) [] w Hexec Hnd Hun) as (w1 & HS & Hrun).
  { intros am H. by apply not_elem_of_nil in H. }
  rewrite app_nil_r in HS, Hrun.
  pose proof (start_all_keeps (ams t) [] w) as (_ & _ & Hapi1 & Hsil1).
  rewrite HS in Hapi1, Hsil1. simpl in Hapi1, Hsil1.
  destruct (runActions_requests t w1) as (w2 & HA & Hc2 & Hh2 & _).
  { rewrite Hsil1. exact Hreq. }
  assert (exists w3, await_deadline indef t w2 = (Ret tt, w3) /\
                     am_heap w3 = am_heap w2 /\ api_calls w3 = api_calls w2)
    as (w3 & HW & Hh3 & Hc3).
  { unfold await_deadline. go_unfold. simpl. by eexists. }
  destruct (check_loop env (collectors t) w3) as (w4 & HC & _ & _ & Hh4 & _).
  assert (api_calls w4 = api_calls w3) as Hc4.
  { pose proof (for_each_keeps (X := list (ApiCall D)) api_calls (collectors t)
                  (fun coll => let* w := get in t_Log (Collector_check env coll w))
                  ltac:(by intros) w3) as H.
    by rewrite HC in H. }
  destruct (log_outputs_returns t w4) as (w5 & HL).
  { intros am Ham. eapply running_heap; [|apply Hrun; by apply elem_of_reverse].
    congruence. }
  pose proof (log_outputs_heap t w4) as Hh5.
  pose proof (for_each_keeps (X := list (ApiCall D)) api_calls (ams t)
                (fun am => let* a := load_am am in
                           let* c := deref (cmd a) in
                           t_Log ("stdout:" ++ newline ++ Stdout c) ;;
                           t_Log ("stderr:" ++ newline ++ Stderr c))) as Hc5.
  specialize (Hc5 ltac:(intros am u; go_unfold;
                         destruct (am_heap u !! am) as [a|]; simpl; [|done];
                         destruct (cmd a); simpl; done) w4).
  fold (log_outputs t) in Hc5. rewrite HL in Hh5, Hc5. simpl in Hh5, Hc5.
  assert (Run_body indef env t w1 = (Ret tt, w5)) as HB.
  { unfold Run_body, bind. rewrite HA, HW. unfold check_collectors. by rewrite HC. }
  destruct (run_deferred_spec (reverse (ams t)) (Ret tt) w5)
    as (w' & HR & _ & _ & _ & Htd).
  { intros am Ham. eapply running_heap; [|by apply Hrun]. congruence. }
  pose proof (run_deferred_signals (reverse (ams t)) (Ret tt) w5) as (w'' & HR' & _ & Hc6 & _).
  { intros am Ham. eapply running_heap; [|by apply Hrun]. congruence. }
  rewrite HR in HR'. injection HR' as <-.
  exists w'. split; [|split].
  - unfold Run. by rewrite HS, HB.
  - intros am Ham. by apply Htd, elem_of_reverse.
  - congruence.
Qed.

(** ** An empty test *)


End props.
End RunOutcomes.

(** * From the registry to the goroutines *)

Module RegistryGoroutines.
Import F64 GoTime Clock GoRt Harness HarnessSpec ClockProps.

Section props.
Context {D : Decls}.
Variable indef : float64 -> Z.

Local Abbreviation AcceptanceTest := (AcceptanceTest D).
Local Abbreviation Action := (Action D).

(** Keys that are [==] expand to the same absolute time. *)
Lemma expandTime_eqb (o : AcceptanceOpts) k k' :
  eqb k k' = true -> expandTime indef o k = expandTime indef o k'.
Proof.
  destruct k as [a|s|], k' as [b|s'|]; simpl; try discriminate.
  - intros H%Qeq_bool_iff. unfold expandTime. rewrite of_int64_Second.
    change (mul (Fin a) (Fin 1000000000)) with (round (a * 1000000000)).
    change (mul (Fin b) (Fin 1000000000)) with (round (b * 1000000000)).
    rewrite (ClockOrder.round_comp (a * 1000000000) (b * 1000000000)); [done|].
    by rewrite H.
  - intros H%Bool.eqb_prop. by subst.
Qed.

(** The goroutines of a registry. *)
Local Abbreviation spawned o :=
  (flat_map (fun '(at_, fs) =>
               let ts := expandTime indef o at_ in
               map (fun f : Action => (ts, f)) fs)).

Lemma append_at_goroutines (o : AcceptanceOpts) (m : list (float64 * list Action))
    at_ f :
  spawned o (map_set m at_ (default [] (map_get m at_) ++ [f]))
  ≡ₚ spawned o m ++ [(expandTime indef o at_, f)].
Proof.
  induction m as [|[k v] m IH]; simpl; [done|].
  destruct (eqb k at_) eqn:E; simpl.
  - rewrite map_app. simpl. rewrite (expandTime_eqb o k at_ E).
    rewrite <- !app_assoc. apply Permutation_app_head.
    apply Permutation_app_comm.
  - rewrite IH. by rewrite app_assoc.
Qed.

(** X14: every function passed to [Do] gets one goroutine.  After any
    sequence of calls of [Do], the goroutines that [runActions] starts
    are those of the registry before the calls and one more for each
    call, which wakes up at the absolute time of the [at] of its call:
    whatever the keys are (equal times, NaN), no function is lost and
    none is run twice.  The order of the goroutines is that of the
    iteration over the map, which is not specified. *)
Theorem X14_every_call_of_Do_gets_a_goroutine (t : AcceptanceTest)
    (calls : list (float64 * Action)) :
  goroutines indef (schedule t calls)
  ≡ₚ goroutines indef t
     ++ map (fun c => (expandTime indef (opts t) (fst c), snd c)) calls.
Proof.
  revert t. induction calls as [|[at_ f] calls IH]; intros t; simpl.
  - by rewrite app_nil_r.
  - rewrite IH. simpl. unfold goroutines at 1. simpl.
    rewrite append_at_goroutines. by rewrite <- app_assoc.
Qed.

End props.
End RegistryGoroutines.

(** * The progress of the goroutines *)

Module ConcurrentProgress.
Import F64 GoTime Clock Concurrent ConcurrentSpec ConcurrentProps.

Section props.
Context {F : Type}.
Variable indef : float64 -> Z.
Variable opts : AcceptanceOpts.

Local Abbreviation state := (state (F := F)).
Local Abbreviation goroutine := (goroutine (F := F)).
Local Abbreviation step := (step (F := F) indef opts).
Local Abbreviation reachable := (reachable (F := F) indef opts).
Local Abbreviation invariant := (invariant (F := F) indef opts).
Local Abbreviation finishes := (finishes (F := F) indef opts).
Local Abbreviation can_return := (can_return (F := F) indef opts).

Implicit Types (g : goroutine) (l : list goroutine) (s : state).
Implicit Types (registry : list (float64 * list F)).

(** X15: the wait group counts the functions that have not finished.  In
    every state of a run of [runActions] the counter is the number of
    goroutines that have not called [wg.Done()] plus the number of
    goroutines of the current entry that are not started yet; it is
    never negative, so that [wg.Done()] never panics, and there are
    never more goroutines than registered functions. *)
Theorem X15_the_wait_group_counts_the_unfinished registry n s :
  (baseTime opts <= n)%Z ->
  reachable n registry s ->
  wg s = (live (gs s) + pending (main s))%Z /\
  (0 <= wg s)%Z /\
  length (gs s) + length (remaining (main s)) = length (flatten registry).
Proof.
  intros Hn Hr. destruct (invariant_reachable indef opts registry n s Hn Hr)
    as [_ _ Hw Ha _ _].
  split; [exact Hw|]. split.
  - rewrite Hw. pose proof (live_nonneg (gs s)).
    destruct (main s); simpl; lia.
  - rewrite <- Ha, length_app, length_map. done.
Qed.

(** ** [runActions] can always come to its end *)

Lemma go_loop fs : forall s at_ ts rest,
  main s = MGo at_ ts fs rest ->
  exists s', rtc step s s' /\ main s' = MRange rest.
Proof.
  induction fs as [|f fs IH]; intros s at_ ts rest Hm.
  - eexists. split; [eapply rtc_once, step_next; exact Hm|done].
  - edestruct (IH {| clock := clock s; wg := wg s; main := MGo at_ ts fs rest;
                     gs := gs s ++ [spawn at_ ts f] |}) as (s' & Hs & Hm');
      [reflexivity|].
    exists s'. split; [|exact Hm'].
    eapply rtc_l; [eapply step_go; exact Hm|exact Hs].
Qed.

Lemma range_loop rest : forall s,
  main s = MRange rest ->
  exists s', rtc step s s' /\ main s' = MWait.
Proof.
  induction rest as [|[at_ fs] rest IH]; intros s Hm.
  - eexists. split; [eapply rtc_once, step_wait; exact Hm|done].
  - edestruct (go_loop fs {| clock := clock s; wg := (wg s + Z.of_nat (length fs))%Z;
                             main := MGo at_ (expandTime indef opts at_) fs rest;
                             gs := gs s |}) as (s1 & Hs1 & Hm1); [reflexivity|].
    destruct (IH s1 Hm1) as (s' & Hs' & Hm').
    exists s'. split; [|exact Hm'].
    eapply rtc_l; [eapply step_range; exact Hm|]. by etrans.
Qed.

(** From every state [runActions] can get to [wg.Wait()]. *)
Lemma main_to_wait s :
  exists s', rtc step s s' /\ (main s' = MWait \/ exists tr, main s' = MReturned tr).
Proof.
  destruct (main s) as [rest|at_ ts fs rest| |tr] eqn:Hm.
  - destruct (range_loop rest s Hm) as (s' & Hs & Hm'). exists s'. auto.
  - destruct (go_loop fs s at_ ts rest Hm) as (s1 & Hs1 & Hm1).
    destruct (range_loop rest s1 Hm1) as (s' & Hs & Hm'). exists s'.
    split; [by etrans|auto].
  - exists s. split; [done|auto].
  - exists s. split; [done|]. right. by exists tr.
Qed.

(** One step of the goroutine [i], then the rest of its way. *)
Lemma finishes_after s s1 s' i g g' :
  gs s !! i = Some g ->
  step s s1 -> main s1 = main s -> gs s1 = <[i := g']> (gs s) ->
  finishes i s1 s' -> finishes i s s'.
Proof.
  intros Hi Hstep Hm Hg (Hr & Hm' & Hl & Hd & Ho).
  split_and!.
  - by eapply rtc_l.
  - congruence.
  - by rewrite Hl, Hg, length_insert.
  - exact Hd.
  - intros j Hj. rewrite (Ho j Hj), Hg. by apply list_lookup_insert_ne.
Qed.

Lemma lookup_with_g s i g g' :
  gs s !! i = Some g -> gs (with_g i g' s) !! i = Some g'.
Proof.
  intros H. simpl. apply list_lookup_insert_eq. by eapply lookup_lt_Some.
Qed.

Lemma finishes_returned s i g :
  gs s !! i = Some g -> g_pc g = GReturned -> exists s', finishes i s s'.
Proof.
  intros Hi Hpc.
  exists {| clock := clock s; wg := (wg s - 1)%Z; main := main s;
            gs := <[i := set_pc GDone g]> (gs s) |}.
  split_and!; simpl.
  - by eapply rtc_once, step_done.
  - done.
  - by rewrite length_insert.
  - eexists. split; [apply list_lookup_insert_eq; by eapply lookup_lt_Some|done].
  - intros j Hj. by apply list_lookup_insert_ne.
Qed.

Lemma finishes_running s i g :
  gs s !! i = Some g -> g_pc g = GRunning -> exists s', finishes i s s'.
Proof.
  intros Hi Hpc.
  destruct (finishes_returned (with_g i (finish_at (clock s) g) s) i
              (finish_at (clock s) g)) as (s' & Hf);
    [by eapply lookup_with_g|done|].
  exists s'. eapply (finishes_after s _ s' i g); try exact Hf; try done.
  by apply step_finish.
Qed.

Lemma finishes_woken s i g :
  gs s !! i = Some g -> g_pc g = GWoken -> exists s', finishes i s s'.
Proof.
  intros Hi Hpc.
  destruct (finishes_running (with_g i (call_at (clock s) g) s) i
              (call_at (clock s) g)) as (s' & Hf);
    [by eapply lookup_with_g|done|].
  exists s'. eapply (finishes_after s _ s' i g); try exact Hf; try done.
  by apply step_call.
Qed.

Lemma finishes_sleeping s i g wake :
  gs s !! i = Some g -> g_pc g = GSleeping wake -> exists s', finishes i s s'.
Proof.
  intros Hi Hpc.
  set (s0 := {| clock := (clock s + Z.max 0 (wake - clock s))%Z; wg := wg s;
                main := main s; gs := gs s |} : state).
  destruct (finishes_woken (with_g i (set_pc GWoken g) s0) i (set_pc GWoken g))
    as (s' & Hf); [by eapply (lookup_with_g s0)|done|].
  exists s'.
  assert (finishes i s0 s') as (Hr & Hm' & Hl & Hd & Ho).
  { eapply (finishes_after s0 _ s' i g); try exact Hf; try done.
    eapply (step_wake indef opts s0 i g wake); try done. simpl. lia. }
  split_and!; try done.
  eapply rtc_l; [|exact Hr]. apply (step_tick indef opts s). lia.
Qed.

Lemma finishes_gotnow s i g n :
  gs s !! i = Some g -> g_pc g = GGotNow n -> exists s', finishes i s s'.
Proof.
  intros Hi Hpc.
  set (g1 := set_pc (GSleeping (clock s + Z.max 0 (Sub (g_ts g) n))%Z) g).
  destruct (finishes_sleeping (with_g i g1 s) i g1 _ (lookup_with_g s i g g1 Hi) eq_refl)
    as (s' & Hf).
  exists s'. eapply (finishes_after s _ s' i g); try exact Hf; try done.
  by apply step_sleep.
Qed.

(** Every goroutine can get to its [wg.Done()]. *)
Lemma goroutine_can_finish s i g :
  gs s !! i = Some g -> exists s', finishes i s s'.
Proof.
  intros Hi. destruct (g_pc g) eqn:Hpc.
  - set (g1 := set_pc (GGotNow (clock s)) g).
    destruct (finishes_gotnow (with_g i g1 s) i g1 _ (lookup_with_g s i g g1 Hi) eq_refl)
      as (s' & Hf).
    exists s'. eapply (finishes_after s _ s' i g); try exact Hf; try done.
    by apply step_now.
  - by eapply finishes_gotnow.
  - by eapply finishes_sleeping.
  - by eapply finishes_woken.
  - by eapply finishes_running.
  - by eapply finishes_returned.
  - exists s. split_and!; try done. by exists g.
Qed.

Lemma goroutines_can_finish k : forall s,
  k <= length (gs s) ->
  exists s',
    rtc step s s' /\ main s' = main s /\ length (gs s') = length (gs s) /\
    forall j, j < k -> exists g', gs s' !! j = Some g' /\ g_pc g' = GDone.
Proof.
  induction k as [|k IH]; intros s Hk.
  - exists s. split_and!; try done. intros j Hj. lia.
  - destruct (IH s ltac:(lia)) as (s1 & Hr1 & Hm1 & Hl1 & Hd1).
    destruct (lookup_lt_is_Some_2 (gs s1) k ltac:(lia)) as [g Hg].
    destruct (goroutine_can_finish s1 k g Hg) as (s' & Hr & Hm & Hl & Hd & Ho).
    exists s'. split_and!; try congruence.
    + by etrans.
    + intros j Hj. destruct (decide (j = k)) as [->|Hne]; [exact Hd|].
      rewrite (Ho j Hne). apply Hd1. lia.
Qed.

Lemma live_done l : Forall (fun g => g_pc g = GDone) l -> live l = 0%Z.
Proof.
  induction 1 as [|g l Hg _ IH]; simpl; [done|].
  unfold is_done. rewrite Hg, IH. done.
Qed.

(** X16: [runActions] can always come to its end.  From every state of a
    run in which the scheduled functions return, whatever the
    interleaving was so far, there is a way on to a state in which
    [wg.Wait()] has returned: the counter was raised for every goroutine
    before it could finish, no goroutine waits for another one, and a
    pause always ends. *)
Theorem X16_runActions_can_always_return registry n s :
  (baseTime opts <= n)%Z ->
  reachable n registry s ->
  can_return s.
Proof.
  intros Hn Hreach.
  destruct (main_to_wait s) as (s1 & Hr1 & [Hm1|(tr & Hm1)]);
    [|by exists s1, tr].
  destruct (goroutines_can_finish (length (gs s1)) s1 ltac:(done))
    as (s2 & Hr2 & Hm2 & Hl2 & Hd2).
  assert (reachable n registry s2) as Hreach2.
  { unfold reachable, Concurrent.reachable in *. etrans; [exact Hreach|]. by etrans. }
  destruct (invariant_reachable indef opts registry n s2 Hn Hreach2)
    as [_ _ Hw _ _ _].
  assert (wg s2 = 0%Z) as Hz.
  { rewrite Hw, Hm2, Hm1. simpl. rewrite live_done; [done|].
    apply Forall_lookup. intros j g Hj.
    destruct (Hd2 j) as (g' & Hg' & Hpc).
    - rewrite <- Hl2. by eapply lookup_lt_Some.
    - congruence. }
  exists (with_main (MReturned (clock s2)) s2), (clock s2). split; [|done].
  etrans; [exact Hr1|]. etrans; [exact Hr2|].
  apply rtc_once, step_return; [congruence|exact Hz].
Qed.

End props.
End ConcurrentProgress.

(** * Properties of the configuration package *)

Module ConfigProps.
Import Config.

(** ** Strings *)

Lemma eqb_empty (s : string) : String.eqb s "" = false <-> s <> ""%string.
Proof. apply String.eqb_neq. Qed.

Lemma length_append (s u : string) :
  String.length (s ++ u)%string = String.length s + String.length u.
Proof.
  induction s as [|a s IH]; [done|].
  change (String a s ++ u)%string with (String a (s ++ u))%string. simpl. by rewrite IH.
Qed.

Lemma substring_end (s u : string) :
  String.substring (String.length s) (String.length u) (s ++ u)%string = u.
Proof.
  induction s as [|a s IH].
  - change ("" ++ u)%string with u. simpl.
    induction u as [|b u IHu]; simpl; [done|]. by rewrite IHu.
  - change (String a s ++ u)%string with (String a (s ++ u))%string. simpl. exact IH.
Qed.

Lemma HasSuffix_append (s u : string) : HasSuffix (s ++ u) u = true.
Proof.
  unfold HasSuffix. rewrite length_append.
  replace (String.length s + String.length u - String.length u)
    with (String.length s) by lia.
  rewrite substring_end, String.eqb_refl, andb_true_r. apply Nat.leb_le. lia.
Qed.

Lemma append_not_empty (s u : string) : u <> ""%string -> (s ++ u)%string <> ""%string.
Proof.
  intros Hu H. apply (f_equal String.length) in H. rewrite length_append in H.
  destruct u; [done|]. simpl in H. lia.
Qed.

Section props.
Context {L : Lib}.

Implicit Types (g : GlobalConfig) (c : Config (L := L)) (rcv : Receiver (L := L)).

(** ** The loops over the notifier configurations *)

(** A loop that ends with [nil] has met no nil pointer, and its body has
    ended with [nil] on every struct. *)
Lemma range_ptrs_Nil {T} (body : T -> T * ending) (xs xs' : list (option T)) :
  range_ptrs body xs = (xs', Nil) ->
  Forall2 (fun x x' => exists a a', x = Some a /\ x' = Some a' /\ body a = (a', Nil))
          xs xs'.
Proof.
  revert xs'. induction xs as [|[a|] xs IH]; intros xs'; simpl.
  - intros [= <-]. constructor.
  - destruct (body a) as [a' e] eqn:Hb.
    destruct e; try discriminate.
    destruct (range_ptrs body xs) as [xs'' e'] eqn:Hr.
    intros [= <- ->]. constructor; [by exists a, a'|by apply IH].
  - discriminate.
Qed.

(** A loop over structs that its body leaves alone. *)
Lemma range_ptrs_fixed {T} (body : T -> T * ending) (xs : list (option T)) :
  Forall (fun x => exists a, x = Some a /\ body a = (a, Nil)) xs ->
  range_ptrs body xs = (xs, Nil).
Proof.
  induction 1 as [|x xs (a & -> & Hb) _ IH]; simpl; [done|].
  by rewrite Hb, IH.
Qed.

Lemma email_body_Nil g (ec ec' : EmailConfig (L := L)) :
  email_body g ec = (ec', Nil) ->
  Smarthost ec' <> ""%string /\ From ec' <> ""%string /\
  (SMTPSmarthost g = ""%string -> Smarthost ec <> ""%string) /\
  (SMTPFrom g = ""%string -> From ec <> ""%string).
Proof.
  unfold email_body.
  destruct (String.eqb (Smarthost ec) "") eqn:E1;
    [destruct (String.eqb (SMTPSmarthost g) "") eqn:E2; [discriminate|]|];
    simpl;
    (destruct (String.eqb (From ec) "") eqn:E3;
      [destruct (String.eqb (SMTPFrom g) "") eqn:E4; [discriminate|]|]);
    intros [= <-]; simpl;
    repeat match goal with
           | H : String.eqb _ _ = false |- _ => apply String.eqb_neq in H
           | H : String.eqb _ _ = true |- _ => apply String.eqb_eq in H
           end; split_and!; congruence.
Qed.

Lemma email_body_fixed g (ec : EmailConfig (L := L)) :
  Smarthost ec <> ""%string -> From ec <> ""%string -> email_body g ec = (ec, Nil).
Proof.
  intros H1%String.eqb_neq H2%String.eqb_neq. unfold email_body. by rewrite H1, H2.
Qed.

Lemma slack_body_Nil g (sc sc' : SlackConfig (L := L)) :
  slack_body g sc = (sc', Nil) ->
  slack_APIURL sc' <> ""%string /\
  (SlackAPIURL g = ""%string -> slack_APIURL sc <> ""%string).
Proof.
  unfold slack_body.
  destruct (String.eqb (slack_APIURL sc) "") eqn:E1;
    [destruct (String.eqb (SlackAPIURL g) "") eqn:E2; [discriminate|]|];
    intros [= <-]; simpl;
    repeat match goal with
           | H : String.eqb _ _ = false |- _ => apply String.eqb_neq in H
           | H : String.eqb _ _ = true |- _ => apply String.eqb_eq in H
           end; split_and!; congruence.
Qed.

Lemma slack_body_fixed g (sc : SlackConfig (L := L)) :
  slack_APIURL sc <> ""%string -> slack_body g sc = (sc, Nil).
Proof. intros H1%String.eqb_neq. unfold slack_body. by rewrite H1. Qed.

Lemma pagerduty_body_Nil g (pdc pdc' : PagerdutyConfig (L := L)) :
  pagerduty_body g pdc = (pdc', Nil) -> URL pdc' <> ""%string.
Proof.
  unfold pagerduty_body.
  destruct (String.eqb (URL pdc) "") eqn:E1;
    [destruct (String.eqb (PagerdutyURL g) "") eqn:E2; [discriminate|]|];
    intros [= <-]; simpl;
    repeat match goal with
           | H : String.eqb _ _ = false |- _ => apply String.eqb_neq in H
           end; congruence.
Qed.

Lemma pagerduty_body_fixed g (pdc : PagerdutyConfig (L := L)) :
  URL pdc <> ""%string -> pagerduty_body g pdc = (pdc, Nil).
Proof. intros H1%String.eqb_neq. unfold pagerduty_body. by rewrite H1. Qed.

Lemma HasSuffix_not_empty (s : string) : HasSuffix s "/" = true -> s <> ""%string.
Proof. intros H ->. discriminate. Qed.

Lemma hipchat_body_Nil g (hc hc' : HipchatConfig (L := L)) :
  hipchat_body g hc = (hc', Nil) ->
  HasSuffix (hipchat_APIURL hc') "/" = true /\ AuthToken hc' <> ""%string /\
  (HipchatAuthToken g = ""%string -> AuthToken hc <> ""%string).
Proof.
  unfold hipchat_body.
  destruct (String.eqb (hipchat_APIURL hc) "") eqn:E1;
    [destruct (String.eqb (HipchatURL g) "") eqn:E2; [discriminate|]|]; simpl.
  all: match goal with |- context [HasSuffix ?s "/"] =>
         destruct (HasSuffix s "/") eqn:E3 end; simpl.
  all: destruct (String.eqb (AuthToken hc) "") eqn:E4;
         [destruct (String.eqb (HipchatAuthToken g) "") eqn:E5; [discriminate|]|].
  all: intros [= <-]; simpl.
  all: repeat match goal with
           | H : String.eqb _ _ = false |- _ => apply String.eqb_neq in H
           | H : String.eqb _ _ = true |- _ => apply String.eqb_eq in H
           end.
  all: split_and!; try congruence; try apply HasSuffix_append.
Qed.

Lemma hipchat_body_fixed g (hc : HipchatConfig (L := L)) :
  HasSuffix (hipchat_APIURL hc) "/" = true -> AuthToken hc <> ""%string ->
  hipchat_body g hc = (hc, Nil).
Proof.
  intros H1 H2%String.eqb_neq. unfold hipchat_body.
  pose proof (HasSuffix_not_empty _ H1) as H0%String.eqb_neq.
  rewrite H0. simpl. rewrite H1. simpl. by rewrite H2.
Qed.

Lemma opsgenie_body_Nil g (ogc ogc' : OpsGenieConfig (L := L)) :
  opsgenie_body g ogc = (ogc', Nil) -> HasSuffix (APIHost ogc') "/" = true.
Proof.
  unfold opsgenie_body.
  destruct (String.eqb (APIHost ogc) "") eqn:E1;
    [destruct (String.eqb (OpsGenieAPIHost g) "") eqn:E2; [discriminate|]|]; simpl.
  all: match goal with |- context [HasSuffix ?s "/"] =>
         destruct (HasSuffix s "/") eqn:E3 end; simpl.
  all: intros [= <-]; simpl; try done; apply HasSuffix_append.
Qed.

Lemma opsgenie_body_fixed g (ogc : OpsGenieConfig (L := L)) :
  HasSuffix (APIHost ogc) "/" = true -> opsgenie_body g ogc = (ogc, Nil).
Proof.
  intros H1. unfold opsgenie_body.
  pose proof (HasSuffix_not_empty _ H1) as H0%String.eqb_neq.
  rewrite H0. simpl. by rewrite H1.
Qed.

Lemma Forall2_right {A B} (R : A -> B -> Prop) (Q : B -> Prop) l k :
  Forall2 R l k -> (forall x y, R x y -> Q y) -> Forall Q k.
Proof. induction 1; intros HQ; constructor; eauto. Qed.

Lemma Forall2_left {A B} (R : A -> B -> Prop) (Q : A -> Prop) l k :
  Forall2 R l k -> (forall x y, R x y -> Q x) -> Forall Q l.
Proof. induction 1; intros HQ; constructor; eauto. Qed.

(** ** The loop over the receivers *)

Lemma receiver_body_Nil g names rcv rcv' :
  receiver_body g names rcv = (rcv', Nil) ->
  Name rcv' = Name rcv /\ (Name rcv ∉ names) /\ settled rcv' /\
  (bare g -> self_reliant rcv).
Proof.
  unfold receiver_body.
  destruct (bool_decide (Name rcv ∈ names)) eqn:Hn; [discriminate|].
  apply bool_decide_eq_false in Hn.
  destruct (range_ptrs (email_body g) (EmailConfigs rcv)) as [ecs e1] eqn:H1.
  destruct e1; try discriminate. simpl.
  destruct (range_ptrs (slack_body g) (SlackConfigs rcv)) as [scs e2] eqn:H2.
  destruct e2; try discriminate. simpl.
  destruct (range_ptrs (hipchat_body g) (HipchatConfigs rcv)) as [hcs e3] eqn:H3.
  destruct e3; try discriminate. simpl.
  destruct (range_ptrs (pagerduty_body g) (PagerdutyConfigs rcv)) as [pdcs e4] eqn:H4.
  destruct e4; try discriminate. simpl.
  destruct (range_ptrs (opsgenie_body g) (OpsGenieConfigs rcv)) as [ogcs e5] eqn:H5.
  intros [= <- ->]. simpl.
  apply range_ptrs_Nil in H1, H2, H3, H4, H5.
  split; [done|]. split; [done|]. split.
  - unfold settled. simpl. split_and!.
    + eapply Forall2_right; [exact H1|]. intros x y (a & a' & -> & -> & Hb).
      apply email_body_Nil in Hb as (? & ? & _). by exists a'.
    + eapply Forall2_right; [exact H2|]. intros x y (a & a' & -> & -> & Hb).
      apply slack_body_Nil in Hb as (? & _). by exists a'.
    + eapply Forall2_right; [exact H3|]. intros x y (a & a' & -> & -> & Hb).
      apply hipchat_body_Nil in Hb as (? & ? & _). by exists a'.
    + eapply Forall2_right; [exact H4|]. intros x y (a & a' & -> & -> & Hb).
      apply pagerduty_body_Nil in Hb. by exists a'.
    + eapply Forall2_right; [exact H5|]. intros x y (a & a' & -> & -> & Hb).
      apply opsgenie_body_Nil in Hb. by exists a'.
  - intros (Hg1 & Hg2 & Hg3 & Hg4). unfold self_reliant. split_and!.
    + eapply Forall2_left; [exact H1|]. intros x y (a & a' & -> & -> & Hb).
      apply email_body_Nil in Hb as (_ & _ & ? & ?). exists a. auto.
    + eapply Forall2_left; [exact H2|]. intros x y (a & a' & -> & -> & Hb).
      apply slack_body_Nil in Hb as (_ & ?). exists a. auto.
    + eapply Forall2_left; [exact H3|]. intros x y (a & a' & -> & -> & Hb).
      apply hipchat_body_Nil in Hb as (_ & _ & ?). exists a. auto.
Qed.

Lemma receiver_body_fixed g names rcv :
  Name rcv ∉ names -> settled rcv -> receiver_body g names rcv = (rcv, Nil).
Proof.
  intros Hn (H1 & H2 & H3 & H4 & H5). unfold receiver_body.
  rewrite bool_decide_eq_false_2 by done.
  rewrite (range_ptrs_fixed (email_body g) (EmailConfigs rcv)).
  2:{ eapply Forall_impl; [exact H1|]. intros x (ec & -> & ? & ?).
      exists ec. split; [done|]. by apply email_body_fixed. }
  simpl. rewrite (range_ptrs_fixed (slack_body g) (SlackConfigs rcv)).
  2:{ eapply Forall_impl; [exact H2|]. intros x (sc & -> & ?).
      exists sc. split; [done|]. by apply slack_body_fixed. }
  simpl. rewrite (range_ptrs_fixed (hipchat_body g) (HipchatConfigs rcv)).
  2:{ eapply Forall_impl; [exact H3|]. intros x (hc & -> & ? & ?).
      exists hc. split; [done|]. by apply hipchat_body_fixed. }
  simpl. rewrite (range_ptrs_fixed (pagerduty_body g) (PagerdutyConfigs rcv)).
  2:{ eapply Forall_impl; [exact H4|]. intros x (pdc & -> & ?).
      exists pdc. split; [done|]. by apply pagerduty_body_fixed. }
  simpl. rewrite (range_ptrs_fixed (opsgenie_body g) (OpsGenieConfigs rcv)).
  2:{ eapply Forall_impl; [exact H5|]. intros x (ogc & -> & ?).
      exists ogc. split; [done|]. by apply opsgenie_body_fixed. }
  by destruct rcv.
Qed.

Lemma range_receivers_Nil g names (rcvs rcvs' : list (option Receiver)) :
  range_receivers g names rcvs = (rcvs', Nil) ->
  exists rs,
    rcvs' = map Some rs /\
    NoDup (map Name rs) /\
    (forall n, n ∈ map Name rs -> n ∉ names) /\
    Forall settled rs /\
    Forall2 (fun x rcv' => exists rcv, x = Some rcv /\ Name rcv = Name rcv') rcvs rs /\
    (bare g -> Forall (fun x => exists rcv, x = Some rcv /\ self_reliant rcv) rcvs).
Proof.
  revert names rcvs'. induction rcvs as [|[rcv|] rcvs IH]; intros names rcvs'; simpl.
  - intros [= <-]. exists []. split_and!; try done; try constructor.
    intros n Hn. by apply not_elem_of_nil in Hn.
  - destruct (receiver_body g names rcv) as [rcv' e] eqn:Hb.
    destruct e; try discriminate.
    destruct (range_receivers g (Name rcv' :: names) rcvs) as [rcvs'' e'] eqn:Hr.
    intros [= <- ->].
    apply receiver_body_Nil in Hb as (Hname & Hnotin & Hset & Hself).
    destruct (IH _ _ Hr) as (rs & -> & Hnd & Hdis & Hall & Hnames & Hselfs).
    exists (rcv' :: rs). simpl. split_and!; try done.
    + constructor; [|exact Hnd]. intros Hin. apply (Hdis _ Hin). by left.
    + intros n [->|Hn]%elem_of_cons; [congruence|].
      intros Hin. apply (Hdis _ Hn). by right.
    + by constructor.
    + constructor; [by exists rcv|exact Hnames].
    + intros Hg. constructor; [exists rcv; auto|auto].
  - discriminate.
Qed.

Lemma range_receivers_fixed g names (rs : list (Receiver (L := L))) :
  NoDup (map Name rs) ->
  (forall n, n ∈ map Name rs -> n ∉ names) ->
  Forall settled rs ->
  range_receivers g names (map Some rs) = (map Some rs, Nil).
Proof.
  revert names. induction rs as [|rcv rs IH]; intros names Hnd Hdis Hall; simpl; [done|].
  apply NoDup_cons in Hnd as [Hnotin Hnd]. apply Forall_cons in Hall as [Hset Hall].
  rewrite receiver_body_fixed; [|apply Hdis; by left|done].
  rewrite IH; try done.
  intros n Hn [->|Hin]%elem_of_cons; [done|].
  apply (Hdis n); [by right|done].
Qed.

(** What [UnmarshalYAML] of [*Config] leaves when it ends with [nil]. *)
Lemma Config_defaults_Nil c c' :
  Config_defaults c = (c', Nil) ->
  exists g rs,
    Global c' = Some g /\
    g = default DefaultGlobalConfig (Global c) /\
    Receivers c' = map Some rs /\
    NoDup (map Name rs) /\ Forall settled rs /\ XXX c' = [] /\
    Forall2 (fun x rcv' => exists rcv, x = Some rcv /\ Name rcv = Name rcv')
            (Receivers c) rs /\
    config_Route c' = config_Route c /\ InhibitRules c' = InhibitRules c /\
    Templates c' = Templates c /\ original c' = original c /\
    (bare g -> Forall (fun x => exists rcv, x = Some rcv /\ self_reliant rcv)
                      (Receivers c)).
Proof.
  unfold Config_defaults. simpl.
  set (g := match Global c with Some g => g | None => DefaultGlobalConfig end).
  destruct (range_receivers g [] (Receivers c)) as [rcvs e] eqn:Hr.
  destruct e; try discriminate. simpl.
  unfold checkOverflow. destruct (XXX c) eqn:HX; simpl; [|discriminate].
  intros [= <-]. simpl.
  apply range_receivers_Nil in Hr as (rs & -> & Hnd & _ & Hall & Hnames & Hself).
  exists g, rs. by split_and!.
Qed.

(** X17: a configuration that is accepted has receivers of distinct
    names.  When [UnmarshalYAML] of [*Config] returns [nil], no entry of
    [c.Receivers] is nil, the receivers have the names that [unmarshal]
    gave them, and no two of them have the same name. *)
Theorem X17_accepted_receivers_have_distinct_names
    (unmarshal : Config -> Config * option string) c c0 c' :
  unmarshal c = (c0, None) ->
  Config_UnmarshalYAML unmarshal c = (c', Nil) ->
  exists rs,
    Receivers c' = map Some rs /\ NoDup (map Name rs) /\
    Forall2 (fun x rcv' => exists rcv, x = Some rcv /\ Name rcv = Name rcv')
            (Receivers c0) rs.
Proof.
  intros Hu. unfold Config_UnmarshalYAML. rewrite Hu.
  intros H. apply Config_defaults_Nil in H as (g & rs & _ & _ & Hr & Hnd & _ & _ & Hn & _).
  by exists rs.
Qed.

(** X18: a configuration that is accepted has every setting the notifiers
    need.  When [UnmarshalYAML] of [*Config] returns [nil], the global
    configuration is there, no unknown field is left, and in every
    receiver every e-mail configuration has a smarthost and a sender,
    every Slack configuration an API URL, every Hipchat configuration
    an API URL that ends with a slash and a token, every PagerDuty
    configuration a URL and every OpsGenie configuration a host that
    ends with a slash. *)
Theorem X18_accepted_configuration_is_settled
    (unmarshal : Config -> Config * option string) c c' :
  Config_UnmarshalYAML unmarshal c = (c', Nil) ->
  is_Some (Global c') /\ XXX c' = [] /\
  Forall (fun x => exists rcv, x = Some rcv /\ settled rcv) (Receivers c').
Proof.
  unfold Config_UnmarshalYAML. destruct (unmarshal c) as [c0 [err|]]; [discriminate|].
  intros H. apply Config_defaults_Nil in H as (g & rs & Hg & _ & Hr & _ & Hall & HX & _).
  split; [by exists g|]. split; [exact HX|].
  rewrite Hr. apply Forall_map. eapply Forall_impl; [exact Hall|].
  intros rcv Hs. by exists rcv.
Qed.

(** X19: the defaults are filled in once.  On a configuration that
    [UnmarshalYAML] of [*Config] has accepted, the part of the function
    that follows the call of [unmarshal] ends with [nil] again and
    changes nothing. *)
Theorem X19_defaults_are_filled_in_once c c' :
  Config_defaults c = (c', Nil) -> Config_defaults c' = (c', Nil).
Proof.
  intros H. apply Config_defaults_Nil in H
    as (g & rs & Hg & _ & Hr & Hnd & Hall & HX & _).
  unfold Config_defaults. rewrite Hg. simpl. rewrite Hr.
  rewrite range_receivers_fixed; try done.
  - simpl. rewrite HX. simpl. destruct c'. simpl in *. by subst.
  - intros n _ Hn. by apply not_elem_of_nil in Hn.
Qed.

(** X20: without a global section the receivers rely on themselves.  When
    the file has no global section (or an empty one) and
    [UnmarshalYAML] of [*Config] returns [nil], the global configuration
    is the default one of the package, and every e-mail configuration of
    the file has its own smarthost and sender, every Slack configuration
    its own API URL and every Hipchat configuration its own token: the
    defaults provide none of these. *)
Theorem X20_without_global_section_receivers_rely_on_themselves
    (unmarshal : Config -> Config * option string) c c0 c' :
  unmarshal c = (c0, None) ->
  Global c0 = None ->
  Config_UnmarshalYAML unmarshal c = (c', Nil) ->
  Global c' = Some DefaultGlobalConfig /\
  Forall (fun x => exists rcv, x = Some rcv /\ self_reliant rcv) (Receivers c0).
Proof.
  intros Hu Hg. unfold Config_UnmarshalYAML. rewrite Hu.
  intros H. apply Config_defaults_Nil in H
    as (g & rs & Hg' & Hdef & _ & _ & _ & _ & _ & _ & _ & _ & _ & Hself).
  rewrite Hg in Hdef. simpl in Hdef. subst g. split; [exact Hg'|].
  apply Hself. by split_and!.
Qed.

(** X26: a complete configuration is accepted as it is.  When
    [unmarshal] leaves a configuration with a global section, receivers
    of distinct names that have every setting the notifiers need, and no
    unknown field, [UnmarshalYAML] of [*Config] returns [nil] and changes
    nothing: the global section never replaces a setting that a receiver
    has of its own. *)
Theorem X26_a_complete_configuration_is_accepted_as_it_is
    (unmarshal : Config -> Config * option string) c0 c g
    (rs : list (Receiver (L := L))) :
  unmarshal c0 = (c, None) ->
  Global c = Some g ->
  Receivers c = map Some rs ->
  NoDup (map Name rs) ->
  Forall settled rs ->
  XXX c = [] ->
  Config_UnmarshalYAML unmarshal c0 = (c, Nil).
Proof.
  intros Hu Hg Hr Hnd Hall HX. unfold Config_UnmarshalYAML. rewrite Hu.
  unfold Config_defaults. rewrite Hg. simpl. rewrite Hr.
  rewrite range_receivers_fixed; try done.
  - simpl. rewrite HX. simpl. destruct c. simpl in *. by subst.
  - intros n _ Hn. by apply not_elem_of_nil in Hn.
Qed.

Lemma range_receivers_nil_entry g names (rs : list (Receiver (L := L))) rest :
  NoDup (map Name rs) ->
  (forall n, n ∈ map Name rs -> n ∉ names) ->
  Forall settled rs ->
  range_receivers g names (map Some rs ++ None :: rest)
  = (map Some rs ++ None :: rest, NilPanic).
Proof.
  revert names. induction rs as [|rcv rs IH]; intros names Hnd Hdis Hall; simpl; [done|].
  apply NoDup_cons in Hnd as [Hnotin Hnd]. apply Forall_cons in Hall as [Hset Hall].
  rewrite receiver_body_fixed; [|apply Hdis; by left|done].
  rewrite IH; try done.
  intros n Hn [->|Hin]%elem_of_cons; [done|].
  apply (Hdis n); [by right|done].
Qed.

(** X27: a nil receiver makes [UnmarshalYAML] panic.  When the entries of
    [c.Receivers] before a nil entry are receivers of distinct names
    that have every setting, [UnmarshalYAML] of [*Config] neither
    returns [nil] nor an error: the loop over the receivers reads the
    name behind the nil pointer.  The receivers are as they were. *)
Theorem X27_a_nil_receiver_panics
    (unmarshal : Config -> Config * option string) c0 c
    (rs : list (Receiver (L := L))) rest :
  unmarshal c0 = (c, None) ->
  Receivers c = map Some rs ++ None :: rest ->
  NoDup (map Name rs) ->
  Forall settled rs ->
  snd (Config_UnmarshalYAML unmarshal c0) = NilPanic /\
  Receivers (fst (Config_UnmarshalYAML unmarshal c0)) = Receivers c.
Proof.
  intros Hu Hr Hnd Hall. unfold Config_UnmarshalYAML. rewrite Hu.
  unfold Config_defaults. simpl. rewrite Hr.
  rewrite range_receivers_nil_entry; try done.
  intros n _ Hn. by apply not_elem_of_nil in Hn.
Qed.

(** ** Routes and inhibition rules *)

Lemma check_names_None {V} (m : list (string * V)) :
  check_names (L := L) m = None <->
  Forall (fun e => LabelNameRE_MatchString L (fst e) = true) m.
Proof.
  induction m as [|[k v] m IH]; simpl; [split; [constructor|done]|].
  destruct (LabelNameRE_MatchString L k) eqn:E; simpl.
  - rewrite IH. split; [by constructor|by inversion 1].
  - split; [discriminate|]. inversion 1; simpl in *. congruence.
Qed.

Lemma check_group_by_None seen lns :
  check_group_by (L := L) seen lns = None <->
  NoDup lns /\ (forall ln, ln ∈ lns -> ln ∉ seen).
Proof.
  revert seen. induction lns as [|ln lns IH]; intros seen; simpl.
  - split; [|done]. intros _. split; [constructor|].
    intros ln H. by apply not_elem_of_nil in H.
  - destruct (bool_decide (ln ∈ seen)) eqn:E.
    + apply bool_decide_eq_true in E. split; [discriminate|].
      intros [_ H]. exfalso. apply (H ln); [by left|done].
    + apply bool_decide_eq_false in E. rewrite IH. split.
      * intros [Hnd Hdis]. split.
        -- constructor; [|exact Hnd]. intros Hin. apply (Hdis _ Hin). by left.
        -- intros x [->|Hx]%elem_of_cons; [done|].
           intros Hin. apply (Hdis _ Hx). by right.
      * intros [Hnd Hdis]. apply NoDup_cons in Hnd as [Hnotin Hnd].
        split; [exact Hnd|].
        intros x Hx [->|Hin]%elem_of_cons; [done|].
        apply (Hdis x); [by right|done].
Qed.

Lemma checkOverflow_None (m : list (string * Any L)) ctx :
  checkOverflow m ctx = None <-> m = [].
Proof. unfold checkOverflow. destruct m; simpl; split; done. Qed.

(** X21: which routes are accepted.  [UnmarshalYAML] of [*Route] returns
    [nil] exactly when [unmarshal] does, every key of [match] and of
    [match_re] is a label name, no label occurs twice in [group_by] and
    no unknown field is left; the order in which the maps are gone
    through plays no part in this. *)
Theorem X21_Route_is_accepted_iff (unmarshal : Route -> Route * option string)
    (r r' : Route (L := L)) :
  Route_UnmarshalYAML unmarshal r = (r', None) <->
  unmarshal r = (r', None) /\
  Forall (fun e => LabelNameRE_MatchString L (fst e) = true) (Match r') /\
  Forall (fun e => LabelNameRE_MatchString L (fst e) = true) (MatchRE r') /\
  NoDup (GroupBy r') /\
  route_XXX r' = [].
Proof.
  unfold Route_UnmarshalYAML, Route_checks.
  destruct (unmarshal r) as [r0 [err|]].
  - split; [discriminate|]. by intros [[=] _].
  - rewrite <- !check_names_None, <- (checkOverflow_None _ "route").
    pose proof (check_group_by_None [] (GroupBy r')) as Hg.
    split.
    + intros [= -> H]. split; [done|].
      destruct (check_names (Match r')); [discriminate|].
      destruct (check_names (MatchRE r')); [discriminate|].
      destruct (check_group_by [] (GroupBy r')); [discriminate|].
      split_and!; try done. by apply Hg.
    + intros ([= ->] & -> & -> & Hnd & ->).
      destruct Hg as [_ ->]; [done|]. split; [exact Hnd|].
      intros ln _ H. by apply not_elem_of_nil in H.
Qed.

(** X22: which inhibition rules are accepted.  [UnmarshalYAML] of
    [*InhibitRule] returns [nil] exactly when [unmarshal] does, every key
    of the four maps of matchers is a label name and no unknown field is
    left. *)
Theorem X22_InhibitRule_is_accepted_iff
    (unmarshal : InhibitRule -> InhibitRule * option string)
    (r r' : InhibitRule (L := L)) :
  InhibitRule_UnmarshalYAML unmarshal r = (r', None) <->
  unmarshal r = (r', None) /\
  Forall (fun e => LabelNameRE_MatchString L (fst e) = true) (SourceMatch r') /\
  Forall (fun e => LabelNameRE_MatchString L (fst e) = true) (SourceMatchRE r') /\
  Forall (fun e => LabelNameRE_MatchString L (fst e) = true) (TargetMatch r') /\
  Forall (fun e => LabelNameRE_MatchString L (fst e) = true) (TargetMatchRE r') /\
  inhibit_XXX r' = [].
Proof.
  unfold InhibitRule_UnmarshalYAML, InhibitRule_checks.
  destruct (unmarshal r) as [r0 [err|]].
  - split; [discriminate|]. by intros [[=] _].
  - rewrite <- !check_names_None, <- (checkOverflow_None _ "inhibit rule").
    split.
    + intros [= -> H]. split; [done|].
      destruct (check_names (SourceMatch r')); [discriminate|].
      destruct (check_names (SourceMatchRE r')); [discriminate|].
      destruct (check_names (TargetMatch r')); [discriminate|].
      destruct (check_names (TargetMatchRE r')); [discriminate|].
      by split_and!.
    + by intros ([= ->] & -> & -> & -> & -> & ->).
Qed.

(** ** Loading a file *)


(** X24: a loaded configuration prints as its file.  When [LoadFile]
    returns a configuration, the file could be read, it had a route, and
    the configuration keeps the content of the file; [String] then gives
    that content with the secrets hidden by the pattern, and never a
    marshalled form of the configuration, unless the content is
    empty. *)
Theorem X24_a_loaded_configuration_prints_as_its_file
    (yaml_Unmarshal : string -> Config -> Config * option string)
    (yaml_Marshal : Config -> string + string)
    (ReadFile : string -> string + string) (Dir : string -> string)
    (filename : string) (cfg : Config (L := L)) :
  LoadFile yaml_Unmarshal ReadFile Dir filename = inl cfg ->
  exists content,
    ReadFile filename = inl content /\
    original cfg = content /\
    is_Some (config_Route cfg) /\
    (content <> ""%string ->
     Config_String yaml_Marshal cfg = patAuthLine_hide L content).
Proof.
  unfold LoadFile, Load.
  destruct (ReadFile filename) as [content|err]; [|discriminate].
  destruct (yaml_Unmarshal content empty_Config) as [c0 [err|]]; [discriminate|].
  destruct (config_Route c0) as [rt|] eqn:Hrt; [|discriminate].
  intros [= <-]. exists content. simpl.
  split; [done|]. split; [done|]. split; [rewrite Hrt; by eexists|].
  intros Hne%String.eqb_neq. unfold Config_String. simpl. by rewrite Hne.
Qed.

End props.
End ConfigProps.

(** * The order of times and the way back, on concrete times *)

Module ClockOrderRuns.
Import F64 GoTime Clock ClockProps ClockSample ClockOrder.
Local Open Scope Q_scope.

Lemma X1_witness :
  (expandTime indef_amd64 opts2015 (Fin (1 # 2))
   <= expandTime indef_amd64 opts2015 (Fin 1))%Z /\
  ((1 # 2) + (2 # 1000000) <= 1 ->
   (expandTime indef_amd64 opts2015 (Fin (1 # 2))
    < expandTime indef_amd64 opts2015 (Fin 1))%Z).
Proof.
  apply (X1_expandTime_keeps_the_order indef_amd64 opts2015 (1 # 2) 1).
  - vm_compute. discriminate.
  - vm_compute. discriminate.
  - vm_compute. discriminate.
Defined.

Lemma X2_witness :
  exists r r',
    relativeTime opts2015 1446000000000000000%Z = Fin r /\
    relativeTime opts2015 1446000000000000015%Z = Fin r' /\ r <= r'.
Proof.
  apply (X2_relativeTime_keeps_the_order opts2015
           1446000000000000000%Z 1446000000000000015%Z). lia.
Defined.

(** Two and a half seconds are 2500000000 nanoseconds. *)
Lemma X3_witness :
  expandTime indef_amd64 opts2015 (Fin (5 # 2)) = 1446000002500000000%Z /\
  exists q', relativeTime opts2015 (expandTime indef_amd64 opts2015 (Fin (5 # 2)))
             = Fin q' /\ q' == 5 # 2.
Proof.
  apply (X3_whole_nanoseconds_round_trip indef_amd64 opts2015 (5 # 2) 2500000000%Z).
  - exists (5 # 2). split; [vm_compute; reflexivity|reflexivity].
  - reflexivity.
  - lia.
Defined.

(** Fifteen nanoseconds after the base time come back as fourteen. *)
Example fifteen_nanoseconds_come_back_as_fourteen :
  relativeTime opts2015 1446000000000000015%Z
  = Fin (4533471823554859 # 302231454903657293676544) /\
  expandTime indef_amd64 opts2015 (relativeTime opts2015 1446000000000000015%Z)
  = 1446000000000000014%Z.
Proof. vm_compute. split; reflexivity. Qed.

Lemma X4_witness :
  (1446000000000000015 - 1
   <= expandTime indef_amd64 opts2015 (relativeTime opts2015 1446000000000000015)
   <= 1446000000000000015)%Z.
Proof.
  apply (X4_relative_then_expand_loses_a_nanosecond indef_amd64 opts2015
           1446000000000000015%Z).
  - vm_compute. discriminate.
  - vm_compute. discriminate.
Defined.

End ClockOrderRuns.

(** * The instance operations on more concrete runs *)

Module InstanceLifeRuns.
Import F64 GoTime Clock GoRt Harness HarnessSpec Sample SampleRequests InstanceLife.

(** An instance made with "a", then [UpdateConfig("b")] and
    [UpdateConfig("c")]: the file holds "abc". *)
Lemma X5_witness :
  exists w2,
    for_each ["b"; "c"]%string (UpdateConfig env_ok 0)
      (snd (NewAlertmanager env_ok blank_test "a" world0)) = (Ret tt, w2) /\
    holds_document 0 "abc" w2 /\
    signals w2 = signals (snd (NewAlertmanager env_ok blank_test "a" world0)) /\
    api_calls w2 = api_calls (snd (NewAlertmanager env_ok blank_test "a" world0)).
Proof.
  apply (X5_configuration_file_accumulates env_ok blank_test "a" ["b"; "c"]%string
           world0 _ (set_ams [0] blank_test) 0).
  - intros u f s. reflexivity.
  - vm_compute. reflexivity.
Defined.

Lemma X7_witness :
  now (snd (Start env_ok 0 (snd one_instance)))
  = (now (snd one_instance) + 100 * Millisecond)%Z /\
  is_Some (process_of 0 (snd (Start env_ok 0 (snd one_instance)))) /\
  exists w2,
    Start env_ok 0 (snd (Start env_ok 0 (snd one_instance))) = (Goexit, w2) /\
    failed w2 = true /\
    process_of 0 w2 = process_of 0 (snd (Start env_ok 0 (snd one_instance))) /\
    now w2 = now (snd (Start env_ok 0 (snd one_instance))) /\
    signals w2 = signals (snd (Start env_ok 0 (snd one_instance))) /\
    files w2 = files (snd (Start env_ok 0 (snd one_instance))).
Proof.
  apply (X7_Start_works_once env_ok 0 (snd one_instance)).
  vm_compute. reflexivity.
Defined.

Lemma X8_witness :
  exists w1,
    set_silence_action env_id opts_id (Some client0) 0 world_id = (Ret tt, w1) /\
    api_calls w1
    = api_calls world_id
      ++ [SetCall client0 ((EmptyString, "quiet"%string) : Silence decls_id)] /\
    silence_heap w1 !! 0
    = Some (@Build_TestSilence decls_id "id-7"%string "quiet"%string) /\
    forall w2 : World decls_id,
      silence_heap w2 = silence_heap w1 ->
      (exists w3,
         del_silence_action env_id (Some client0) 0 w2 = (Ret tt, w3) /\
         api_calls w3
         = api_calls w2 ++ [DelCall client0 ("id-7"%string : SilenceID decls_id)] /\
         silence_heap w3 = silence_heap w2) /\
      (exists w3,
         set_silence_action env_id opts_id (Some client0) 0 w2 = (Ret tt, w3) /\
         api_calls w3
         = api_calls w2
           ++ [SetCall client0 (("id-7"%string, "quiet"%string) : Silence decls_id)]).
Proof.
  apply (X8_silence_ID_is_read_when_fired env_id opts_id client0 client0 0
           world_id (@Build_TestSilence decls_id EmptyString "quiet"%string)
           "id-7"%string).
  - reflexivity.
  - reflexivity.
Defined.

(** The requests of a silence that is set twice and then deleted: the
    first one is sent without identifier, the second one and the deletion
    with the identifier the server gave. *)
Example a_silence_set_twice_and_deleted :
  api_calls
    (snd ((set_silence_action env_id opts_id (Some client0) 0 ;;
           set_silence_action env_id opts_id (Some client0) 0 ;;
           del_silence_action env_id (Some client0) 0)%go world_id))
  = [SetCall client0 ((EmptyString, "quiet"%string) : Silence decls_id);
     SetCall client0 (("id-7"%string, "quiet"%string) : Silence decls_id);
     DelCall client0 ("id-7"%string : SilenceID decls_id)].
Proof. reflexivity. Qed.

End InstanceLifeRuns.

(** * [Run] on more concrete tests *)

Module RunOutcomesRuns.
Import F64 GoTime Clock GoRt Harness HarnessSpec Sample SampleRequests RunProps RunOutcomes.

Ltac each_instance H :=
  repeat (apply elem_of_cons in H as [->|H]); [..|by apply not_elem_of_nil in H].

Lemma X9_witness :
  exists w',
    await_deadline indef_amd64 late_test (snd (built_with env_ok ["a"%string]))
    = (Ret tt, w') /\
    (now (snd (built_with env_ok ["a"%string])) <= now w')%Z /\
    forall c, c ∈ collectors late_test ->
      (expandTime indef_amd64 (opts late_test) (Collector_latest decls c) <= now w')%Z.
Proof.
  apply (X9_collectors_are_checked_after_their_latest indef_amd64 late_test
           (snd (built_with env_ok ["a"%string]))).
  - vm_compute. discriminate.
  - repeat constructor.
    + exists (1 # 2)%Q. split; [reflexivity|vm_compute; discriminate].
    + exists (1 # 4)%Q. split; [reflexivity|vm_compute; discriminate].
Defined.

(** Two instances are started and torn down: the second one first. *)
Example two_instances_run :
  let r := Run indef_amd64 env_ready (fst two_instances) (snd two_instances) in
  fst r = Ret tt /\
  signals (snd r) = [(1001%Z, SIGTERM); (1000%Z, SIGTERM)] /\
  process_of 0 (snd r) = Some {| Pid := 1000 |} /\
  process_of 1 (snd r) = Some {| Pid := 1001 |}.
Proof. vm_compute. repeat split; reflexivity. Qed.

Lemma X10_witness :
  exists started rest,
    ams (fst two_instances) = started ++ rest /\
    (Ret tt = Ret tt -> rest = []) /\
    Forall (fun am =>
              is_Some (process_of am
                         (snd (Run indef_amd64 env_ready (fst two_instances)
                                 (snd two_instances))))) started /\
    signals (snd (Run indef_amd64 env_ready (fst two_instances) (snd two_instances)))
    = signals (snd two_instances)
      ++ flat_map (term_signal
                     (snd (Run indef_amd64 env_ready (fst two_instances)
                             (snd two_instances))))
                  (reverse started).
Proof.
  apply (X10_teardowns_run_in_reverse indef_amd64 env_ready (fst two_instances)
           (snd two_instances)).
  - intros am H. vm_compute in H. each_instance H;
      eexists _, _; split; vm_compute; reflexivity.
  - intros k fs f H. vm_compute in H. by apply not_elem_of_nil in H.
  - vm_compute. reflexivity.
  - discriminate.
  - discriminate.
Defined.

Lemma X11_witness :
  Run indef_amd64 env_ready panic_test (snd two_instances)
  = runActions indef_amd64 panic_test
      (snd (start_all env_ready (ams panic_test) [] (snd two_instances))) /\
  (fst (Run indef_amd64 env_ready panic_test (snd two_instances)) = Crashed \/
   fst (Run indef_amd64 env_ready panic_test (snd two_instances)) = Blocked).
Proof.
  apply (X11_a_function_that_does_not_return_stops_Run indef_amd64 env_ready panic_test
           (snd two_instances) _ [1; 0] (Fin 1) [panic] panic).
  - by left.
  - by left.
  - intros u. discriminate.
  - vm_compute. reflexivity.
Defined.

(** After the crash the two processes are there, no signal was sent and
    the files stay. *)
Example nothing_is_torn_down_after_a_panic :
  let r := Run indef_amd64 env_ready panic_test (snd two_instances) in
  fst r = Crashed /\ signals (snd r) = [] /\
  process_of 0 (snd r) = Some {| Pid := 1000 |} /\
  process_of 1 (snd r) = Some {| Pid := 1001 |} /\
  files (snd r) !! "/tmp/am_config1"%string = Some "a"%string /\
  files (snd r) !! "/tmp/am_config2"%string = Some "b"%string.
Proof. vm_compute. repeat split; reflexivity. Qed.

Lemma three_requests_are_requests k fs f :
  (k, fs) ∈ actions requests_test -> f ∈ fs ->
  request env_ready (length (silence_heap (snd two_instances))) f.
Proof.
  intros H Hf. change (actions requests_test) with three_requests in H.
  unfold three_requests in H.
  repeat (apply elem_of_cons in H as [H|H]); [..|by apply not_elem_of_nil in H].
  all: injection H as -> ->.
  all: apply list_elem_of_singleton in Hf as ->.
  - apply request_push.
  - apply request_set. vm_compute. lia.
  - apply request_del. vm_compute. lia.
Qed.

Lemma X12_witness :
  exists w',
    runActions indef_amd64 requests_test (snd two_instances) = (Ret tt, w') /\
    length (api_calls w')
    = length (api_calls (snd two_instances))
      + length (flat_map snd (actions requests_test)) /\
    am_heap w' = am_heap (snd two_instances) /\
    signals w' = signals (snd two_instances) /\
    files w' = files (snd two_instances).
Proof.
  apply (X12_requests_are_all_sent indef_amd64 env_ready requests_test (snd two_instances)).
  apply three_requests_are_requests.
Defined.

Lemma X13_witness :
  exists w',
    Run indef_amd64 env_ready requests_test (snd two_instances) = (Ret tt, w') /\
    (forall am, am ∈ ams requests_test -> torn_down am w') /\
    length (api_calls w')
    = length (api_calls (snd two_instances))
      + length (flat_map snd (actions requests_test)).
Proof.
  apply (X13_a_test_of_requests_runs_to_the_end indef_amd64 env_ready requests_test
           (snd two_instances)).
  - intros u c. eexists. reflexivity.
  - assert (ams requests_test = [0; 1]) as -> by (vm_compute; reflexivity).
    apply NoDup_cons. split; [|apply NoDup_singleton].
    intros H%list_elem_of_singleton. discriminate.
  - intros am H. vm_compute in H. each_instance H;
      eexists _, _, _; split_and!; vm_compute; reflexivity.
  - apply three_requests_are_requests.
Defined.

(** The three requests of the test, in the order of their times; the
    deletion names the identifier that the server gave for the
    silence. *)
Example the_requests_of_the_test :
  api_calls (snd (Run indef_amd64 env_ready requests_test (snd two_instances)))
  = [PushCall client0 (["alert-a"%string] : list (Alert decls));
     SetCall client0 ("quiet"%string : Silence decls);
     DelCall client0 ("id-quiet"%string : SilenceID decls)] /\
  failed (snd (Run indef_amd64 env_ready requests_test (snd two_instances))) = true.
Proof. vm_compute. split; reflexivity. Qed.

End RunOutcomesRuns.

(** * The registry and the goroutines *)

Module RegistryGoroutinesRuns.
Import F64 GoTime Clock GoRt Harness Sample RegistryGoroutines.

(** Five calls of [Do], two of them for NaN: five goroutines. *)
Example five_calls_five_goroutines :
  length (goroutines indef_amd64 (schedule blank_test five_calls)) = 5 /\
  length (actions (schedule blank_test five_calls)) = 4.
Proof. vm_compute. split; reflexivity. Qed.

End RegistryGoroutinesRuns.

(** * More runs of the goroutines *)

Module ConcurrentProgressRuns.
Import F64 GoTime Clock Concurrent ConcurrentSpec ConcurrentProps ConcurrentSample
  ConcurrentRun ConcurrentProgress.

Lemma X15_witness :
  wg returned_state = (live (gs returned_state) + pending (main returned_state))%Z /\
  (0 <= wg returned_state)%Z /\
  length (gs returned_state) + length (remaining (main returned_state))
  = length (flatten registry1).
Proof.
  exact (X15_the_wait_group_counts_the_unfinished indef_amd64 opts0 registry1 0%Z
           returned_state (Z.le_refl 0) reachable_returned).
Defined.

(** From the start of [runActions] there is a way to its return. *)
Lemma X16_witness :
  can_return indef_amd64 opts0 (init 0%Z registry1).
Proof.
  apply (X16_runActions_can_always_return indef_amd64 opts0 registry1 0%Z).
  - vm_compute. discriminate.
  - apply rtc_refl.
Defined.

End ConcurrentProgressRuns.

(** * The configuration package on a concrete file *)

Module ConfigRuns.
Import Config ConfigSample ConfigProps.

(** What [UnmarshalYAML] makes of the file: the global configuration is
    the default one, and the PagerDuty and Hipchat configurations have
    the URLs of the defaults. *)
Example the_file_with_its_defaults :
  let r := Config_UnmarshalYAML unmarshal empty_Config in
  snd r = Nil /\
  Global (fst r) = Some DefaultGlobalConfig /\
  Receivers (fst r)
  = [Some (@Build_Receiver lib "team-a" [Some mail]
             [Some (@Build_PagerdutyConfig lib
                      "https://events.pagerduty.com/generic/2010-04-15/create_event.json" tt)]
             [Some (@Build_HipchatConfig lib "https://api.hipchat.com/" "secret" tt)]
             [] [] [] []);
     Some (@Build_Receiver lib "team-b" [Some mail]
             [Some (@Build_PagerdutyConfig lib
                      "https://events.pagerduty.com/generic/2010-04-15/create_event.json" tt)]
             [Some (@Build_HipchatConfig lib "https://api.hipchat.com/" "secret" tt)]
             [] [] [] [])].
Proof. repeat split; reflexivity. Qed.

Lemma X17_witness :
  exists rs,
    Receivers (fst (Config_UnmarshalYAML unmarshal empty_Config)) = map Some rs /\
    NoDup (map Name rs) /\
    Forall2 (fun x rcv' => exists rcv, x = Some rcv /\ Name rcv = Name rcv')
            (Receivers parsed) rs.
Proof.
  apply (X17_accepted_receivers_have_distinct_names unmarshal empty_Config parsed).
  - reflexivity.
  - reflexivity.
Defined.

Lemma X18_witness :
  is_Some (Global (fst (Config_UnmarshalYAML unmarshal empty_Config))) /\
  XXX (fst (Config_UnmarshalYAML unmarshal empty_Config)) = [] /\
  Forall (fun x => exists rcv, x = Some rcv /\ settled rcv)
         (Receivers (fst (Config_UnmarshalYAML unmarshal empty_Config))).
Proof.
  apply (X18_accepted_configuration_is_settled unmarshal empty_Config).
  reflexivity.
Defined.

Lemma X19_witness :
  Config_defaults (fst (Config_defaults parsed))
  = (fst (Config_defaults parsed), Nil).
Proof.
  apply (X19_defaults_are_filled_in_once parsed). reflexivity.
Defined.

Lemma X20_witness :
  Global (fst (Config_UnmarshalYAML unmarshal empty_Config))
  = Some DefaultGlobalConfig /\
  Forall (fun x => exists rcv, x = Some rcv /\ self_reliant rcv) (Receivers parsed).
Proof.
  apply (X20_without_global_section_receivers_rely_on_themselves unmarshal
           empty_Config parsed).
  - reflexivity.
  - reflexivity.
  - reflexivity.
Defined.

Lemma two_complete_receivers :
  NoDup (map Name [complete "team-a"; complete "team-b"]) /\
  Forall settled [complete "team-a"; complete "team-b"].
Proof.
  split.
  - apply NoDup_cons. split.
    + intros [H|H]%elem_of_cons; [discriminate H|by apply elem_of_nil in H].
    + apply NoDup_singleton.
  - repeat (once econstructor); discriminate.
Qed.

Lemma X26_witness :
  Config_UnmarshalYAML (fun _ => (complete_file, None)) empty_Config
  = (complete_file, Nil).
Proof.
  apply (X26_a_complete_configuration_is_accepted_as_it_is
           (fun _ => (complete_file, None)) empty_Config complete_file global
           [complete "team-a"; complete "team-b"]).
  - reflexivity.
  - reflexivity.
  - reflexivity.
  - apply two_complete_receivers.
  - apply two_complete_receivers.
  - reflexivity.
Defined.

Lemma X27_witness :
  snd (Config_UnmarshalYAML (fun _ => (file_with_nil, None)) empty_Config) = NilPanic /\
  Receivers (fst (Config_UnmarshalYAML (fun _ => (file_with_nil, None)) empty_Config))
  = Receivers file_with_nil.
Proof.
  apply (X27_a_nil_receiver_panics (fun _ => (file_with_nil, None)) empty_Config
           file_with_nil [complete "team-a"; complete "team-b"]
           [Some (receiver "team-c")]).
  - reflexivity.
  - reflexivity.
  - apply two_complete_receivers.
  - apply two_complete_receivers.
Defined.

(** Two receivers of the same name are refused. *)
Example the_same_name_twice :
  snd (Config_defaults
         (with_Receivers [Some (receiver "team-a"); Some (receiver "team-a")] parsed))
  = Error ("notification config name " ++ double_quote ++ "team-a" ++ double_quote
           ++ " is not unique").
Proof. reflexivity. Qed.

(** A route with a label twice in [group_by] is refused. *)
Example a_label_twice :
  snd (Route_UnmarshalYAML
         (fun _ => (@Build_Route lib "team-a" ["cluster"; "cluster"]%string
                      [] [] false [] None None None [], None)) route)
  = Some ("duplicated label " ++ double_quote ++ "cluster" ++ double_quote
          ++ " in group_by")%string.
Proof. reflexivity. Qed.


Example the_templates_of_the_file :
  Templates (resolveFilepaths "/etc/am" parsed)
  = ["/etc/am/templates/a.tmpl"; "/etc/am/b.tmpl"; ""]%string.
Proof. reflexivity. Qed.

Lemma X24_witness :
  exists c,
    (fun _ : string => inl content : string + string) "alertmanager.yml"%string
    = inl c /\
    original (resolveFilepaths "." (with_original content parsed)) = c /\
    is_Some (config_Route (resolveFilepaths "." (with_original content parsed))) /\
    (c <> ""%string ->
     Config_String (fun _ => inr "not marshalled"%string)
       (resolveFilepaths "." (with_original content parsed))
     = patAuthLine_hide lib c).
Proof.
  apply (X24_a_loaded_configuration_prints_as_its_file yaml_Unmarshal
           (fun _ => inr "not marshalled"%string)
           (fun _ => inl content) (fun _ => "."%string) "alertmanager.yml"%string).
  reflexivity.
Defined.

End ConfigRuns.
